(** * Hearing test: staircase controller and tone playback engine

    A shallow embedding of [src/lib/test/staircase.ts] (the adaptive
    threshold procedure) and of [src/lib/audio/audioEngine.ts] (the Web
    Audio playback engine), with the properties the specification states
    about them; then of [src/lib/storage.ts] (the stored results), of the
    coordinates of [src/components/AudiogramChart.tsx] and of the tones
    [src/app/page.tsx] asks for, with further properties of all of them.

    Numbers.  The TypeScript [number]s of the staircase (levels in dB, step
    sizes, counters) are modelled as [Z]: the defaults and every value the
    application passes are integers, on which double arithmetic is exact.
    Audio parameter values are modelled as real numbers.  Points of the
    audio time line are rationals (every finite double is one, and
    schedules can be filtered by time); the sums and differences the engine
    computes on them are rounded as binary64 arithmetic rounds them. *)

From Stdlib Require Lqa Floats.
From Stdlib Require Import ZArith List Lia Bool QArith Qround Qpower Reals
  Qreals Lra.
From stdpp Require Import base option list strings gmap.
Import ListNotations.

(** ** Staircase controller *)

Module Staircase.

Local Open Scope Z_scope.

Inductive Response := heard | notHeard.
Inductive Direction := down | up.

Definition Direction_eqb (a b : Direction) : bool :=
  match a, b with
  | down, down | up, up => true
  | _, _ => false
  end.

Record StaircaseConfig := {
  initialLevel : Z;   (* starting level in dB *)
  stepSizeDown : Z;   (* dB step when decreasing (user heard it) *)
  stepSizeUp : Z;     (* dB step when increasing (user did not hear it) *)
  minLevel : Z;       (* minimum level (safety limit) *)
  maxLevel : Z;       (* maximum level (safety limit) *)
  maxReversals : Z;   (* stop after this many reversals *)
  maxAttempts : Z     (* maximum total attempts per frequency *)
}.

(** [Partial<StaircaseConfig>]: [None] is an absent key. *)
Record PartialConfig := {
  initialLevel_opt : option Z;
  stepSizeDown_opt : option Z;
  stepSizeUp_opt : option Z;
  minLevel_opt : option Z;
  maxLevel_opt : option Z;
  maxReversals_opt : option Z;
  maxAttempts_opt : option Z
}.

Record StaircaseState := {
  currentLevel : Z;
  stepSize : Z;
  direction : Direction;
  reversals : Z;
  attempts : Z;
  lastResponse : option Response;
  threshold : option Z
}.

(** The object [processResponse] returns; its [threshold] key is named
    [resultThreshold] here, [threshold] being the field of the state. *)
Record ProcessResult := {
  newState : StaircaseState;
  shouldContinue : bool;
  resultThreshold : option Z
}.

Definition DEFAULT_CONFIG : StaircaseConfig := {|
  initialLevel := -20;
  stepSizeDown := 6;
  stepSizeUp := 3;
  minLevel := -60;
  maxLevel := 0;
  maxReversals := 4;
  maxAttempts := 20
|}.

Definition noOverrides : PartialConfig := {|
  initialLevel_opt := None; stepSizeDown_opt := None; stepSizeUp_opt := None;
  minLevel_opt := None; maxLevel_opt := None; maxReversals_opt := None;
  maxAttempts_opt := None
|}.

(** [{ ...DEFAULT_CONFIG, ...config }] *)
Definition spread (base : StaircaseConfig) (config : PartialConfig)
  : StaircaseConfig := {|
  initialLevel := default (initialLevel base) (initialLevel_opt config);
  stepSizeDown := default (stepSizeDown base) (stepSizeDown_opt config);
  stepSizeUp := default (stepSizeUp base) (stepSizeUp_opt config);
  minLevel := default (minLevel base) (minLevel_opt config);
  maxLevel := default (maxLevel base) (maxLevel_opt config);
  maxReversals := default (maxReversals base) (maxReversals_opt config);
  maxAttempts := default (maxAttempts base) (maxAttempts_opt config)
|}.

Definition createStaircase (config : PartialConfig)
  : StaircaseState * StaircaseConfig :=
  let fullConfig := spread DEFAULT_CONFIG config in
  ({| currentLevel := initialLevel fullConfig;
      stepSize := stepSizeDown fullConfig;
      direction := down;
      reversals := 0;
      attempts := 0;
      lastResponse := None;
      threshold := None |},
   fullConfig).

(** Field assignments on the copy [newState = { ...state }]. *)
Definition set_currentLevel (v : Z) (s : StaircaseState) : StaircaseState :=
  {| currentLevel := v; stepSize := stepSize s; direction := direction s;
     reversals := reversals s; attempts := attempts s;
     lastResponse := lastResponse s; threshold := threshold s |}.
Definition set_stepSize (v : Z) (s : StaircaseState) : StaircaseState :=
  {| currentLevel := currentLevel s; stepSize := v; direction := direction s;
     reversals := reversals s; attempts := attempts s;
     lastResponse := lastResponse s; threshold := threshold s |}.
Definition set_direction (v : Direction) (s : StaircaseState) : StaircaseState :=
  {| currentLevel := currentLevel s; stepSize := stepSize s; direction := v;
     reversals := reversals s; attempts := attempts s;
     lastResponse := lastResponse s; threshold := threshold s |}.
Definition set_reversals (v : Z) (s : StaircaseState) : StaircaseState :=
  {| currentLevel := currentLevel s; stepSize := stepSize s;
     direction := direction s; reversals := v; attempts := attempts s;
     lastResponse := lastResponse s; threshold := threshold s |}.
Definition set_attempts (v : Z) (s : StaircaseState) : StaircaseState :=
  {| currentLevel := currentLevel s; stepSize := stepSize s;
     direction := direction s; reversals := reversals s; attempts := v;
     lastResponse := lastResponse s; threshold := threshold s |}.
Definition set_lastResponse (v : option Response) (s : StaircaseState)
  : StaircaseState :=
  {| currentLevel := currentLevel s; stepSize := stepSize s;
     direction := direction s; reversals := reversals s;
     attempts := attempts s; lastResponse := v; threshold := threshold s |}.
Definition set_threshold (v : option Z) (s : StaircaseState) : StaircaseState :=
  {| currentLevel := currentLevel s; stepSize := stepSize s;
     direction := direction s; reversals := reversals s;
     attempts := attempts s; lastResponse := lastResponse s; threshold := v |}.

(** [x !== null] *)
Definition notNull {A} (o : option A) : bool :=
  match o with Some _ => true | None => false end.

Definition processResponse (state : StaircaseState) (config : StaircaseConfig)
    (response : Response) : ProcessResult :=
  let newState0 := state in
  let newState1 := set_attempts (attempts newState0 + 1) newState0 in
  let newState2 := set_lastResponse (Some response) newState1 in
  (* check if we've exceeded max attempts *)
  if maxAttempts config <=? attempts newState2 then
    let newState3 := set_threshold (Some (currentLevel newState2)) newState2 in
    {| newState := newState3;
       shouldContinue := false;
       resultThreshold := threshold newState3 |}
  else
    let previousDirection := direction newState2 in
    let newState5 :=
      match response with
      | heard =>
          let s3 := set_direction down newState2 in
          let s4 := set_currentLevel
                      (Z.max (minLevel config)
                             (currentLevel s3 - stepSizeDown config)) s3 in
          set_stepSize (stepSizeDown config) s4
      | notHeard =>
          let s3 := set_direction up newState2 in
          let s4 := set_currentLevel
                      (Z.min (maxLevel config)
                             (currentLevel s3 + stepSizeUp config)) s3 in
          set_stepSize (stepSizeUp config) s4
      end in
    (* check for reversal *)
    let newState6 :=
      if negb (Direction_eqb previousDirection (direction newState5))
         && notNull (lastResponse state)
      then set_reversals (reversals newState5 + 1) newState5
      else newState5 in
    (* stop if we've reached max reversals *)
    if maxReversals config <=? reversals newState6 then
      let newState7 := set_threshold (Some (currentLevel newState6)) newState6 in
      {| newState := newState7;
         shouldContinue := false;
         resultThreshold := threshold newState7 |}
    else
      {| newState := newState6;
         shouldContinue := true;
         resultThreshold := None |}.

Definition getCurrentLevel (state : StaircaseState) : Z := currentLevel state.

(** *** Runs of the controller *)

(** The state handed to the next call. *)
Definition advance (config : StaircaseConfig) (state : StaircaseState)
    (response : Response) : StaircaseState :=
  newState (processResponse state config response).

(** The state after feeding a whole sequence of responses, one call each. *)
Definition runFrom (config : StaircaseConfig) (state : StaircaseState)
    (responses : list Response) : StaircaseState :=
  fold_left (advance config) responses state.

(** The results of the successive calls, in order. *)
Fixpoint results (config : StaircaseConfig) (state : StaircaseState)
    (responses : list Response) : list ProcessResult :=
  match responses with
  | [] => []
  | r :: rs =>
      let res := processResponse state config r in
      res :: results config (newState res) rs
  end.

(** The specification's validity condition on a configuration. *)
Definition validConfig (config : StaircaseConfig) : Prop :=
  minLevel config <= initialLevel config <= maxLevel config
  /\ 0 < stepSizeDown config /\ 0 < stepSizeUp config.

Definition inBounds (config : StaircaseConfig) (state : StaircaseState) : Prop :=
  minLevel config <= currentLevel state <= maxLevel config.

(** The direction a response asks for. *)
Definition directionOf (response : Response) : Direction :=
  match response with heard => down | notHeard => up end.

Definition Response_eqb (a b : Response) : bool :=
  match a, b with
  | heard, heard | notHeard, notHeard => true
  | _, _ => false
  end.

(** Every response differs from the one before it. *)
Fixpoint alternating (responses : list Response) : bool :=
  match responses with
  | r1 :: ((r2 :: _) as rest) => negb (Response_eqb r1 r2) && alternating rest
  | _ => true
  end.

(** The test the code makes before counting a reversal, on the states
    before and after the call. *)
Definition reversalCounted (before after : StaircaseState) : bool :=
  negb (Direction_eqb (direction before) (direction after))
  && notNull (lastResponse before).

(** Along a run of identical responses the direction agrees with the
    response as soon as there is a previous response, unless the attempt
    limit has been reached (after which no call counts a reversal). *)
Definition settledOn (config : StaircaseConfig) (response : Response)
    (state : StaircaseState) : Prop :=
  lastResponse state = None
  \/ direction state = directionOf response
  \/ maxAttempts config <= attempts state.

(** The claim as the specification words it: with alternating responses
    every call after the first increments the reversal count. *)
Definition alternating_always_increments : Prop :=
  forall (overrides : PartialConfig) (prefix : list Response) (r : Response),
    prefix <> [] ->
    alternating (prefix ++ [r]) = true ->
    reversals (runFrom (createStaircase overrides).2
                 (createStaircase overrides).1 (prefix ++ [r]))
    = reversals (runFrom (createStaircase overrides).2
                   (createStaircase overrides).1 prefix) + 1.

Definition threeAttempts : PartialConfig := {|
  initialLevel_opt := None; stepSizeDown_opt := None; stepSizeUp_opt := None;
  minLevel_opt := None; maxLevel_opt := None; maxReversals_opt := None;
  maxAttempts_opt := Some 3
|}.

Definition noAttempts : PartialConfig := {|
  initialLevel_opt := None; stepSizeDown_opt := None; stepSizeUp_opt := None;
  minLevel_opt := None; maxLevel_opt := None; maxReversals_opt := None;
  maxAttempts_opt := Some 0
|}.

(** The call numbered [S k] is the first of [calls] that returns
    [shouldContinue = false]. *)
Definition firstStop (calls : list ProcessResult) (k : nat) : Prop :=
  (exists res, calls !! k = Some res /\ shouldContinue res = false)
  /\ forall j rj, (j < k)%nat -> calls !! j = Some rj ->
                  shouldContinue rj = true.

(** The claim as the specification words it: termination occurs at the
    call where [attempts] first reaches [maxAttempts], so that a call of a
    run that stops has [attempts] at [maxAttempts] ... *)
Definition terminates_where_attempts_reach_maxAttempts : Prop :=
  forall (overrides : PartialConfig) (responses : list Response)
         (k : nat) (res : ProcessResult),
    results (createStaircase overrides).2 (createStaircase overrides).1
      responses !! k = Some res ->
    shouldContinue res = false ->
    maxAttempts (createStaircase overrides).2 <= attempts (newState res).

(** ... and termination is reached within [maxAttempts] calls for any
    response sequence (of at least that many responses). *)
Definition terminates_within_maxAttempts : Prop :=
  forall (overrides : PartialConfig) (responses : list Response),
    maxAttempts (createStaircase overrides).2 <= Z.of_nat (length responses) ->
    exists k res,
      Z.of_nat (S k) <= maxAttempts (createStaircase overrides).2
      /\ results (createStaircase overrides).2 (createStaircase overrides).1
           responses !! k = Some res
      /\ shouldContinue res = false.

(** In a run, after the first response and before the attempt limit, the
    level is off the bound the last step moved away from. *)
Definition awayFromBound (config : StaircaseConfig) (state : StaircaseState)
  : Prop :=
  lastResponse state = None
  \/ maxAttempts config <= attempts state
  \/ (direction state = down /\ currentLevel state < maxLevel config)
  \/ (direction state = up /\ minLevel config < currentLevel state).

(** The two conditions under which a call stops; once one holds of a
    state it holds of every later one. *)
Definition exhausted (config : StaircaseConfig) (state : StaircaseState)
  : Prop :=
  maxAttempts config <= attempts state
  \/ maxReversals config <= reversals state.

(** A degenerate but valid configuration: a single admissible level. *)
Definition singleLevel : PartialConfig := {|
  initialLevel_opt := Some 0; stepSizeDown_opt := None; stepSizeUp_opt := None;
  minLevel_opt := Some 0; maxLevel_opt := Some 0; maxReversals_opt := None;
  maxAttempts_opt := None
|}.

End Staircase.

(** ** Numbers *)

(** The arithmetic of the TypeScript [number]s that are times: IEEE 754
    binary64 with rounding to nearest, ties to even.  A finite double is a
    rational number, so times are kept in [Q]; each operation rounds its
    exact result to the nearest double.  Overflow is not modelled (no sum of
    times below reaches the largest double unless the audio clock is already
    next to it). *)
Module Double.

Local Open Scope Q_scope.

(** The largest [l] with [2 ^ l <= q], for [0 < q]. *)
Definition ilog2 (q : Q) : Z :=
  let l := (Z.log2 (Qnum q) - Z.log2 (Zpos (Qden q)))%Z in
  if Qle_bool (2 ^ l) q then l else (l - 1)%Z.

(** The exponent of the unit in the last place of the doubles around
    [q]: 53 significant bits, and no exponent below that of the subnormal
    numbers. *)
Definition exponent (q : Q) : Z := Z.max (-1074) (ilog2 q - 52).

(** The integer nearest to [x], the even one of two that are equally
    near. *)
Definition roundHalfEven (x : Q) : Z :=
  let f := Qfloor x in
  match Qcompare (x - inject_Z f) (1 # 2) with
  | Lt => f
  | Gt => (f + 1)%Z
  | Eq => if Z.even f then f else (f + 1)%Z
  end.

(** The double nearest to [q], for [0 <= q]. *)
Definition nearest (q : Q) : Q :=
  let e := exponent q in
  Qred (inject_Z (roundHalfEven (q / 2 ^ e)) * 2 ^ e).

(** The double nearest to [q]. *)
Definition round64 (q : Q) : Q :=
  if Qle_bool 0 q then nearest q else - nearest (- q).

(** [x + y], [x - y] and [x / y] on doubles *)
Definition add (x y : Q) : Q := round64 (x + y).
Definition sub (x y : Q) : Q := round64 (x - y).
Definition div (x y : Q) : Q := round64 (x / y).

End Double.

(** The same arithmetic on the binary64 numbers of the kernel, to compare
    with: the times of [playTone] as the source writes them. *)
Module Binary64.
Import Stdlib.Floats.Floats.
Local Open Scope float_scope.

(** The literals [0.01] and [0.05] denote the doubles nearest to 1/100 and
    5/100, which the correctly rounded quotients are. *)
Definition attackTime : float := 1 / 100.
Definition releaseTime : float := 5 / 100.

Definition sustainTime (durationMs : float) : float :=
  durationMs / 1000 - attackTime - releaseTime.

(** [now + attackTime + sustainTime] and
    [now + attackTime + sustainTime + releaseTime] *)
Definition sustainEnd (now durationMs : float) : float :=
  now + attackTime + sustainTime durationMs.
Definition toneEnd (now durationMs : float) : float :=
  now + attackTime + sustainTime durationMs + releaseTime.

(** The rational a finite double stands for. *)
Definition valueOf (x : float) : option Q :=
  match Prim2SF x with
  | S754_zero _ => Some 0%Q
  | S754_finite s m e =>
      Some ((if s then -1 else 1) * inject_Z (Z.pos m) * 2 ^ e)%Q
  | _ => None
  end.

(** The double [x] stands for the rational [q]. *)
Definition agree (x : float) (q : Q) : Prop :=
  exists v, valueOf x = Some v /\ (v == q)%Q.

End Binary64.

(** ** Tone playback engine *)

Module AudioEngine.

(** *** The Web Audio objects the engine touches

    Nodes and contexts are browser objects held by reference: they live in
    a store ([World]) and the engine's fields hold their addresses.  What a
    browser call does (and when it throws) follows the Web Audio API. *)

Definition ref := nat.

Inductive Exception :=
  | InvalidStateError
  | RangeError
  | TypeError
  | NotAllowedError
  | Error (message : string).

Inductive AudioContextState := suspended | running | closed.

Record AudioContext := {
  state : AudioContextState;
  currentTime : Q
}.

(** A scheduled change of an [AudioParam]. *)
Inductive AutomationEvent :=
  | SetValue (value : R) (time : Q)
  | LinearRamp (value : R) (time : Q).

Definition eventTime (e : AutomationEvent) : Q :=
  match e with SetValue _ t | LinearRamp _ t => t end.
Definition eventValue (e : AutomationEvent) : R :=
  match e with SetValue v _ | LinearRamp v _ => v end.

Record AudioParam := {
  value : R;                       (* the [.value] attribute *)
  events : list AutomationEvent    (* the schedule, ordered by time *)
}.

Inductive OscillatorType := sine | square | sawtooth | triangle.

Record OscillatorNode := {
  osc_context : ref;
  type : OscillatorType;
  frequency : AudioParam;
  startTime : option Q;    (* set by [start] *)
  stopTime : option Q;     (* set by [stop] *)
  onended : option (ref * ref)
    (* the handler [playTone] installs, as the pair of nodes it captured *)
}.

Record GainNode := {
  gain_context : ref;
  gain : AudioParam
}.

Record StereoPannerNode := {
  pan_context : ref;
  pan : AudioParam
}.

(** Where a [connect] call leads. *)
Inductive Target := ToNode (node : ref) | ToDestination (context : ref).

(** What the browser does where the code cannot decide it. *)
Record Platform := {
  contextAvailable : bool;              (* [new AudioContext()] succeeds *)
  initialState : AudioContextState;     (* state of a new context *)
  resumeSucceeds : bool;                (* [resume()] resolves *)
  stopTwiceThrows : bool                (* older browsers: a second [stop()]
                                           throws InvalidStateError *)
}.

(** The fields of the [AudioEngine] singleton. *)
Record Engine := {
  audioContext : option ref;
  activeOscillators : list ref;
  activeGainNodes : list ref;
  masterGain : option ref;
  isInitialized : bool
}.

Record World := {
  platform : Platform;
  nextRef : ref;
  contexts : gmap ref AudioContext;
  oscillators : gmap ref OscillatorNode;
  gainNodes : gmap ref GainNode;
  panners : gmap ref StereoPannerNode;
  connections : list (ref * Target);
  engine : Engine
}.

Definition with_engine (e : Engine) (w : World) : World :=
  {| platform := platform w; nextRef := nextRef w; contexts := contexts w;
     oscillators := oscillators w; gainNodes := gainNodes w;
     panners := panners w; connections := connections w; engine := e |}.
Definition with_contexts (m : gmap ref AudioContext) (w : World) : World :=
  {| platform := platform w; nextRef := nextRef w; contexts := m;
     oscillators := oscillators w; gainNodes := gainNodes w;
     panners := panners w; connections := connections w; engine := engine w |}.
Definition with_oscillators (m : gmap ref OscillatorNode) (w : World) : World :=
  {| platform := platform w; nextRef := nextRef w; contexts := contexts w;
     oscillators := m; gainNodes := gainNodes w;
     panners := panners w; connections := connections w; engine := engine w |}.
Definition with_gainNodes (m : gmap ref GainNode) (w : World) : World :=
  {| platform := platform w; nextRef := nextRef w; contexts := contexts w;
     oscillators := oscillators w; gainNodes := m;
     panners := panners w; connections := connections w; engine := engine w |}.
Definition with_panners (m : gmap ref StereoPannerNode) (w : World) : World :=
  {| platform := platform w; nextRef := nextRef w; contexts := contexts w;
     oscillators := oscillators w; gainNodes := gainNodes w;
     panners := m; connections := connections w; engine := engine w |}.
Definition with_connections (l : list (ref * Target)) (w : World) : World :=
  {| platform := platform w; nextRef := nextRef w; contexts := contexts w;
     oscillators := oscillators w; gainNodes := gainNodes w;
     panners := panners w; connections := l; engine := engine w |}.
Definition with_nextRef (n : ref) (w : World) : World :=
  {| platform := platform w; nextRef := n; contexts := contexts w;
     oscillators := oscillators w; gainNodes := gainNodes w;
     panners := panners w; connections := connections w; engine := engine w |}.

Definition set_audioContext (v : option ref) (e : Engine) : Engine :=
  {| audioContext := v; activeOscillators := activeOscillators e;
     activeGainNodes := activeGainNodes e; masterGain := masterGain e;
     isInitialized := isInitialized e |}.
Definition set_activeOscillators (v : list ref) (e : Engine) : Engine :=
  {| audioContext := audioContext e; activeOscillators := v;
     activeGainNodes := activeGainNodes e; masterGain := masterGain e;
     isInitialized := isInitialized e |}.
Definition set_activeGainNodes (v : list ref) (e : Engine) : Engine :=
  {| audioContext := audioContext e; activeOscillators := activeOscillators e;
     activeGainNodes := v; masterGain := masterGain e;
     isInitialized := isInitialized e |}.
Definition set_masterGain (v : option ref) (e : Engine) : Engine :=
  {| audioContext := audioContext e; activeOscillators := activeOscillators e;
     activeGainNodes := activeGainNodes e; masterGain := v;
     isInitialized := isInitialized e |}.
Definition set_isInitialized (v : bool) (e : Engine) : Engine :=
  {| audioContext := audioContext e; activeOscillators := activeOscillators e;
     activeGainNodes := activeGainNodes e; masterGain := masterGain e;
     isInitialized := v |}.

(** *** Computations that change the store and may throw

    A thrown exception keeps the changes made before it. *)

Definition Eff (A : Type) : Type := World -> (Exception + A) * World.

Definition ret {A} (a : A) : Eff A := fun w => (inr a, w).
Definition bind {A B} (m : Eff A) (k : A -> Eff B) : Eff B :=
  fun w => match m w with
           | (inr a, w') => k a w'
           | (inl e, w') => (inl e, w')
           end.
Definition throw {A} (e : Exception) : Eff A := fun w => (inl e, w).
Definition get : Eff World := fun w => (inr w, w).
Definition modify (f : World -> World) : Eff unit := fun w => (inr tt, f w).
Definition modifyEngine (f : Engine -> Engine) : Eff unit :=
  modify (fun w => with_engine (f (engine w)) w).

#[export] Instance Eff_ret : MRet Eff := @ret.
#[export] Instance Eff_bind : MBind Eff := fun A B k m => bind m k.

(** [try { body } catch (e) { }] *)
Definition tryCatch (body : Eff unit) : Eff unit :=
  fun w => match body w with
           | (inl _, w') => (inr tt, w')
           | (inr tt, w') => (inr tt, w')
           end.

(** [array.forEach(callback)] *)
Fixpoint forEach {A} (array : list A) (callback : A -> Eff unit) : Eff unit :=
  match array with
  | [] => ret tt
  | x :: rest => callback x;; forEach rest callback
  end.

(** An allocation returns a fresh address. *)
Definition fresh : Eff ref :=
  fun w => (inr (nextRef w), with_nextRef (S (nextRef w)) w).

(** *** Browser calls *)

(** Events at or after [cancelTime] are removed. *)
Definition cancelFrom (cancelTime : Q) (l : list AutomationEvent)
  : list AutomationEvent :=
  List.filter (fun e => negb (Qle_bool cancelTime (eventTime e))) l.

(** A new event goes after the events scheduled no later than it. *)
Fixpoint insertEvent (e : AutomationEvent) (l : list AutomationEvent)
  : list AutomationEvent :=
  match l with
  | [] => [e]
  | x :: rest =>
      if Qle_bool (eventTime x) (eventTime e)
      then x :: insertEvent e rest
      else e :: l
  end.

Definition param_schedule (e : AutomationEvent) (p : AudioParam) : AudioParam :=
  {| value := value p; events := insertEvent e (events p) |}.
Definition param_cancel (cancelTime : Q) (p : AudioParam) : AudioParam :=
  {| value := value p; events := cancelFrom cancelTime (events p) |}.
Definition param_setValue (v : R) (p : AudioParam) : AudioParam :=
  {| value := v; events := events p |}.

(** The value a parameter takes at time [t]: that of the last event due by
    [t], on the way to the next event when that one is a linear ramp;
    [previous] is the last event passed, with the [.value] attribute standing
    for it at the start. *)
Fixpoint valueFrom (previous : R * option Q) (l : list AutomationEvent) (t : Q)
  : R :=
  match l with
  | [] => previous.1
  | e :: rest =>
      if Qle_bool (eventTime e) t
      then valueFrom (eventValue e, Some (eventTime e)) rest t
      else match e, previous.2 with
           | LinearRamp v te, Some t0 =>
               (previous.1
                + (v - previous.1) * Q2R ((t - t0) / (te - t0)))%R
           | _, _ => previous.1
           end
  end.

Definition valueAt (p : AudioParam) (t : Q) : R :=
  valueFrom (value p, None) (events p) t.

Definition update_gain (f : AudioParam -> AudioParam) (g : GainNode) : GainNode :=
  {| gain_context := gain_context g; gain := f (gain g) |}.

(** A method of the [gain] parameter of the gain node at [g]. *)
Definition onGainParam (g : ref) (time : Q) (f : AudioParam -> AudioParam)
  : Eff unit :=
  fun w =>
    match gainNodes w !! g with
    | None => (inl TypeError, w)
    | Some node =>
        if Qle_bool 0 time
        then (inr tt, with_gainNodes (<[g := update_gain f node]> (gainNodes w)) w)
        else (inl RangeError, w)
    end.

(** [g.gain.cancelScheduledValues(cancelTime)] *)
Definition cancelScheduledValues (g : ref) (cancelTime : Q) : Eff unit :=
  onGainParam g cancelTime (param_cancel cancelTime).
(** [g.gain.setValueAtTime(v, time)] *)
Definition setValueAtTime (g : ref) (v : R) (time : Q) : Eff unit :=
  onGainParam g time (param_schedule (SetValue v time)).
(** [g.gain.linearRampToValueAtTime(v, time)] *)
Definition linearRampToValueAtTime (g : ref) (v : R) (time : Q) : Eff unit :=
  onGainParam g time (param_schedule (LinearRamp v time)).
(** [g.gain.value = v] *)
Definition setGainValue (g : ref) (v : R) : Eff unit :=
  fun w =>
    match gainNodes w !! g with
    | None => (inl TypeError, w)
    | Some node =>
        (inr tt,
         with_gainNodes (<[g := update_gain (param_setValue v) node]> (gainNodes w)) w)
    end.

Definition set_stopTime (t : option Q) (o : OscillatorNode) : OscillatorNode :=
  {| osc_context := osc_context o; type := type o; frequency := frequency o;
     startTime := startTime o; stopTime := t; onended := onended o |}.
Definition set_startTime (t : option Q) (o : OscillatorNode) : OscillatorNode :=
  {| osc_context := osc_context o; type := type o; frequency := frequency o;
     startTime := t; stopTime := stopTime o; onended := onended o |}.

(** What [stop(when)] does to a node whose context shows the time [now]:
    it throws on a node never started; a stop already requested is
    replaced when it is still to come (or the call throws, on older
    browsers). *)
Definition stopNode (twiceThrows : bool) (now when : Q) (o : OscillatorNode)
  : Exception + OscillatorNode :=
  match startTime o with
  | None => inl InvalidStateError
  | Some _ =>
      if negb (Qle_bool 0 when) then inl RangeError else
      let at_ := if Qle_bool when now then now else when in
      match stopTime o with
      | None => inr (set_stopTime (Some at_) o)
      | Some t =>
          if twiceThrows then inl InvalidStateError
          else if Qle_bool t now then inr o
          else inr (set_stopTime (Some at_) o)
      end
  end.

Definition startNode (now when : Q) (o : OscillatorNode)
  : Exception + OscillatorNode :=
  match startTime o with
  | Some _ => inl InvalidStateError
  | None =>
      if negb (Qle_bool 0 when) then inl RangeError
      else inr (set_startTime (Some (if Qle_bool when now then now else when)) o)
  end.

Definition onOscillator (o : ref)
    (f : Platform -> Q -> OscillatorNode -> Exception + OscillatorNode)
  : Eff unit :=
  fun w =>
    match oscillators w !! o with
    | None => (inl TypeError, w)
    | Some node =>
        match contexts w !! osc_context node with
        | None => (inl TypeError, w)
        | Some ctx =>
            match f (platform w) (currentTime ctx) node with
            | inl e => (inl e, w)
            | inr node' =>
                (inr tt, with_oscillators (<[o := node']> (oscillators w)) w)
            end
        end
    end.

(** [osc.stop(when)]; [osc.stop()] is [osc.stop(0)]. *)
Definition stop (o : ref) (when : Q) : Eff unit :=
  onOscillator o (fun p now => stopNode (stopTwiceThrows p) now when).
(** [osc.start(when)] *)
Definition start (o : ref) (when : Q) : Eff unit :=
  onOscillator o (fun _ now => startNode now when).

(** [this.audioContext!.currentTime]: a property read on [null] throws. *)
Definition audioContext_currentTime : Eff Q :=
  fun w =>
    match audioContext (engine w) with
    | None => (inl TypeError, w)
    | Some c =>
        match contexts w !! c with
        | None => (inl TypeError, w)
        | Some ctx => (inr (currentTime ctx), w)
        end
    end.

(** *** The engine's methods *)

(** Stop all currently playing sounds immediately. *)
Definition stopAll : Eff unit :=
  w ← get;
  forEach (activeOscillators (engine w)) (fun osc =>
    tryCatch (stop osc 0));;
  w ← get;
  forEach (activeGainNodes (engine w)) (fun gain =>
    tryCatch (
      t ← audioContext_currentTime;
      cancelScheduledValues gain t;;
      t ← audioContext_currentTime;
      setValueAtTime gain 0%R t));;
  modifyEngine (set_activeOscillators []);;
  modifyEngine (set_activeGainNodes []).

(** [new AudioContext()]; without the constructor the call is a TypeError. *)
Definition newAudioContext : Eff ref :=
  w ← get;
  if contextAvailable (platform w) then
    c ← fresh;
    modify (fun w =>
      with_contexts
        (<[c := {| state := initialState (platform w); currentTime := 0 |}]>
           (contexts w)) w);;
    ret c
  else throw TypeError.

Definition set_state (s : AudioContextState) (c : AudioContext) : AudioContext :=
  {| state := s; currentTime := currentTime c |}.

Definition isClosed (s : AudioContextState) : bool :=
  match s with closed => true | _ => false end.
Definition isRunning (s : AudioContextState) : bool :=
  match s with running => true | _ => false end.
Definition isSuspended (s : AudioContextState) : bool :=
  match s with suspended => true | _ => false end.

(** [await context.resume()] *)
Definition resume (c : ref) : Eff unit :=
  fun w =>
    match contexts w !! c with
    | None => (inl TypeError, w)
    | Some ctx =>
        if isClosed (state ctx) then (inl InvalidStateError, w)
        else if resumeSucceeds (platform w)
        then (inr tt, with_contexts (<[c := set_state running ctx]> (contexts w)) w)
        else (inl NotAllowedError, w)
    end.

(** [context.close()]; the promise rejects on a closed context. *)
Definition close (c : ref) : Eff unit :=
  fun w =>
    match contexts w !! c with
    | None => (inl TypeError, w)
    | Some ctx =>
        if isClosed (state ctx) then (inl InvalidStateError, w)
        else (inr tt, with_contexts (<[c := set_state closed ctx]> (contexts w)) w)
    end.

Definition newParam (v : R) : AudioParam := {| value := v; events := [] |}.

(** [context.createGain()] *)
Definition createGain (c : ref) : Eff ref :=
  g ← fresh;
  modify (fun w =>
    with_gainNodes
      (<[g := {| gain_context := c; gain := newParam 1 |}]> (gainNodes w)) w);;
  ret g.

(** [context.createOscillator()] *)
Definition createOscillator (c : ref) : Eff ref :=
  o ← fresh;
  modify (fun w =>
    with_oscillators
      (<[o := {| osc_context := c; type := sine; frequency := newParam 440;
                 startTime := None; stopTime := None; onended := None |}]>
         (oscillators w)) w);;
  ret o.

(** [context.createStereoPanner()] *)
Definition createStereoPanner (c : ref) : Eff ref :=
  p ← fresh;
  modify (fun w =>
    with_panners
      (<[p := {| pan_context := c; pan := newParam 0 |}]> (panners w)) w);;
  ret p.

(** [source.connect(target)] *)
Definition connect (source : ref) (target : Target) : Eff unit :=
  modify (fun w => with_connections (connections w ++ [(source, target)]) w).

Definition updateOscillator (o : ref) (f : OscillatorNode -> OscillatorNode)
  : Eff unit :=
  fun w =>
    match oscillators w !! o with
    | None => (inl TypeError, w)
    | Some node => (inr tt, with_oscillators (<[o := f node]> (oscillators w)) w)
    end.

(** [osc.type = t] *)
Definition setType (o : ref) (t : OscillatorType) : Eff unit :=
  updateOscillator o (fun node =>
    {| osc_context := osc_context node; type := t; frequency := frequency node;
       startTime := startTime node; stopTime := stopTime node;
       onended := onended node |}).
(** [osc.frequency.value = v] *)
Definition setFrequencyValue (o : ref) (v : R) : Eff unit :=
  updateOscillator o (fun node =>
    {| osc_context := osc_context node; type := type node;
       frequency := param_setValue v (frequency node);
       startTime := startTime node; stopTime := stopTime node;
       onended := onended node |}).
(** [osc.onended = handler] *)
Definition setOnended (o : ref) (captured : ref * ref) : Eff unit :=
  updateOscillator o (fun node =>
    {| osc_context := osc_context node; type := type node;
       frequency := frequency node;
       startTime := startTime node; stopTime := stopTime node;
       onended := Some captured |}).
(** [panner.pan.value = v] *)
Definition setPanValue (p : ref) (v : R) : Eff unit :=
  fun w =>
    match panners w !! p with
    | None => (inl TypeError, w)
    | Some node =>
        (inr tt,
         with_panners
           (<[p := {| pan_context := pan_context node;
                      pan := param_setValue v (pan node) |}]> (panners w)) w)
    end.

(** [!x], for an object reference or [null] *)
Definition isNull {A} (x : option A) : bool :=
  match x with None => true | Some _ => false end.

(** [this.audioContext?.state] *)
Definition audioContext_state (w : World) : option AudioContextState :=
  c ← audioContext (engine w); ctx ← contexts w !! c; Some (state ctx).

(** [initialize] up to its [await this.audioContext.resume()] ... *)
Definition initializeStart : Eff unit :=
  (w ← get;
   match audioContext (engine w) with
   | None => c ← newAudioContext; modifyEngine (set_audioContext (Some c))
   | Some _ => ret tt
   end);;
  (w ← get;
   match audioContext (engine w), audioContext_state w with
   | Some c, Some s => if isSuspended s then resume c else ret tt
   | _, _ => throw TypeError
   end).

(** ... and from there on. *)
Definition initializeFinish : Eff unit :=
  (w ← get;
   match masterGain (engine w), audioContext (engine w) with
   | None, Some c =>
       master ← createGain c;
       modifyEngine (set_masterGain (Some master));;
       connect master (ToDestination c);;
       setGainValue master 0.5%R   (* safe default volume *)
   | None, None => throw TypeError
   | Some _, _ => ret tt
   end);;
  modifyEngine (set_isInitialized true).

(** Initialize the AudioContext on the first user gesture. *)
Definition initialize : Eff unit :=
  w ← get;
  if isInitialized (engine w)
     && from_option isRunning false (audioContext_state w)
  then ret tt
  else initializeStart;; initializeFinish.

Inductive Ear := left | right | both.

Record PlayToneOptions := {
  opt_frequency : R;
  ear : Ear;
  level : R;               (* relative level in dB (0 = reference) *)
  durationMs : option Q
}.

Definition referenceGain : R := 0.3%R.   (* safe reference level *)

(** [referenceGain * Math.pow(10, level / 20)] *)
Definition linearGain (level : R) : R :=
  (referenceGain * Rpower 10 (level / 20))%R.

(** The constants [0.01] and [0.05] are the doubles nearest to 1/100 and
    5/100. *)
Definition attackTime : Q := Double.round64 (1 # 100).    (* 10ms fade in *)
Definition releaseTime : Q := Double.round64 (5 # 100).   (* 50ms fade out *)

(** [(durationMs / 1000) - attackTime - releaseTime] *)
Definition sustainTime (durationMs : Q) : Q :=
  Double.sub (Double.sub (Double.div durationMs 1000) attackTime) releaseTime.

(** [array.filter((x) => x !== node)] *)
Definition without (node : ref) (array : list ref) : list ref :=
  List.filter (fun x => negb (Nat.eqb x node)) array.

(** The body of the handler [playTone] leaves in [oscillator.onended]
    (the promise it resolves is not modelled). *)
Definition onendedHandler (oscillator envelopeGain : ref) : Eff unit :=
  modifyEngine (fun e =>
    set_activeOscillators (without oscillator (activeOscillators e)) e);;
  modifyEngine (fun e =>
    set_activeGainNodes (without envelopeGain (activeGainNodes e)) e).

(** [playTone] from its second test of the context on (what runs after
    [await this.initialize()]), up to the point where the promise is
    returned.  The result names the nodes of the tone: oscillator, envelope
    gain, level gain and panner. *)
Definition playToneBody (options : PlayToneOptions)
  : Eff (ref * ref * ref * ref) :=
  w ← get;
  match audioContext (engine w), masterGain (engine w) with
  | Some ctx, Some master =>
      let frequency := opt_frequency options in
      let ear := ear options in
      let level := level options in
      let durationMs := default 1000%Q (durationMs options) in
      let sustainTime := sustainTime durationMs in
      let linearGain := linearGain level in
      oscillator ← createOscillator ctx;
      setType oscillator sine;;
      setFrequencyValue oscillator frequency;;
      envelopeGain ← createGain ctx;
      setGainValue envelopeGain 0%R;;
      panNode ← createStereoPanner ctx;
      setPanValue panNode
        (match ear with left => (-1)%R | right => 1%R | both => 0%R end);;
      levelGain ← createGain ctx;
      setGainValue levelGain linearGain;;
      connect oscillator (ToNode envelopeGain);;
      connect envelopeGain (ToNode levelGain);;
      connect levelGain (ToNode panNode);;
      connect panNode (ToNode master);;
      modifyEngine (fun e =>
        set_activeOscillators (activeOscillators e ++ [oscillator]) e);;
      modifyEngine (fun e =>
        set_activeGainNodes (activeGainNodes e ++ [envelopeGain]) e);;
      now ← audioContext_currentTime;
      setValueAtTime envelopeGain 0%R now;;
      linearRampToValueAtTime envelopeGain 1%R (Double.add now attackTime);;
      setValueAtTime envelopeGain 1%R
        (Double.add (Double.add now attackTime) sustainTime);;
      linearRampToValueAtTime envelopeGain 0%R
        (Double.add (Double.add (Double.add now attackTime) sustainTime)
           releaseTime);;
      start oscillator now;;
      stop oscillator
        (Double.add (Double.add (Double.add now attackTime) sustainTime)
           releaseTime);;
      (* [onended] is assigned twice, to handlers with the same effect on
         the engine; the second one also resolves the promise *)
      setOnended oscillator (oscillator, envelopeGain);;
      ret (oscillator, envelopeGain, levelGain, panNode)
  | _, _ => throw (Error "AudioContext failed to initialize")
  end.

(** Play a pure tone with fade in and out. *)
Definition playTone (options : PlayToneOptions)
  : Eff (ref * ref * ref * ref) :=
  w ← get;
  (if isNull (audioContext (engine w)) || isNull (masterGain (engine w))
   then initialize else ret tt);;
  playToneBody options.

(** Get the current AudioContext state. *)
Definition getState (w : World) : option AudioContextState :=
  audioContext_state w.

(** Clean up resources. *)
Definition dispose : Eff unit :=
  stopAll;;
  (w ← get;
   match audioContext (engine w) with
   | Some c =>
       tryCatch (close c);;
       modifyEngine (set_audioContext None)
   | None => ret tt
   end);;
  modifyEngine (set_masterGain None);;
  modifyEngine (set_isInitialized false).

(** The exported singleton [new AudioEngine()], in a browser [p] with an
    empty store. *)
Definition audioEngine (p : Platform) : World := {|
  platform := p; nextRef := 0%nat;
  contexts := ∅; oscillators := ∅; gainNodes := ∅; panners := ∅;
  connections := [];
  engine := {| audioContext := None; activeOscillators := [];
               activeGainNodes := []; masterGain := None;
               isInitialized := false |}
|}.

(** *** What [stopAll] does to a single node *)

(** The time [stopAll] reads, when the engine holds a context. *)
Definition engineTime (w : World) : option Q :=
  c ← audioContext (engine w); ctx ← contexts w !! c; Some (currentTime ctx).

(** A gain node after [cancelScheduledValues(now)] and
    [setValueAtTime(0, now)]. *)
Definition silence (now : Q) (node : GainNode) : GainNode :=
  update_gain (param_schedule (SetValue 0 now))
    (update_gain (param_cancel now) node).

(** The same under [try]/[catch]: nothing happens when the time cannot be
    read or is refused. *)
Definition silenceAt (t : option Q) (node : GainNode) : GainNode :=
  match t with
  | Some now => if Qle_bool 0 now then silence now node else node
  | None => node
  end.

(** An oscillator after [try { osc.stop() } catch (e) { }]. *)
Definition tryStop (p : Platform) (ctxs : gmap ref AudioContext)
    (node : OscillatorNode) : OscillatorNode :=
  match ctxs !! osc_context node with
  | None => node
  | Some ctx =>
      match stopNode (stopTwiceThrows p) (currentTime ctx) 0 node with
      | inl _ => node
      | inr node' => node'
      end
  end.

(** [stop()], that is [stop(0)], asks for a stop at the current time. *)
Definition stopNow (twiceThrows : bool) (now : Q) (o : OscillatorNode)
  : OscillatorNode :=
  match startTime o, stopTime o with
  | None, _ => o
  | Some _, None =>
      set_stopTime (Some (if Qle_bool 0 now then now else 0%Q)) o
  | Some _, Some t =>
      if twiceThrows || Qle_bool t now then o
      else set_stopTime (Some (if Qle_bool 0 now then now else 0%Q)) o
  end.

(** *** A sample session *)

(** The audio clock of every running context moves on by [dt]. *)
Definition elapse (dt : Q) : Eff unit :=
  modify (fun w =>
    with_contexts
      ((fun ctx => if isRunning (state ctx)
                   then {| state := state ctx;
                           currentTime := currentTime ctx + dt |}
                   else ctx) <$> contexts w) w).

Definition browser : Platform := {|
  contextAvailable := true; initialState := running;
  resumeSucceeds := true; stopTwiceThrows := false
|}.

Definition tone (e : Ear) (dB : R) : PlayToneOptions :=
  {| opt_frequency := 1000; ear := e; level := dB; durationMs := None |}.

(** The engine after a successful [initialize]. *)
Definition readyEngine : World := (initialize (audioEngine browser)).2.

(** Two tones, the second started half a second after the first; the
    state a quarter of a second later. *)
Definition oneTone : World :=
  (elapse (1 # 2) (playTone (tone left (-20)) (audioEngine browser)).2).2.
Definition twoTones : World :=
  (elapse (1 # 4) (playTone (tone right (-26)) oneTone).2).2.

(** An older browser, where a second [stop()] throws; a tone that has
    played to its end, its handler not yet run. *)
Definition oldBrowser : Platform := {|
  contextAvailable := true; initialState := suspended;
  resumeSucceeds := true; stopTwiceThrows := true
|}.

Definition finishedTone : World :=
  (elapse 2 (playTone (tone both 0) (audioEngine oldBrowser)).2).2.

(** A browser without Web Audio, and one that creates its contexts
    suspended and does not resume them (no user gesture yet). *)
Definition silentBrowser : Platform := {|
  contextAvailable := false; initialState := suspended;
  resumeSucceeds := true; stopTwiceThrows := false
|}.

Definition waitingBrowser : Platform := {|
  contextAvailable := true; initialState := suspended;
  resumeSucceeds := false; stopTwiceThrows := false
|}.

(** A tone of 50 ms and one of 61 ms. *)
Definition blip : PlayToneOptions :=
  {| opt_frequency := 1000; ear := both; level := 0; durationMs := Some 50%Q |}.
Definition shortTone : PlayToneOptions :=
  {| opt_frequency := 1000; ear := both; level := 0; durationMs := Some 61%Q |}.

(** *** The states the engine can reach *)

(** What happens between two states: a method of the engine runs (the two
    asynchronous ones possibly in their two halves, with other calls in
    between), a tone ends and its handler runs, or time passes.  A call that
    throws still leaves its state behind. *)
Inductive step : World -> World -> Prop :=
  | step_initialize w : step w (initialize w).2
  | step_initializeStart w : step w (initializeStart w).2
  | step_initializeFinish w : step w (initializeFinish w).2
  | step_playTone options w : step w (playTone options w).2
  | step_playToneBody options w : step w (playToneBody options w).2
  | step_stopAll w : step w (stopAll w).2
  | step_dispose w : step w (dispose w).2
  | step_onended oscillator envelopeGain w :
      step w (onendedHandler oscillator envelopeGain w).2
  | step_elapse dt w : (0 <= dt)%Q -> step w (elapse dt w).2.

Inductive reachable : World -> Prop :=
  | reachable_start p : reachable (audioEngine p)
  | reachable_step w w' : reachable w -> step w w' -> reachable w'.

(** What holds of every such state: the listed envelope gains exist, a
    context is held as long as one is listed, the context held exists, and
    no audio clock is negative. *)
Definition wellFormed (w : World) : Prop :=
  (forall g, g ∈ activeGainNodes (engine w) -> is_Some (gainNodes w !! g))
  /\ (activeGainNodes (engine w) <> [] -> is_Some (audioContext (engine w)))
  /\ (forall c, audioContext (engine w) = Some c -> is_Some (contexts w !! c))
  /\ (forall c ctx, contexts w !! c = Some ctx -> (0 <= currentTime ctx)%Q).

(** A state reached by calls that leave the engine and the contexts alone
    and remove no gain node. *)
Definition grows (w w' : World) : Prop :=
  engine w' = engine w
  /\ contexts w' = contexts w
  /\ forall g, is_Some (gainNodes w !! g) -> is_Some (gainNodes w' !! g).

Definition nodeLocal {A} (m : Eff A) : Prop := forall w, grows w (m w).2.

(** [m] leaves the gain node at [l] as it is. *)
Definition keepsGain {A} (l : ref) (m : Eff A) : Prop :=
  forall w, gainNodes (m w).2 !! l = gainNodes w !! l.

(** [m] takes no address back. *)
Definition keepsRefs {A} (m : Eff A) : Prop :=
  forall w, (nextRef w <= nextRef (m w).2)%nat.

(** [m] keeps states well formed, however it ends. *)
Definition keeps {A} (m : Eff A) : Prop :=
  forall w, wellFormed w -> wellFormed (m w).2.

(** A well-formed state without active envelope gains. *)
Definition Quiet (w : World) : Prop :=
  wellFormed w /\ activeGainNodes (engine w) = [].

(** A well-formed state that holds the context [c] ... *)
Definition Held (c : ref) (w : World) : Prop :=
  wellFormed w /\ audioContext (engine w) = Some c.

(** ... and in which the gain node [g] exists. *)
Definition Ready (c g : ref) (w : World) : Prop :=
  Held c w /\ is_Some (gainNodes w !! g).

(** [m], run in [w], ends (with a result or an exception) as [Q] says. *)
Definition runs {A} (m : Eff A) (w : World)
    (Q : Exception + A -> World -> Prop) : Prop :=
  Q (m w).1 (m w).2.

(** *** The state a tone is played into *)

(** The times of the envelope of a tone started at [now], as [playTone]
    computes them: the end of the attack, [now + attackTime], the end of
    the sustain, [now + attackTime + sustainTime], and the time at which the
    envelope is back at zero, [now + attackTime + sustainTime +
    releaseTime]. *)
Definition attackEnd (now : Q) : Q := Double.add now attackTime.

Definition sustainEnd (options : PlayToneOptions) (now : Q) : Q :=
  Double.add (attackEnd now) (sustainTime (default 1000%Q (durationMs options))).

Definition toneEnd (options : PlayToneOptions) (now : Q) : Q :=
  Double.add (sustainEnd options now) releaseTime.

(** The state [playTone] leaves when all its calls go through, on an engine
    that holds the context [c] (showing the time [now]) and the master gain
    [master]: four new nodes at the next four addresses. *)
Definition tonePlayed (options : PlayToneOptions) (c master : ref) (now : Q)
    (w : World) : World :=
  let n := nextRef w in
  {| platform := platform w;
     nextRef := S (S (S (S n)));
     contexts := contexts w;
     oscillators :=
       <[n := {| osc_context := c; type := sine;
                 frequency := {| value := opt_frequency options; events := [] |};
                 startTime := Some now;
                 stopTime := Some (if Qle_bool (toneEnd options now) now
                                   then now else toneEnd options now);
                 onended := Some (n, S n) |}]> (oscillators w);
     gainNodes :=
       <[S (S (S n)) :=
           {| gain_context := c;
              gain := {| value := linearGain (level options); events := [] |} |}]>
         (<[S n :=
              {| gain_context := c;
                 gain :=
                   param_schedule (LinearRamp 0 (toneEnd options now))
                     (param_schedule
                        (SetValue 1 (sustainEnd options now))
                        (param_schedule (LinearRamp 1 (attackEnd now))
                           (param_schedule (SetValue 0 now)
                              {| value := 0; events := [] |}))) |}]>
            (gainNodes w));
     panners :=
       <[S (S n) :=
           {| pan_context := c;
              pan := {| value := match ear options with
                                 | left => -1
                                 | right => 1
                                 | both => 0
                                 end;
                        events := [] |} |}]> (panners w);
     connections :=
       connections w
       ++ [(n, ToNode (S n)); (S n, ToNode (S (S (S n))));
           (S (S (S n)), ToNode (S (S n))); (S (S n), ToNode master)];
     engine :=
       {| audioContext := audioContext (engine w);
          activeOscillators := activeOscillators (engine w) ++ [n];
          activeGainNodes := activeGainNodes (engine w) ++ [S n];
          masterGain := masterGain (engine w);
          isInitialized := isInitialized (engine w) |}
  |}.

End AudioEngine.

(** ** Stored results *)

(** [src/lib/storage.ts]: the last result and a short history, kept under
    one key of [localStorage]. *)
Module Storage.

(** JSON data, as [JSON.parse] returns it.  The members of an object are
    kept by name (a name occurs once, their order plays no role here); the
    numbers the application stores are threshold levels. *)
#[warnings="-register-all"]
Inductive Json :=
  | JNull
  | JBool (b : bool)
  | JNumber (n : Z)
  | JString (s : string)
  | JArray (items : list Json)
  | JObject (members : gmap string Json).

Inductive Exception :=
  | TypeError | SyntaxError | SecurityError | QuotaExceededError.

(** The text of an item, by what [JSON.parse] makes of it: the empty
    string, a text that is not JSON, or the text of a JSON value. *)
Inductive Text :=
  | EmptyText
  | Malformed
  | Serialized (value : Json).

(** Where the module runs: on the server there is no [window]; in a
    browser the storage can be denied (every access throws) or full
    ([setItem] throws).  [console] holds the messages of [console.error]. *)
Record Host := {
  hasWindow : bool;
  storageAllowed : bool;
  storageFull : bool;
  localStorage : gmap string Text;
  console : list string
}.

Definition with_localStorage (m : gmap string Text) (h : Host) : Host :=
  {| hasWindow := hasWindow h; storageAllowed := storageAllowed h;
     storageFull := storageFull h; localStorage := m; console := console h |}.

Definition console_error (message : string) (h : Host) : Host :=
  {| hasWindow := hasWindow h; storageAllowed := storageAllowed h;
     storageFull := storageFull h; localStorage := localStorage h;
     console := console h ++ [message] |}.

(** [localStorage.getItem(key)]: the text, or [null] *)
Definition getItem (key : string) (h : Host) : Exception + option Text :=
  if storageAllowed h then inr (localStorage h !! key) else inl SecurityError.

(** [localStorage.setItem(key, text)] *)
Definition setItem (key : string) (text : Text) (h : Host) : Exception + Host :=
  if negb (storageAllowed h) then inl SecurityError
  else if storageFull h then inl QuotaExceededError
  else inr (with_localStorage (<[key := text]> (localStorage h)) h).

(** [localStorage.removeItem(key)] *)
Definition removeItem (key : string) (h : Host) : Exception + Host :=
  if storageAllowed h
  then inr (with_localStorage (delete key (localStorage h)) h)
  else inl SecurityError.

Definition JSON_stringify (value : Json) : Text := Serialized value.

Definition STORAGE_KEY : string := "hearing-check-results".
Definition STORAGE_VERSION : string := "1.0.0".

(** A [StoredResults] is an object, [gmap string Json]: the cast in
    [JSON.parse(stored) as StoredResults] checks nothing. *)

(** [{ version: STORAGE_VERSION, lastResult: null, history: [] }] *)
Definition noResults : gmap string Json :=
  <["version" := JString STORAGE_VERSION]>
    (<["lastResult" := JNull]> (<["history" := JArray []]> ∅)).

(** [loadStoredResults] from the text it got: [!stored], [JSON.parse] and
    the test of [parsed.version].  Reading [version] throws on [null];
    numbers, strings, booleans and arrays have no such member. *)
Definition parseResults (stored : Text) : Exception + gmap string Json :=
  match stored with
  | EmptyText => inr noResults
  | Malformed => inl SyntaxError
  | Serialized JNull => inl TypeError
  | Serialized (JObject parsed) =>
      match parsed !! "version" with
      | Some (JString version) =>
          if String.eqb version STORAGE_VERSION then inr parsed
          else inr noResults
      | _ => inr noResults
      end
  | Serialized _ => inr noResults
  end.

(** Load stored results from localStorage. *)
Definition loadStoredResults (h : Host) : gmap string Json * Host :=
  if negb (hasWindow h) then (noResults, h)
  else
    match getItem STORAGE_KEY h with
    | inr None => (noResults, h)
    | inr (Some stored) =>
        match parseResults stored with
        | inr results => (results, h)
        | inl _ => (noResults, console_error "Failed to load stored results:" h)
        end
    | inl _ => (noResults, console_error "Failed to load stored results:" h)
    end.

(** [history.unshift(result)], for whatever is found under [history]: a
    call on [undefined], [null] or a value without that method throws. *)
Definition unshift (result : Json) (history : option Json)
  : Exception + list Json :=
  match history with
  | Some (JArray items) => inr (result :: items)
  | _ => inl TypeError
  end.

(** Save a test result to localStorage. *)
Definition saveTestResult (result : Json) (h : Host) : Host :=
  if negb (hasWindow h) then h
  else
    let (stored, h) := loadStoredResults h in
    let stored := <["lastResult" := result]> stored in
    match unshift result (stored !! "history") with
    | inl _ => console_error "Failed to save test result:" h
    | inr history =>
        let stored := <["history" := JArray history]> stored in
        (* keep only the last 10 results *)
        let stored :=
          if (10 <? length history)%nat
          then <["history" := JArray (take 10 history)]> stored
          else stored in
        match setItem STORAGE_KEY (JSON_stringify (JObject stored)) h with
        | inr h' => h'
        | inl _ => console_error "Failed to save test result:" h
        end
    end.

(** Get the last test result ([None] stands for [undefined]). *)
Definition getLastResult (h : Host) : option Json * Host :=
  let (stored, h) := loadStoredResults h in
  (stored !! "lastResult", h).

(** Clear all stored results. *)
Definition clearStoredResults (h : Host) : Host :=
  if negb (hasWindow h) then h
  else
    match removeItem STORAGE_KEY h with
    | inr h' => h'
    | inl _ => console_error "Failed to clear stored results:" h
    end.

(** The history the next [saveTestResult] would extend. *)
Definition storedHistory (h : Host) : option Json :=
  (loadStoredResults h).1 !! "history".

(** One result saved after the other. *)
Definition saveAll (results : list Json) (h : Host) : Host :=
  foldl (fun h result => saveTestResult result h) h results.

(** A browser that grants the storage and has room. *)
Definition usable (h : Host) : Prop :=
  hasWindow h = true /\ storageAllowed h = true /\ storageFull h = false.

Definition freshBrowser : Host := {|
  hasWindow := true; storageAllowed := true; storageFull := false;
  localStorage := ∅; console := []
|}.

(** The server, where the page is rendered first. *)
Definition server : Host := {|
  hasWindow := false; storageAllowed := true; storageFull := false;
  localStorage := ∅; console := []
|}.

(** A browser with an item of an older version, and one with an item of
    the current version that has no history. *)
Definition olderItem : Host :=
  with_localStorage
    {[ STORAGE_KEY := Serialized (JObject {[ "version" := JString "0.9.0" ]}) ]}
    freshBrowser.

Definition historylessItem : Host :=
  with_localStorage
    {[ STORAGE_KEY := Serialized (JObject {[ "version" := JString "1.0.0" ]}) ]}
    freshBrowser.

End Storage.

(** ** Audiogram chart *)

(** [src/components/AudiogramChart.tsx]: where the thresholds are drawn.
    Coordinates are real numbers; [Math.log10] is the real logarithm to
    base 10. *)
Module AudiogramChart.

Local Open Scope R_scope.

Definition FREQUENCIES : list Z := [250; 500; 1000; 2000; 4000; 8000]%Z.
Definition CHART_WIDTH : R := 600.
Definition CHART_HEIGHT : R := 400.
(** [PADDING = { top: 40, right: 40, bottom: 60, left: 60 }] *)
Definition PADDING_top : R := 40.
Definition PADDING_right : R := 40.
Definition PADDING_bottom : R := 60.
Definition PADDING_left : R := 60.
Definition PLOT_WIDTH : R := CHART_WIDTH - PADDING_left - PADDING_right.
Definition PLOT_HEIGHT : R := CHART_HEIGHT - PADDING_top - PADDING_bottom.

(** Level range: -60 dB (top) to 0 dB (bottom) *)
Definition MIN_LEVEL : R := -60.
Definition MAX_LEVEL : R := 0.

Definition levelToY (level : R) : R :=
  let normalized := (level - MIN_LEVEL) / (MAX_LEVEL - MIN_LEVEL) in
  PADDING_top + normalized * PLOT_HEIGHT.

Definition log10 (x : R) : R := ln x / ln 10.

(** Logarithmic spacing for frequencies; [index] is not used. *)
Definition frequencyToX (freq : Z) (index : nat) : R :=
  let logFreqs := map (fun f => log10 (IZR f)) FREQUENCIES in
  let minLog := nth 0 logFreqs 0 in
  let maxLog := nth (length logFreqs - 1) logFreqs 0 in
  let logFreq := log10 (IZR freq) in
  let normalized := (logFreq - minLog) / (maxLog - minLog) in
  PADDING_left + normalized * PLOT_WIDTH.

Record Point := { x : R; y : R; freq : Z }.

(** The thresholds of an ear, [Record<Frequency, number | null>], are a
    [gmap Z (option Z)]: a frequency that is no key reads as [undefined]. *)

(** The point pushed for a frequency, when its level is neither [null] nor
    [undefined]. *)
Definition pushPoint (points : list Point) (x : R) (level : option (option Z))
    (freq : Z) : list Point :=
  match level with
  | Some (Some level) =>
      points ++ [{| x := x; y := levelToY (IZR level); freq := freq |}]
  | _ => points
  end.

(** The points of the two ears, [leftPoints] and [rightPoints], as the
    component collects them. *)
Definition chartPoints (thresholds_left thresholds_right : gmap Z (option Z))
  : list Point * list Point :=
  foldl (fun points entry =>
           let index := entry.1 in
           let freq := entry.2 in
           let x := frequencyToX freq index in
           let leftLevel := thresholds_left !! freq in
           let rightLevel := thresholds_right !! freq in
           (pushPoint points.1 x leftLevel freq,
            pushPoint points.2 x rightLevel freq))
        ([], []) (imap pair FREQUENCIES).

(** The levels of the grid lines and of the labels of the vertical axis. *)
Definition gridLevels : list R := [-60; -50; -40; -30; -20; -10; 0].

(** The points of one ear, frequency by frequency. *)
Definition earPoints (levels : gmap Z (option Z)) : list Point :=
  flat_map (fun entry =>
              pushPoint [] (frequencyToX entry.2 entry.1)
                (levels !! entry.2) entry.2)
           (imap pair FREQUENCIES).

(** A point inside the plot area. *)
Definition insidePlot (p : Point) : Prop :=
  PADDING_left <= x p <= CHART_WIDTH - PADDING_right
  /\ PADDING_top <= y p <= CHART_HEIGHT - PADDING_bottom.

End AudiogramChart.

(** ** Test wizard *)

(** [src/app/page.tsx]: the tones the wizard asks the engine for. *)
Module TestWizard.

Definition FREQUENCIES : list Z := [250; 500; 1000; 2000; 4000; 8000]%Z.

Inductive Step :=
  | headphone_check | quiet_room | test_left | test_right | results.

Definition isTest (step : Step) : bool :=
  match step with test_left | test_right => true | _ => false end.

(** The options [playTone(frequency, ear, level)] hands to
    [audioEngine.playTone], unless an emergency stop is in force. *)
Definition playTone (emergencyStop : bool) (frequency : Z)
    (ear : AudioEngine.Ear) (level : Z) : option AudioEngine.PlayToneOptions :=
  if emergencyStop then None
  else Some {| AudioEngine.opt_frequency := IZR frequency;
               AudioEngine.ear := ear;
               AudioEngine.level := IZR level;
               AudioEngine.durationMs := Some 1000%Q |}.

(** [handleHeadphoneCheck(ear)] *)
Definition handleHeadphoneCheck (isPlaying emergencyStop : bool)
    (ear : AudioEngine.Ear) : option AudioEngine.PlayToneOptions :=
  if isPlaying then None else playTone emergencyStop 1000 ear (-20).

(** Auto-play of the next tone: what the effect asks for, for the step,
    the frequency index and the staircase of the rendered state ([None]
    when it plays nothing; an index outside [FREQUENCIES] is not
    modelled). *)
Definition autoPlay (step : Step) (currentFrequencyIndex : nat)
    (staircaseState :
       option (Staircase.StaircaseState * Staircase.StaircaseConfig))
    (isPlaying testComplete emergencyStop : bool)
  : option AudioEngine.PlayToneOptions :=
  match staircaseState with
  | Some staircase =>
      if isTest step && negb isPlaying && negb testComplete then
        currentFreq ← FREQUENCIES !! currentFrequencyIndex;
        let ear := match step with
                   | test_left => AudioEngine.left
                   | _ => AudioEngine.right
                   end in
        let level := Staircase.getCurrentLevel staircase.1 in
        playTone emergencyStop currentFreq ear level
      else None
  | None => None
  end.

(** The staircase of a frequency after the listener's responses so far: it
    starts as [createStaircase()] and takes the new state of each call of
    [processResponse]. *)
Definition staircaseAfter (responses : list Staircase.Response)
  : Staircase.StaircaseState * Staircase.StaircaseConfig :=
  let staircase := Staircase.createStaircase Staircase.noOverrides in
  (Staircase.runFrom staircase.2 staircase.1 responses, staircase.2).

End TestWizard.

(** ** Properties of the staircase controller *)

Module StaircaseFacts.
Import Staircase.
Local Open Scope Z_scope.

(** Evaluation of one call.  The copies of the state are nested, so the
    variables the code branches on are split first and the fields are then
    computed innermost first. *)
Ltac reduce_fields :=
  cbv beta iota zeta delta
    [advance processResponse reversalCounted notNull
     set_threshold set_reversals set_stepSize set_currentLevel
     set_direction set_lastResponse set_attempts
     currentLevel stepSize direction reversals attempts lastResponse
     threshold newState shouldContinue resultThreshold
     negb andb Direction_eqb] in *.

Ltac split_inputs :=
  repeat match goal with
  | s : StaircaseState |- _ => destruct s
  | r : Response |- _ => destruct r
  | d : Direction |- _ => destruct d
  | o : option Response |- _ => destruct o
  end.

Ltac step_cases :=
  split_inputs; reduce_fields;
  repeat match goal with
  | |- context [ (?a <=? ?b) ] => destruct (Z.leb_spec a b); reduce_fields
  end.

Lemma advance_inBounds config state response :
  minLevel config <= maxLevel config ->
  0 <= stepSizeDown config -> 0 <= stepSizeUp config ->
  inBounds config state -> inBounds config (advance config state response).
Proof.
  unfold inBounds. intros Hmm Hd Hu Hb.
  step_cases; lia.
Qed.

Lemma results_inBounds config :
  minLevel config <= maxLevel config ->
  0 <= stepSizeDown config -> 0 <= stepSizeUp config ->
  forall responses state,
    inBounds config state ->
    Forall (fun res => inBounds config (newState res))
           (results config state responses).
Proof.
  intros Hmm Hd Hu responses.
  induction responses as [|r rs IH]; intros state Hb; cbn [results].
  - constructor.
  - pose proof (advance_inBounds config state r Hmm Hd Hu Hb) as Hb'.
    constructor; [exact Hb' | apply IH; exact Hb'].
Qed.

Lemma currentLevel_bounded_default responses :
  Forall (fun res => -60 <= currentLevel (newState res) <= 0)
         (results DEFAULT_CONFIG (createStaircase noOverrides).1 responses).
Proof.
  apply (results_inBounds DEFAULT_CONFIG); unfold inBounds; cbn; lia.
Qed.

(** C1. For every valid configuration, after each call of a run that starts
    from the state [createStaircase] builds, [currentLevel] lies within
    [minLevel, maxLevel]. *)
Theorem currentLevel_within_bounds (overrides : PartialConfig)
    (responses : list Response) :
  validConfig (createStaircase overrides).2 ->
  Forall (fun res =>
            minLevel (createStaircase overrides).2
              <= currentLevel (newState res)
              <= maxLevel (createStaircase overrides).2)
         (results (createStaircase overrides).2 (createStaircase overrides).1
                  responses).
Proof.
  intros (Hinit & Hd & Hu).
  apply results_inBounds; try lia.
  unfold inBounds; cbn. exact Hinit.
Qed.

Lemma currentLevel_within_bounds_witness :
  validConfig (createStaircase noOverrides).2 /\
  Forall (fun res => -60 <= currentLevel (newState res) <= 0)
         (results DEFAULT_CONFIG (createStaircase noOverrides).1
                  [heard; heard; notHeard; heard; notHeard; heard; notHeard]).
Proof.
  assert (Hv : validConfig (createStaircase noOverrides).2)
    by (unfold validConfig; cbn; lia).
  split; [exact Hv|].
  exact (currentLevel_within_bounds noOverrides
           [heard; heard; notHeard; heard; notHeard; heard; notHeard] Hv).
Defined.

(** C2. When the incremented attempt count reaches [maxAttempts] the call
    stops at once: [shouldContinue] is false and the threshold is the level
    the state held on entry; the level is not updated, whatever the
    response. *)
Theorem maxAttempts_stops_before_level_update (state : StaircaseState)
    (config : StaircaseConfig) (response : Response) :
  maxAttempts config <= attempts state + 1 ->
  shouldContinue (processResponse state config response) = false
  /\ resultThreshold (processResponse state config response)
     = Some (currentLevel state)
  /\ threshold (newState (processResponse state config response))
     = Some (currentLevel state)
  /\ currentLevel (newState (processResponse state config response))
     = currentLevel state.
Proof.
  intros Hmax. step_cases; auto; lia.
Qed.

Lemma maxAttempts_stops_before_level_update_witness :
  let state := runFrom DEFAULT_CONFIG (createStaircase noOverrides).1
                 (repeat notHeard 19) in
  attempts state = 19 /\ currentLevel state = 0
  /\ shouldContinue (processResponse state DEFAULT_CONFIG heard) = false
  /\ resultThreshold (processResponse state DEFAULT_CONFIG heard) = Some 0.
Proof.
  cbv zeta.
  set (state := runFrom DEFAULT_CONFIG (createStaircase noOverrides).1
                  (repeat notHeard 19)).
  assert (Hmax : maxAttempts DEFAULT_CONFIG <= attempts state + 1)
    by (vm_compute; discriminate).
  destruct (maxAttempts_stops_before_level_update state DEFAULT_CONFIG heard Hmax)
    as (Hc & Ht & _ & _).
  split; [reflexivity|]. split; [reflexivity|].
  split; [exact Hc | exact Ht].
Defined.

(** C4. For a call the attempt limit did not stop: when the reversal count
    after the update has reached [maxReversals], the call returns
    [shouldContinue = false] with the level just computed (the clamped step
    from the level on entry, no average) as threshold; otherwise it returns
    [shouldContinue = true] and no threshold. *)
Theorem maxReversals_stops_with_updated_level (state : StaircaseState)
    (config : StaircaseConfig) (response : Response) :
  attempts state + 1 < maxAttempts config ->
  let res := processResponse state config response in
  currentLevel (newState res)
    = match response with
      | heard =>
          Z.max (minLevel config) (currentLevel state - stepSizeDown config)
      | notHeard =>
          Z.min (maxLevel config) (currentLevel state + stepSizeUp config)
      end
  /\ (maxReversals config <= reversals (newState res) ->
      shouldContinue res = false
      /\ resultThreshold res = Some (currentLevel (newState res)))
  /\ (reversals (newState res) < maxReversals config ->
      shouldContinue res = true /\ resultThreshold res = None).
Proof.
  intros Hatt res. subst res.
  step_cases; repeat split; intros; try reflexivity; lia.
Qed.

Lemma maxReversals_stops_with_updated_level_witness :
  let state := runFrom DEFAULT_CONFIG (createStaircase noOverrides).1
                 [heard; notHeard; heard; notHeard] in
  let res := processResponse state DEFAULT_CONFIG heard in
  reversals (newState res) = 4
  /\ shouldContinue res = false /\ resultThreshold res = Some (-32).
Proof.
  cbv zeta.
  set (state := runFrom DEFAULT_CONFIG (createStaircase noOverrides).1
                  [heard; notHeard; heard; notHeard]).
  assert (Hatt : attempts state + 1 < maxAttempts DEFAULT_CONFIG)
    by (vm_compute; reflexivity).
  destruct (maxReversals_stops_with_updated_level state DEFAULT_CONFIG heard Hatt)
    as (_ & Hstop & _).
  split; [reflexivity|].
  apply Hstop. vm_compute. discriminate.
Defined.

(** *** Reversal counting *)

Lemma reversals_step state config response :
  reversals (advance config state response)
  = reversals state
    + (if reversalCounted state (advance config state response)
       then 1 else 0).
Proof. step_cases; lia. Qed.

Lemma running_step state config response :
  attempts state + 1 < maxAttempts config ->
  direction (advance config state response) = directionOf response
  /\ lastResponse (advance config state response) = Some response.
Proof. intros Hatt. step_cases; solve [auto | lia]. Qed.

Lemma stopped_step_reversals state config response :
  maxAttempts config <= attempts state + 1 ->
  reversals (advance config state response) = reversals state.
Proof. intros Hmax. step_cases; solve [reflexivity | lia]. Qed.

Lemma attempts_step state config response :
  attempts (advance config state response) = attempts state + 1.
Proof. step_cases; reflexivity. Qed.

Lemma runFrom_snoc config state responses response :
  runFrom config state (responses ++ [response])
  = advance config (runFrom config state responses) response.
Proof. unfold runFrom. rewrite fold_left_app. reflexivity. Qed.

Lemma attempts_runFrom config responses : forall state,
  attempts (runFrom config state responses)
  = attempts state + Z.of_nat (length responses).
Proof.
  induction responses as [|r rs IH]; intros state.
  - cbn. lia.
  - change (runFrom config state (r :: rs))
      with (runFrom config (advance config state r) rs).
    rewrite IH, attempts_step. cbn [length]. lia.
Qed.

Lemma settledOn_step config response state :
  settledOn config response state ->
  settledOn config response (advance config state response)
  /\ reversals (advance config state response) = reversals state.
Proof.
  unfold settledOn. intros Hs.
  destruct (Z.le_gt_cases (maxAttempts config) (attempts state + 1)) as [Hmax|Hrun].
  - split.
    + right; right. rewrite attempts_step. exact Hmax.
    + apply stopped_step_reversals. exact Hmax.
  - split.
    + right; left. apply running_step. lia.
    + revert Hs Hrun. step_cases; intros;
        solve [ reflexivity | lia
              | intuition (try discriminate; try congruence; try lia) ].
Qed.

Lemma identical_no_reversal config response n : forall state,
  settledOn config response state ->
  reversals (runFrom config state (repeat response n)) = reversals state.
Proof.
  induction n as [|n IH]; intros state Hs; [reflexivity|].
  change (runFrom config state (repeat response (S n)))
    with (runFrom config (advance config state response) (repeat response n)).
  destruct (settledOn_step config response state Hs) as [Hs' Hrev].
  rewrite IH by exact Hs'. exact Hrev.
Qed.

Lemma alternating_last (prefix : list Response) (q r : Response) :
  alternating (prefix ++ [q; r]) = true -> q <> r.
Proof.
  induction prefix as [|p prefix IH].
  - cbn. destruct q, r; cbn; congruence.
  - destruct prefix as [|p' prefix'].
    + cbn. destruct p, q, r; cbn; congruence.
    + cbn [app alternating] in *. intros H.
      apply andb_prop in H as [_ H]. apply IH. exact H.
Qed.

Lemma alternating_step config (prefix : list Response) (q r : Response) state :
  lastResponse state = None -> attempts state = 0 ->
  alternating ((prefix ++ [q]) ++ [r]) = true ->
  Z.of_nat (length ((prefix ++ [q]) ++ [r])) < maxAttempts config ->
  reversals (runFrom config state ((prefix ++ [q]) ++ [r]))
  = reversals (runFrom config state (prefix ++ [q])) + 1.
Proof.
  intros Hlr Hatt Halt Hlen.
  rewrite <- app_assoc in Halt. cbn [app] in Halt.
  apply alternating_last in Halt.
  rewrite (runFrom_snoc config state (prefix ++ [q]) r).
  rewrite (runFrom_snoc config state prefix q).
  rewrite !length_app in Hlen. cbn [length] in Hlen.
  pose proof (attempts_runFrom config prefix state) as Hp.
  set (s := runFrom config state prefix) in *.
  destruct (running_step s config q) as [Hd Hl]; [lia|].
  pose proof (attempts_step s config q) as Hq.
  set (s' := advance config s q) in *.
  rewrite reversals_step.
  destruct (running_step s' config r) as [Hd' _]; [lia|].
  unfold reversalCounted. rewrite Hd', Hd, Hl.
  destruct q, r; cbn; congruence.
Qed.

(** C3, as stated, fails.  With [maxAttempts = 3] and the alternating
    responses heard, notHeard, heard, the third call is stopped by the
    attempt limit: the response asks for a direction other than the one
    held, a previous response exists, and the reversal count stays at 1. *)
Lemma alternating_increment_fails_at_attempt_limit :
  let config := (createStaircase threeAttempts).2 in
  let before := runFrom config (createStaircase threeAttempts).1
                  [heard; notHeard] in
  let after := advance config before heard in
  alternating [heard; notHeard; heard] = true
  /\ direction before <> directionOf heard
  /\ lastResponse before <> None
  /\ reversals before = 1
  /\ reversals after = 1
  /\ ~ alternating_always_increments.
Proof.
  cbv zeta. split; [reflexivity|]. split; [discriminate|].
  split; [discriminate|]. split; [reflexivity|]. split; [reflexivity|].
  intros H.
  specialize (H threeAttempts [heard; notHeard] heard).
  assert (Hne : [heard; notHeard] <> []) by discriminate.
  specialize (H Hne eq_refl). vm_compute in H. discriminate H.
Qed.

(** C3 (amended). A call counts a reversal exactly when the direction of the
    state it returns differs from the direction held before it and a previous
    response exists; on a call the attempt limit does not stop, the returned
    direction is the one the response asks for, and a call the limit stops
    counts none.  Hence a run of identical responses never increments
    [reversals]; alternating responses increment it on every call after the
    first that the attempt limit does not stop; and at a level boundary a
    reversal is counted although the clamped level does not move. *)
Theorem reversal_counting :
  (forall state config response,
     reversals (advance config state response)
     = reversals state
       + (if reversalCounted state (advance config state response)
          then 1 else 0))
  /\ (forall state config response,
        attempts state + 1 < maxAttempts config ->
        direction (advance config state response) = directionOf response)
  /\ (forall state config response,
        maxAttempts config <= attempts state + 1 ->
        reversals (advance config state response) = reversals state)
  /\ (forall overrides response n,
        reversals (runFrom (createStaircase overrides).2
                     (createStaircase overrides).1 (repeat response n)) = 0)
  /\ (forall overrides prefix response,
        prefix <> [] ->
        alternating (prefix ++ [response]) = true ->
        Z.of_nat (length (prefix ++ [response]))
          < maxAttempts (createStaircase overrides).2 ->
        reversals (runFrom (createStaircase overrides).2
                     (createStaircase overrides).1 (prefix ++ [response]))
        = reversals (runFrom (createStaircase overrides).2
                       (createStaircase overrides).1 prefix) + 1)
  /\ (forall state config,
        attempts state + 1 < maxAttempts config ->
        lastResponse state <> None ->
        direction state = down ->
        currentLevel state = maxLevel config ->
        0 <= stepSizeUp config ->
        reversals (advance config state notHeard) = reversals state + 1
        /\ currentLevel (advance config state notHeard) = currentLevel state)
  /\ (forall state config,
        attempts state + 1 < maxAttempts config ->
        lastResponse state <> None ->
        direction state = up ->
        currentLevel state = minLevel config ->
        0 <= stepSizeDown config ->
        reversals (advance config state heard) = reversals state + 1
        /\ currentLevel (advance config state heard) = currentLevel state).
Proof.
  split; [exact reversals_step|].
  split; [intros; apply running_step; assumption|].
  split; [exact stopped_step_reversals|].
  split.
  { intros overrides response n.
    rewrite identical_no_reversal; [reflexivity|]. left. reflexivity. }
  split.
  { intros overrides prefix response Hne Halt Hlen.
    destruct (exists_last Hne) as (prefix' & q & ->).
    apply alternating_step; auto. }
  split.
  - intros state config Hatt Hlr Hdir Hlvl Hup.
    revert Hatt Hlr Hdir Hlvl Hup. step_cases; intros; subst;
      try discriminate; try congruence; try lia.
  - intros state config Hatt Hlr Hdir Hlvl Hdown.
    revert Hatt Hlr Hdir Hlvl Hdown. step_cases; intros; subst;
      try discriminate; try congruence; try lia.
Qed.

Lemma reversal_counting_witness :
  let config := (createStaircase singleLevel).2 in
  let state := runFrom config (createStaircase singleLevel).1 [heard] in
  reversals (runFrom DEFAULT_CONFIG (createStaircase noOverrides).1
               [heard; notHeard; heard]) = 2
  /\ validConfig config
  /\ currentLevel state = maxLevel config
  /\ reversals (advance config state notHeard) = reversals state + 1
  /\ currentLevel (advance config state notHeard) = currentLevel state.
Proof.
  cbv zeta.
  destruct reversal_counting as (_ & _ & _ & _ & Halt & Hmax & _).
  split.
  { refine (Halt noOverrides [heard; notHeard] heard _ _ _);
      [discriminate | reflexivity | vm_compute; reflexivity]. }
  split; [unfold validConfig; cbn; lia|].
  split; [reflexivity|].
  apply Hmax;
    [vm_compute; reflexivity | discriminate | reflexivity | reflexivity
    | cbn; lia].
Defined.

(** With two distinct bounds a reversal at a bound without a move of the
    level needs a state no run produces: in a run, a call that counts a
    reversal moves the level. *)
Lemma runFrom_inBounds config responses :
  minLevel config <= maxLevel config ->
  0 <= stepSizeDown config -> 0 <= stepSizeUp config ->
  forall state, inBounds config state ->
                inBounds config (runFrom config state responses).
Proof.
  intros Hmm Hd Hu. induction responses as [|r rs IH]; intros state Hb;
    [exact Hb|].
  change (runFrom config state (r :: rs))
    with (runFrom config (advance config state r) rs).
  apply IH, advance_inBounds; assumption.
Qed.

Lemma advance_awayFromBound config state response :
  minLevel config < maxLevel config ->
  0 < stepSizeDown config -> 0 < stepSizeUp config ->
  inBounds config state ->
  awayFromBound config (advance config state response).
Proof.
  unfold inBounds, awayFromBound. intros Hmm Hd Hu Hb.
  step_cases;
    first [ right; left; lia
          | right; right; left; split; [reflexivity | lia]
          | right; right; right; split; [reflexivity | lia] ].
Qed.

Lemma reversal_moves_level_step config state response :
  0 < stepSizeDown config -> 0 < stepSizeUp config ->
  inBounds config state -> awayFromBound config state ->
  reversals (advance config state response) = reversals state + 1 ->
  currentLevel (advance config state response) <> currentLevel state.
Proof.
  unfold inBounds, awayFromBound. intros Hd Hu Hb Haway.
  revert Hb Haway. step_cases; intros Hb Haway Hrev;
    solve [ lia
          | destruct Haway as [Ha|[Ha|[[Ha Hl]|[Ha Hl]]]];
            solve [congruence | lia] ].
Qed.

Lemma reversal_moves_level (overrides : PartialConfig)
    (responses : list Response) (response : Response) :
  validConfig (createStaircase overrides).2 ->
  minLevel (createStaircase overrides).2
    < maxLevel (createStaircase overrides).2 ->
  reversals (runFrom (createStaircase overrides).2
               (createStaircase overrides).1 (responses ++ [response]))
  = reversals (runFrom (createStaircase overrides).2
                 (createStaircase overrides).1 responses) + 1 ->
  currentLevel (runFrom (createStaircase overrides).2
                  (createStaircase overrides).1 (responses ++ [response]))
  <> currentLevel (runFrom (createStaircase overrides).2
                     (createStaircase overrides).1 responses).
Proof.
  intros (Hinit & Hd & Hu) Hmm.
  set (config := (createStaircase overrides).2) in *.
  set (state0 := (createStaircase overrides).1) in *.
  assert (Hb0 : inBounds config state0) by exact Hinit.
  rewrite runFrom_snoc.
  apply reversal_moves_level_step; try assumption.
  - apply runFrom_inBounds; try lia. exact Hb0.
  - destruct responses as [|q rest] using rev_ind.
    + left. reflexivity.
    + rewrite runFrom_snoc. apply advance_awayFromBound; try assumption.
      apply runFrom_inBounds; try lia. exact Hb0.
Qed.

(** *** Attempts and termination *)

Lemma results_length config responses : forall state,
  length (results config state responses) = length responses.
Proof.
  induction responses as [|r rs IH]; intros state; cbn [results length];
    [reflexivity | f_equal; apply IH].
Qed.

Lemma results_lookup config responses : forall state k res,
  results config state responses !! k = Some res ->
  exists r, responses !! k = Some r
    /\ res = processResponse (runFrom config state (take k responses)) config r.
Proof.
  induction responses as [|r rs IH]; intros state k res Hk;
    [discriminate Hk|].
  destruct k as [|k]; cbn [results] in Hk.
  - injection Hk as <-. exists r. split; reflexivity.
  - apply IH in Hk as (r' & Hr' & ->). exists r'. split; [exact Hr'|].
    reflexivity.
Qed.

Lemma stopped_step_result state config response :
  maxAttempts config <= attempts state + 1 ->
  shouldContinue (processResponse state config response) = false.
Proof. intros Hmax. step_cases; solve [reflexivity | lia]. Qed.

(** What makes a call stop: the attempt limit, or else the reversal
    limit. *)
Lemma stop_iff state config response :
  shouldContinue (processResponse state config response) = false
  <-> maxAttempts config <= attempts state + 1
      \/ maxReversals config <= reversals (advance config state response).
Proof.
  step_cases; split; intros Hstop;
    solve [reflexivity | discriminate Hstop | lia | left; lia | right; lia
          | destruct Hstop; lia].
Qed.

(** A list of calls one of which stops has a first call that stops. *)
Lemma firstStop_exists (calls : list ProcessResult) : forall n res,
  calls !! n = Some res -> shouldContinue res = false ->
  exists k, (k <= n)%nat /\ firstStop calls k.
Proof.
  induction calls as [|c cs IH]; intros n res Hn Hstop; [discriminate Hn|].
  destruct (shouldContinue c) eqn:Hc.
  - destruct n as [|n]; [cbn in Hn; congruence|].
    destruct (IH n res Hn Hstop) as (k & Hk & (res' & Hres' & Hstop') & Hfirst).
    exists (S k). split; [lia|]. split.
    + exists res'. split; [exact Hres' | exact Hstop'].
    + intros j rj Hj Hrj. destruct j as [|j].
      * cbn in Hrj. congruence.
      * apply (Hfirst j rj); [lia | exact Hrj].
  - exists 0%nat. split; [lia|]. split.
    + exists c. split; [reflexivity | exact Hc].
    + intros j rj Hj. lia.
Qed.

(** C5, as stated, fails.  With the default configuration and the
    alternating responses heard, notHeard, heard, notHeard, heard, the fifth
    call stops the run at the fourth reversal, with [attempts = 5] well
    below [maxAttempts = 20]; and with [maxAttempts = 0] the run stops at
    its first call, which is not within [maxAttempts] calls. *)
Lemma termination_not_tied_to_attempt_limit :
  let early :=
    results DEFAULT_CONFIG (createStaircase noOverrides).1
      [heard; notHeard; heard; notHeard; heard] in
  let degenerate :=
    results (createStaircase noAttempts).2 (createStaircase noAttempts).1
      [heard] in
  (exists res,
     early !! 4%nat = Some res
     /\ shouldContinue res = false
     /\ attempts (newState res) = 5
     /\ reversals (newState res) = 4)
  /\ maxAttempts DEFAULT_CONFIG = 20
  /\ ~ terminates_where_attempts_reach_maxAttempts
  /\ (exists res,
        degenerate !! 0%nat = Some res
        /\ shouldContinue res = false
        /\ attempts (newState res) = 1)
  /\ maxAttempts (createStaircase noAttempts).2 = 0
  /\ ~ terminates_within_maxAttempts.
Proof.
  cbv zeta.
  split; [eexists; repeat split; vm_compute; reflexivity|].
  split; [reflexivity|]. split.
  { intros H.
    assert (Hres : exists res,
              results (createStaircase noOverrides).2
                (createStaircase noOverrides).1
                [heard; notHeard; heard; notHeard; heard] !! 4%nat = Some res
              /\ shouldContinue res = false
              /\ attempts (newState res) = 5).
    { eexists. repeat split; vm_compute; reflexivity. }
    destruct Hres as (res & Hres & Hstop & Hatt).
    specialize (H noOverrides _ 4%nat res Hres Hstop).
    rewrite Hatt in H. vm_compute in H. apply H. reflexivity. }
  split; [eexists; repeat split; vm_compute; reflexivity|].
  split; [reflexivity|].
  intros H. destruct (H noAttempts [heard]) as (k & res & Hk & _).
  - vm_compute. discriminate.
  - change (maxAttempts (createStaircase noAttempts).2) with 0 in Hk. lia.
Qed.

(** C5. Every call increments [attempts] by one.  In a run from the state
    [createStaircase] builds, the k-th call leaves [attempts = k] and returns
    [shouldContinue = false] exactly when k has reached [maxAttempts] or the
    reversal count has reached [maxReversals].  So, with [maxAttempts >= 1]
    and whatever the responses, the run has a first stopping call, numbered
    at most [maxAttempts]: the call at which [attempts] reaches
    [maxAttempts], or an earlier one at which [reversals] reaches
    [maxReversals].  (The result is a function of state, configuration and
    response.) *)
Theorem attempts_increment_and_termination (overrides : PartialConfig)
    (responses : list Response) :
  let state0 := (createStaircase overrides).1 in
  let config := (createStaircase overrides).2 in
  let calls := results config state0 responses in
  (forall state response,
     attempts (newState (processResponse state config response))
     = attempts state + 1)
  /\ (forall k res,
        calls !! k = Some res ->
        attempts (newState res) = Z.of_nat (S k)
        /\ (shouldContinue res = false
            <-> maxAttempts config <= Z.of_nat (S k)
                \/ maxReversals config <= reversals (newState res)))
  /\ (1 <= maxAttempts config <= Z.of_nat (length responses) ->
      exists k res,
        Z.of_nat (S k) <= maxAttempts config
        /\ firstStop calls k
        /\ calls !! k = Some res
        /\ attempts (newState res) = Z.of_nat (S k)
        /\ (Z.of_nat (S k) = maxAttempts config
            \/ maxReversals config <= reversals (newState res))).
Proof.
  intros state0 config calls.
  assert (Hcall : forall k res,
            calls !! k = Some res ->
            attempts (newState res) = Z.of_nat (S k)
            /\ (shouldContinue res = false
                <-> maxAttempts config <= Z.of_nat (S k)
                    \/ maxReversals config <= reversals (newState res))).
  { intros k res Hk.
    pose proof (lookup_lt_Some _ _ _ Hk) as Hlt.
    unfold calls in Hlt. rewrite results_length in Hlt.
    apply results_lookup in Hk as (r & Hr & ->).
    pose proof (attempts_runFrom config (take k responses) state0) as Hatt.
    rewrite length_take, Nat.min_l in Hatt by lia.
    change (attempts state0) with 0 in Hatt.
    fold (advance config (runFrom config state0 (take k responses)) r).
    split.
    - rewrite attempts_step. lia.
    - unfold advance at 1. rewrite stop_iff, Hatt.
      replace (0 + Z.of_nat k + 1) with (Z.of_nat (S k)) by lia.
      reflexivity. }
  split; [intros; apply (attempts_step state config response)|].
  split; [exact Hcall|].
  intros [Hpos Hlen].
  destruct (lookup_lt_is_Some_2 calls (Z.to_nat (maxAttempts config) - 1))
    as [last Hlast].
  { unfold calls. rewrite results_length. lia. }
  destruct (Hcall _ _ Hlast) as [_ Hstop].
  destruct (firstStop_exists calls _ last Hlast) as (k & Hk & Hfirst).
  { apply Hstop. left. lia. }
  pose proof Hfirst as [(res & Hres & Hstopped) _].
  destruct (Hcall _ _ Hres) as [Hatt Hwhy].
  exists k, res. split; [lia|]. split; [exact Hfirst|].
  split; [exact Hres|]. split; [exact Hatt|].
  apply Hwhy in Hstopped. destruct Hstopped as [Hmax|Hrev]; [left; lia|].
  right. exact Hrev.
Qed.

Lemma attempts_increment_and_termination_witness :
  exists k res,
    Z.of_nat (S k) <= 20
    /\ firstStop
         (results DEFAULT_CONFIG (createStaircase noOverrides).1
            (repeat heard 25)) k
    /\ results DEFAULT_CONFIG (createStaircase noOverrides).1
         (repeat heard 25) !! k = Some res
    /\ attempts (newState res) = Z.of_nat (S k)
    /\ (Z.of_nat (S k) = 20 \/ 4 <= reversals (newState res)).
Proof.
  destruct (attempts_increment_and_termination noOverrides (repeat heard 25))
    as (_ & _ & Hrun).
  apply Hrun. cbn. lia.
Defined.

(** C6. With the default configuration, twenty [notHeard] responses in a
    row: the first nineteen calls continue without a threshold, the twentieth
    (the attempt limit) returns [shouldContinue = false] with threshold
    [maxLevel = 0], and the level climbs from -17 to 0 and never exceeds
    [maxLevel]. *)
Theorem twenty_notHeard_scenario :
  let state0 := (createStaircase noOverrides).1 in
  let config := (createStaircase noOverrides).2 in
  let calls := results config state0 (repeat notHeard 20) in
  config = DEFAULT_CONFIG
  /\ map shouldContinue calls = repeat true 19 ++ [false]
  /\ map resultThreshold calls = repeat None 19 ++ [Some (maxLevel config)]
  /\ maxLevel config = 0
  /\ map (fun res => currentLevel (newState res)) calls
     = [-17; -14; -11; -8; -5; -2] ++ repeat 0 14
  /\ map (fun res => attempts (newState res)) calls
     = map Z.of_nat (seq 1 20)
  /\ Forall (fun res => currentLevel (newState res) <= maxLevel config) calls
  /\ currentLevel state0 <= maxLevel config.
Proof.
  cbv zeta.
  split; [reflexivity|]. split; [vm_compute; reflexivity|].
  split; [vm_compute; reflexivity|]. split; [reflexivity|].
  split; [vm_compute; reflexivity|]. split; [vm_compute; reflexivity|].
  split.
  - apply Forall_forall. intros res Hin.
    pose proof (currentLevel_bounded_default (repeat notHeard 20)) as Hb.
    rewrite Forall_forall in Hb. apply Hb in Hin.
    change (currentLevel (newState res) <= 0). lia.
  - vm_compute. discriminate.
Qed.

(** C9. On a state whose threshold is still unset, the call returns
    [shouldContinue = false] exactly when it returns a threshold, and the
    threshold it returns is the [threshold] field of the state it returns. *)
Theorem result_threshold_consistent (state : StaircaseState)
    (config : StaircaseConfig) (response : Response) :
  threshold state = None ->
  let res := processResponse state config response in
  (shouldContinue res = false <-> resultThreshold res <> None)
  /\ resultThreshold res = threshold (newState res).
Proof.
  intros Hth res. subst res.
  step_cases; subst; (split; [split; intros; congruence | reflexivity]).
Qed.

Lemma result_threshold_consistent_witness :
  let res := processResponse (createStaircase noOverrides).1
               DEFAULT_CONFIG notHeard in
  (shouldContinue res = false <-> resultThreshold res <> None)
  /\ resultThreshold res = threshold (newState res).
Proof.
  exact (result_threshold_consistent (createStaircase noOverrides).1
           DEFAULT_CONFIG notHeard eq_refl).
Defined.

(** C10. A call stopped by the attempt limit returns the input state with
    [attempts] incremented, [lastResponse] set to the response and
    [threshold] set to the current level; [currentLevel], [direction],
    [reversals] and [stepSize] are those of the input. *)
Theorem maxAttempts_branch_frame (state : StaircaseState)
    (config : StaircaseConfig) (response : Response) :
  maxAttempts config <= attempts state + 1 ->
  newState (processResponse state config response)
  = {| currentLevel := currentLevel state;
       stepSize := stepSize state;
       direction := direction state;
       reversals := reversals state;
       attempts := attempts state + 1;
       lastResponse := Some response;
       threshold := Some (currentLevel state) |}.
Proof.
  intros Hmax. step_cases; solve [reflexivity | lia].
Qed.

Lemma maxAttempts_branch_frame_witness :
  newState (processResponse
              {| currentLevel := -14; stepSize := 3; direction := up;
                 reversals := 2; attempts := 19;
                 lastResponse := Some notHeard; threshold := None |}
              DEFAULT_CONFIG heard)
  = {| currentLevel := -14; stepSize := 3; direction := up;
       reversals := 2; attempts := 20;
       lastResponse := Some heard; threshold := Some (-14) |}.
Proof.
  apply (maxAttempts_branch_frame
           {| currentLevel := -14; stepSize := 3; direction := up;
              reversals := 2; attempts := 19;
              lastResponse := Some notHeard; threshold := None |}
           DEFAULT_CONFIG heard).
  cbn. lia.
Defined.

End StaircaseFacts.

(** ** Properties of the playback engine *)

Module AudioEngineFacts.
Import AudioEngine.

(** *** The gain formula *)

Lemma Rpower_10_neg1 : Rpower 10 (-1) = (/ 10)%R.
Proof.
  replace (-1)%R with (Ropp 1) by lra.
  rewrite Rpower_Ropp, Rpower_1 by lra. reflexivity.
Qed.

Lemma Rpower_10_neg3 : Rpower 10 (-3) = (/ 1000)%R.
Proof.
  replace (-3)%R with (Ropp 3) by lra.
  rewrite Rpower_Ropp. replace 3%R with (INR 3) by (simpl; lra).
  rewrite Rpower_pow by lra. f_equal. simpl. lra.
Qed.

(** *** [stopAll] *)

Lemma with_oscillators_same w : with_oscillators (oscillators w) w = w.
Proof. destruct w; reflexivity. Qed.

Lemma with_gainNodes_same w : with_gainNodes (gainNodes w) w = w.
Proof. destruct w; reflexivity. Qed.

(** One round of the first loop. *)
Lemma stop_caught (o : ref) (w : World) :
  tryCatch (stop o 0) w
  = (inr tt,
     with_oscillators
       (alter (tryStop (platform w) (contexts w)) o (oscillators w)) w).
Proof.
  rewrite alter_alt. unfold tryCatch, stop, onOscillator, tryStop.
  destruct (oscillators w !! o) as [node|] eqn:Hnode;
    [|rewrite with_oscillators_same; reflexivity].
  destruct (contexts w !! osc_context node) as [ctx|].
  - destruct (stopNode _ _ _ node) as [e|node']; [|reflexivity].
    rewrite insert_id by assumption.
    rewrite with_oscillators_same; reflexivity.
  - rewrite insert_id by assumption.
    rewrite with_oscillators_same; reflexivity.
Qed.

Lemma bind_run {A B} (m : Eff A) (k : A -> Eff B) (w : World) :
  (m ≫= k) w
  = match m w with
    | (inr a, w') => k a w'
    | (inl e, w') => (inl e, w')
    end.
Proof. reflexivity. Qed.

Lemma forEach_cons {A} (x : A) (l : list A) (f : A -> Eff unit) (w : World) :
  forEach (x :: l) f w
  = match f x w with
    | (inr _, w') => forEach l f w'
    | (inl e, w') => (inl e, w')
    end.
Proof. reflexivity. Qed.

(** The first loop: every listed oscillator gets its [stop], caught. *)
Lemma stop_loop (l : list ref) : forall w,
  forEach l (fun osc => tryCatch (stop osc 0)) w
  = (inr tt,
     with_oscillators
       (foldl (fun m o => alter (tryStop (platform w) (contexts w)) o m)
              (oscillators w) l) w).
Proof.
  induction l as [|o l IH]; intros w.
  - cbn. rewrite with_oscillators_same. reflexivity.
  - rewrite forEach_cons, stop_caught, IH. reflexivity.
Qed.

(** One round of the second loop. *)
Lemma silence_caught (g : ref) (w : World) :
  tryCatch (t ← audioContext_currentTime;
            cancelScheduledValues g t;;
            t ← audioContext_currentTime;
            setValueAtTime g 0%R t) w
  = (inr tt,
     with_gainNodes (alter (silenceAt (engineTime w)) g (gainNodes w)) w).
Proof.
  rewrite alter_alt.
  unfold tryCatch, mbind, Eff_bind, bind, audioContext_currentTime,
    engineTime, silenceAt, cancelScheduledValues, setValueAtTime, onGainParam.
  destruct (audioContext (engine w)) as [c|] eqn:Hc; cbn.
  2:{ destruct (gainNodes w !! g) eqn:Hg;
        [rewrite insert_id by assumption|];
        rewrite with_gainNodes_same; reflexivity. }
  destruct (contexts w !! c) as [ctx|] eqn:Hctx; cbn.
  2:{ destruct (gainNodes w !! g) eqn:Hg;
        [rewrite insert_id by assumption|];
        rewrite with_gainNodes_same; reflexivity. }
  destruct (gainNodes w !! g) as [node|] eqn:Hg;
    [|rewrite with_gainNodes_same; reflexivity].
  destruct (Qle_bool 0 (currentTime ctx)) eqn:Hpos.
  - cbn. rewrite Hc. cbn. rewrite Hctx. cbn.
    rewrite lookup_insert_eq, Hpos. cbn.
    rewrite insert_insert_eq. reflexivity.
  - rewrite insert_id by assumption.
    rewrite with_gainNodes_same; reflexivity.
Qed.

Lemma silence_loop (l : list ref) : forall w,
  forEach l (fun g =>
    tryCatch (t ← audioContext_currentTime;
              cancelScheduledValues g t;;
              t ← audioContext_currentTime;
              setValueAtTime g 0%R t)) w
  = (inr tt,
     with_gainNodes
       (foldl (fun m g => alter (silenceAt (engineTime w)) g m)
              (gainNodes w) l) w).
Proof.
  induction l as [|g l IH]; intros w.
  - cbn. rewrite with_gainNodes_same. reflexivity.
  - rewrite forEach_cons, silence_caught, IH. reflexivity.
Qed.

(** The state [stopAll] leaves, in closed form; it never throws. *)
Lemma stopAll_run (w : World) :
  stopAll w
  = (inr tt,
     with_engine
       (set_activeGainNodes [] (set_activeOscillators [] (engine w)))
       (with_gainNodes
          (foldl (fun m g => alter (silenceAt (engineTime w)) g m)
                 (gainNodes w) (activeGainNodes (engine w)))
          (with_oscillators
             (foldl (fun m o => alter (tryStop (platform w) (contexts w)) o m)
                    (oscillators w) (activeOscillators (engine w)))
             w))).
Proof.
  unfold stopAll.
  rewrite bind_run. unfold get at 1. cbv beta iota.
  rewrite bind_run, stop_loop. cbv beta iota.
  rewrite bind_run. unfold get. cbv beta iota.
  rewrite bind_run, silence_loop. reflexivity.
Qed.

(** A loop that alters the entries of the listed keys, when altering is
    idempotent (a key may be listed more than once). *)
Lemma foldl_alter_lookup {V} (f : V -> V) (l : list ref) :
  (forall v, f (f v) = f v) ->
  forall (m : gmap ref V) (k : ref),
    foldl (fun m k => alter f k m) m l !! k
    = if decide (k ∈ l) then f <$> m !! k else m !! k.
Proof.
  intros Hidem. induction l as [|a l IH]; intros m k.
  - cbn. destruct (decide (k ∈ [])) as [Hin|]; [|reflexivity].
    inversion Hin.
  - cbn [foldl]. rewrite IH.
    destruct (decide (a = k)) as [->|Hne].
    + rewrite lookup_alter_eq.
      destruct (decide (k ∈ k :: l)) as [_|Hout];
        [|exfalso; apply Hout, elem_of_cons; left; reflexivity].
      destruct (decide (k ∈ l)); [|reflexivity].
      destruct (m !! k); cbn; [rewrite Hidem|]; reflexivity.
    + rewrite lookup_alter_ne by assumption.
      destruct (decide (k ∈ l)) as [Hin|Hout];
        destruct (decide (k ∈ a :: l)) as [Hin'|Hout']; try reflexivity.
      * exfalso. apply Hout', elem_of_cons. right. exact Hin.
      * apply elem_of_cons in Hin' as [->|Hin']; contradiction.
Qed.

Lemma Qle_bool_refl (q : Q) : Qle_bool q q = true.
Proof. apply Qle_bool_iff, Qle_refl. Qed.

Lemma Qle_bool_false_lt (p q : Q) : Qle_bool p q = false -> (q < p)%Q.
Proof.
  intros H. apply Qnot_le_lt. intros Hle.
  apply Qle_bool_iff in Hle. congruence.
Qed.

Lemma cancelFrom_before (now : Q) (l : list AutomationEvent) :
  Forall (fun e => (eventTime e < now)%Q) (cancelFrom now l).
Proof.
  apply List.Forall_forall. intros e He.
  apply List.filter_In in He as [_ He].
  apply Qle_bool_false_lt. destruct (Qle_bool now (eventTime e)); [discriminate|].
  reflexivity.
Qed.

Lemma cancelFrom_keeps (now : Q) (l : list AutomationEvent) :
  Forall (fun e => (eventTime e < now)%Q) l -> cancelFrom now l = l.
Proof.
  induction 1 as [|e l He _ IH]; [reflexivity|].
  cbn. destruct (Qle_bool now (eventTime e)) eqn:Hle.
  - apply Qle_bool_iff in Hle. exfalso.
    exact (Qlt_not_le _ _ He Hle).
  - cbn. f_equal. exact IH.
Qed.

Lemma insertEvent_last (e : AutomationEvent) (l : list AutomationEvent) :
  Forall (fun x => (eventTime x < eventTime e)%Q) l ->
  insertEvent e l = l ++ [e].
Proof.
  induction 1 as [|x l Hx _ IH]; [reflexivity|].
  cbn. replace (Qle_bool (eventTime x) (eventTime e)) with true.
  - f_equal. exact IH.
  - symmetry. apply Qle_bool_iff, Qlt_le_weak, Hx.
Qed.

Lemma silence_events (now : Q) (node : GainNode) :
  events (gain (silence now node))
  = cancelFrom now (events (gain node)) ++ [SetValue 0 now].
Proof.
  cbn. apply insertEvent_last. cbn [eventTime]. apply cancelFrom_before.
Qed.

Lemma silence_idempotent (now : Q) (node : GainNode) :
  silence now (silence now node) = silence now node.
Proof.
  pose proof (silence_events now node) as Hev.
  unfold silence at 1. unfold update_gain, param_schedule, param_cancel.
  cbn [gain gain_context value events].
  change (insertEvent (SetValue 0 now)
            (cancelFrom now (events (gain node))))
    with (events (gain (silence now node))).
  rewrite Hev.
  unfold cancelFrom at 1. rewrite List.filter_app.
  fold (cancelFrom now (cancelFrom now (events (gain node)))).
  rewrite (cancelFrom_keeps now (cancelFrom now _)) by apply cancelFrom_before.
  cbn [List.filter eventTime]. rewrite Qle_bool_refl. cbn [negb].
  rewrite app_nil_r.
  unfold silence, update_gain, param_schedule, param_cancel.
  cbn [gain gain_context value events]. reflexivity.
Qed.

Lemma silenceAt_idempotent (t : option Q) (node : GainNode) :
  silenceAt t (silenceAt t node) = silenceAt t node.
Proof.
  unfold silenceAt. destruct t as [now|]; [|reflexivity].
  destruct (Qle_bool 0 now) eqn:Hpos; [|rewrite ?Hpos; reflexivity].
  apply silence_idempotent.
Qed.

(** Once every event is due, the last one decides the value. *)
Lemma valueFrom_all_due (t : Q) (v : R) (now : Q) (l : list AutomationEvent) :
  Forall (fun e => (eventTime e < now)%Q) l -> (now <= t)%Q ->
  forall previous, valueFrom previous (l ++ [SetValue v now]) t = v.
Proof.
  intros Hl Ht. induction Hl as [|e l He _ IH]; intros previous; cbn.
  - replace (Qle_bool now t) with true; [reflexivity|].
    symmetry. apply Qle_bool_iff, Ht.
  - replace (Qle_bool (eventTime e) t) with true; [apply IH|].
    symmetry. apply Qle_bool_iff.
    apply Qle_trans with now; [apply Qlt_le_weak, He | exact Ht].
Qed.

Lemma silence_silent (now t : Q) (node : GainNode) :
  (now <= t)%Q -> valueAt (gain (silence now node)) t = 0%R.
Proof.
  intros Ht. unfold valueAt. rewrite silence_events.
  apply valueFrom_all_due; [apply cancelFrom_before | exact Ht].
Qed.

Lemma tryStop_stopNow (p : Platform) (ctxs : gmap ref AudioContext)
    (node : OscillatorNode) :
  tryStop p ctxs node
  = match ctxs !! osc_context node with
    | None => node
    | Some ctx => stopNow (stopTwiceThrows p) (currentTime ctx) node
    end.
Proof.
  unfold tryStop, stopNode, stopNow.
  destruct (ctxs !! osc_context node) as [ctx|]; [|reflexivity].
  destruct (startTime node); [|reflexivity].
  change (Qle_bool 0 0) with true. cbn [negb].
  destruct (stopTime node); [|reflexivity].
  destruct (stopTwiceThrows p); [reflexivity|].
  destruct (Qle_bool _ (currentTime ctx)); reflexivity.
Qed.

Lemma stopNow_idempotent (twiceThrows : bool) (now : Q) (o : OscillatorNode) :
  stopNow twiceThrows now (stopNow twiceThrows now o)
  = stopNow twiceThrows now o.
Proof.
  assert (Hdue : twiceThrows
                 || Qle_bool (if Qle_bool 0 now then now else 0%Q) now = false ->
                 Qle_bool 0 now = false).
  { destruct (Qle_bool 0 now) eqn:Hpos; [|reflexivity].
    rewrite Qle_bool_refl, orb_true_r. discriminate. }
  unfold stopNow. destruct o as [c ty fr st sp oe]; cbn.
  destruct st as [st|]; [|reflexivity].
  destruct sp as [sp|]; cbn.
  - destruct (twiceThrows || Qle_bool sp now) eqn:Hsp; cbn; [rewrite Hsp; reflexivity|].
    destruct (twiceThrows || Qle_bool _ now) eqn:Hat; [reflexivity|].
    reflexivity.
  - destruct (twiceThrows || Qle_bool _ now) eqn:Hat; reflexivity.
Qed.

Lemma stopNow_context (twiceThrows : bool) (now : Q) (o : OscillatorNode) :
  osc_context (stopNow twiceThrows now o) = osc_context o.
Proof.
  unfold stopNow. destruct (startTime o), (stopTime o); try reflexivity.
  destruct (_ || _); reflexivity.
Qed.

Lemma tryStop_idempotent (p : Platform) (ctxs : gmap ref AudioContext)
    (node : OscillatorNode) :
  tryStop p ctxs (tryStop p ctxs node) = tryStop p ctxs node.
Proof.
  rewrite (tryStop_stopNow p ctxs (tryStop p ctxs node)).
  rewrite !tryStop_stopNow.
  destruct (ctxs !! osc_context node) as [ctx|] eqn:Hctx; [|rewrite Hctx; reflexivity].
  rewrite stopNow_context, Hctx. apply stopNow_idempotent.
Qed.

(** In a browser where a repeated [stop()] is accepted, a started
    oscillator has stopped by the current time after [stopAll]'s attempt. *)
Lemma tryStop_stopped (p : Platform) (ctxs : gmap ref AudioContext)
    (node : OscillatorNode) (ctx : AudioContext) :
  stopTwiceThrows p = false ->
  ctxs !! osc_context node = Some ctx ->
  is_Some (startTime node) ->
  (0 <= currentTime ctx)%Q ->
  exists t, stopTime (tryStop p ctxs node) = Some t
            /\ (t <= currentTime ctx)%Q.
Proof.
  intros Hleg Hctx [st Hst] Hpos. rewrite tryStop_stopNow, Hctx.
  unfold stopNow. rewrite Hst, Hleg. cbn.
  apply Qle_bool_iff in Hpos. rewrite Hpos.
  destruct (stopTime node) as [sp|] eqn:Hsp.
  - destruct (Qle_bool sp (currentTime ctx)) eqn:Hdue.
    + exists sp. split; [exact Hsp | apply Qle_bool_iff, Hdue].
    + exists (currentTime ctx). split; [reflexivity | apply Qle_refl].
  - exists (currentTime ctx). split; [reflexivity | apply Qle_refl].
Qed.

(** *** Reachable states are well formed *)

Lemma runs_bind {A B} (m : Eff A) (k : A -> Eff B) w Q :
  runs m w (fun r w' =>
    match r with
    | inr a => runs (k a) w' Q
    | inl e => Q (inl e) w'
    end) ->
  runs (m ≫= k) w Q.
Proof.
  unfold runs. rewrite bind_run. destruct (m w) as [[e|a] w']; auto.
Qed.

Lemma runs_get w (Q : Exception + World -> World -> Prop) :
  Q (inr w) w -> runs get w Q.
Proof. auto. Qed.

Lemma runs_ret {A} (a : A) w (Q : Exception + A -> World -> Prop) :
  Q (inr a) w -> runs (ret a) w Q.
Proof. auto. Qed.

Lemma runs_throw {A} e w (Q : Exception + A -> World -> Prop) :
  Q (inl e) w -> runs (throw e) w Q.
Proof. auto. Qed.

Lemma runs_modify f w (Q : Exception + unit -> World -> Prop) :
  Q (inr tt) (f w) -> runs (modify f) w Q.
Proof. auto. Qed.

Lemma runs_tryCatch (m : Eff unit) w (Q : Exception + unit -> World -> Prop) :
  runs m w (fun _ w' => Q (inr tt) w') -> runs (tryCatch m) w Q.
Proof.
  unfold runs, tryCatch. destruct (m w) as [[e|[]] w']; auto.
Qed.

Lemma runs_nodeLocal {A} (m : Eff A) w (Q : Exception + A -> World -> Prop) :
  nodeLocal m -> (forall r w', grows w w' -> Q r w') -> runs m w Q.
Proof. intros Hm HQ. apply HQ, Hm. Qed.

Lemma grows_refl w : grows w w.
Proof. repeat split; auto. Qed.

Lemma grows_trans w1 w2 w3 : grows w1 w2 -> grows w2 w3 -> grows w1 w3.
Proof.
  intros (He & Hc & Hg) (He' & Hc' & Hg').
  repeat split; [congruence | congruence | auto].
Qed.

Lemma grows_wellFormed w w' : grows w w' -> wellFormed w -> wellFormed w'.
Proof.
  intros (He & Hc & Hg) (H1 & H2 & H3 & H4).
  unfold wellFormed. rewrite He, Hc. repeat split; auto.
Qed.

Lemma nodeLocal_bind {A B} (m : Eff A) (k : A -> Eff B) :
  nodeLocal m -> (forall a, nodeLocal (k a)) -> nodeLocal (m ≫= k).
Proof.
  intros Hm Hk w. rewrite bind_run. specialize (Hm w).
  destruct (m w) as [[e|a] w']; [exact Hm|].
  eapply grows_trans; [exact Hm | apply Hk].
Qed.

Lemma nodeLocal_ret {A} (a : A) : nodeLocal (ret a).
Proof. intros w. apply grows_refl. Qed.

Lemma nodeLocal_throw {A} e : nodeLocal (@throw A e).
Proof. intros w. apply grows_refl. Qed.

Lemma nodeLocal_tryCatch (m : Eff unit) : nodeLocal m -> nodeLocal (tryCatch m).
Proof.
  intros Hm w. specialize (Hm w). unfold tryCatch.
  destruct (m w) as [[e|[]] w']; exact Hm.
Qed.

Lemma nodeLocal_fresh : nodeLocal fresh.
Proof. intros w. repeat split; auto. Qed.

Lemma nodeLocal_connect source target : nodeLocal (connect source target).
Proof. intros w. repeat split; auto. Qed.

Lemma is_Some_insert_gain (m : gmap ref GainNode) g node k :
  is_Some (m !! k) -> is_Some (<[g := node]> m !! k).
Proof.
  intros Hk. destruct (decide (g = k)) as [->|Hne].
  - rewrite lookup_insert_eq. eauto.
  - rewrite lookup_insert_ne by assumption. exact Hk.
Qed.

Lemma nodeLocal_createGain c : nodeLocal (createGain c).
Proof.
  intros w. repeat split. cbv [createGain mbind Eff_bind bind fresh modify ret snd].
  cbn. auto using is_Some_insert_gain.
Qed.

Lemma nodeLocal_createOscillator c : nodeLocal (createOscillator c).
Proof. intros w. repeat split; auto. Qed.

Lemma nodeLocal_createStereoPanner c : nodeLocal (createStereoPanner c).
Proof. intros w. repeat split; auto. Qed.

Lemma nodeLocal_updateOscillator o f : nodeLocal (updateOscillator o f).
Proof.
  intros w. unfold updateOscillator.
  destruct (oscillators w !! o); repeat split; auto.
Qed.

Lemma nodeLocal_onOscillator o f : nodeLocal (onOscillator o f).
Proof.
  intros w. unfold onOscillator.
  destruct (oscillators w !! o) as [node|]; [|apply grows_refl].
  destruct (contexts w !! osc_context node) as [ctx|]; [|apply grows_refl].
  destruct (f _ _ node); repeat split; auto.
Qed.

Lemma nodeLocal_setPanValue p v : nodeLocal (setPanValue p v).
Proof.
  intros w. unfold setPanValue.
  destruct (panners w !! p); repeat split; auto.
Qed.

Lemma nodeLocal_setGainValue g v : nodeLocal (setGainValue g v).
Proof.
  intros w. unfold setGainValue.
  destruct (gainNodes w !! g); repeat split; cbn;
    auto using is_Some_insert_gain.
Qed.

Lemma nodeLocal_onGainParam g t f : nodeLocal (onGainParam g t f).
Proof.
  intros w. unfold onGainParam.
  destruct (gainNodes w !! g); [|apply grows_refl].
  destruct (Qle_bool 0 t); repeat split; cbn; auto using is_Some_insert_gain.
Qed.

Lemma nodeLocal_currentTime : nodeLocal audioContext_currentTime.
Proof.
  intros w. unfold audioContext_currentTime.
  destruct (audioContext (engine w)) as [c|]; [|apply grows_refl].
  destruct (contexts w !! c); apply grows_refl.
Qed.

Create HintDb local discriminated.
#[export] Hint Resolve nodeLocal_ret nodeLocal_throw nodeLocal_tryCatch
  nodeLocal_fresh nodeLocal_connect nodeLocal_createGain
  nodeLocal_createOscillator nodeLocal_createStereoPanner
  nodeLocal_updateOscillator nodeLocal_onOscillator nodeLocal_setPanValue
  nodeLocal_setGainValue nodeLocal_onGainParam nodeLocal_currentTime : local.

Lemma runs_createGain c w (Q : Exception + ref -> World -> Prop) :
  (forall g w', grows w w' -> is_Some (gainNodes w' !! g) -> Q (inr g) w') ->
  runs (createGain c) w Q.
Proof.
  intros HQ. unfold runs.
  pose proof (nodeLocal_createGain c w) as Hg. revert Hg.
  cbv [createGain mbind Eff_bind bind fresh modify ret fst snd]. cbn.
  intros Hg. apply HQ; [exact Hg|]. cbn. rewrite lookup_insert_eq. eauto.
Qed.

Lemma grows_Held c w w' : grows w w' -> Held c w -> Held c w'.
Proof.
  intros Hg [Hwf Hc]. split; [eapply grows_wellFormed; eauto|].
  destruct Hg as (He & _). rewrite He. exact Hc.
Qed.

Lemma grows_Ready c g w w' : grows w w' -> Ready c g w -> Ready c g w'.
Proof.
  intros Hg [Hh Hs]. split; [eapply grows_Held; eauto|].
  destruct Hg as (_ & _ & Hk). auto.
Qed.

(** Replacing the engine's fields. *)
Lemma wellFormed_with_engine w e' :
  wellFormed w ->
  (forall g, g ∈ activeGainNodes e' ->
     g ∈ activeGainNodes (engine w) \/ is_Some (gainNodes w !! g)) ->
  (activeGainNodes e' <> [] -> is_Some (audioContext e')) ->
  (forall c, audioContext e' = Some c -> is_Some (contexts w !! c)) ->
  wellFormed (with_engine e' w).
Proof.
  intros (H1 & H2 & H3 & H4) Hl Hc Hk. repeat split; cbn; auto.
  intros g Hg. destruct (Hl g Hg); auto.
Qed.

(** Replacing the contexts. *)
Lemma wellFormed_with_contexts w m :
  wellFormed w ->
  (forall c, is_Some (contexts w !! c) -> is_Some (m !! c)) ->
  (forall c ctx, m !! c = Some ctx -> (0 <= currentTime ctx)%Q) ->
  wellFormed (with_contexts m w).
Proof.
  intros (H1 & H2 & H3 & H4) Hk Ht. repeat split; cbn; auto.
Qed.

Lemma wellFormed_insert_context w c ctx :
  wellFormed w -> (0 <= currentTime ctx)%Q ->
  wellFormed (with_contexts (<[c := ctx]> (contexts w)) w).
Proof.
  intros Hwf Ht. apply wellFormed_with_contexts; [exact Hwf| |].
  - intros k Hk. destruct (decide (c = k)) as [->|Hne].
    + rewrite lookup_insert_eq. eauto.
    + rewrite lookup_insert_ne by assumption. exact Hk.
  - intros k ctx' Hk. destruct (decide (c = k)) as [->|Hne].
    + rewrite lookup_insert_eq in Hk. injection Hk as <-. exact Ht.
    + rewrite lookup_insert_ne in Hk by assumption.
      destruct Hwf as (_ & _ & _ & H4). eapply H4, Hk.
Qed.

Lemma stopAll_wellFormed w :
  wellFormed w ->
  wellFormed (stopAll w).2 /\ activeGainNodes (engine (stopAll w).2) = [].
Proof.
  intros (H1 & H2 & H3 & H4). rewrite stopAll_run. cbn [snd].
  split; [|reflexivity]. unfold wellFormed. cbn.
  split; [intros g Hg; inversion Hg|]. split; [congruence|].
  split; assumption.
Qed.

Lemma without_subset node l x : x ∈ without node l -> x ∈ l.
Proof.
  unfold without. rewrite !list_elem_of_In, List.filter_In. tauto.
Qed.

Lemma onendedHandler_wellFormed oscillator envelopeGain w :
  wellFormed w -> wellFormed (onendedHandler oscillator envelopeGain w).2.
Proof.
  intros Hwf. pose proof Hwf as (H1 & H2 & H3 & H4).
  cbv [onendedHandler mbind Eff_bind bind modifyEngine modify snd].
  apply wellFormed_with_engine.
  - apply wellFormed_with_engine; cbn; auto.
  - cbn. intros g Hg. left. eapply without_subset, Hg.
  - cbn. intros Hne. apply H2. intros Hnil. apply Hne.
    rewrite Hnil. reflexivity.
  - cbn. exact H3.
Qed.

Lemma elapse_wellFormed dt w :
  (0 <= dt)%Q -> wellFormed w -> wellFormed (elapse dt w).2.
Proof.
  intros Hdt Hwf. cbv [elapse modify snd].
  apply wellFormed_with_contexts; [exact Hwf| |].
  - intros c [ctx Hc]. rewrite lookup_fmap, Hc. cbn. eauto.
  - intros c ctx. rewrite lookup_fmap.
    destruct (contexts w !! c) as [ctx0|] eqn:Hc; cbn; [|discriminate].
    intros [= <-]. destruct Hwf as (_ & _ & _ & H4).
    specialize (H4 c ctx0 Hc).
    destruct (isRunning (state ctx0)); cbn; [|exact H4].
    replace 0%Q with (0 + 0)%Q by reflexivity.
    apply Qplus_le_compat; assumption.
Qed.

Lemma Ready_push_oscillator c g l w :
  Ready c g w ->
  Ready c g (with_engine (set_activeOscillators l (engine w)) w).
Proof.
  intros [[Hwf Hc] Hg]. pose proof Hwf as (H1 & H2 & H3 & H4).
  repeat split; cbn; auto.
Qed.

Lemma Ready_push_gain c g w :
  Ready c g w ->
  Ready c g
    (with_engine
       (set_activeGainNodes (activeGainNodes (engine w) ++ [g]) (engine w)) w).
Proof.
  intros [[Hwf Hc] Hg]. pose proof Hwf as (H1 & H2 & H3 & H4).
  split; [split|]; [|exact Hc|exact Hg].
  apply wellFormed_with_engine; [exact Hwf| | |exact H3].
  - cbn. intros k Hk. apply elem_of_app in Hk as [Hk|Hk]; [left; exact Hk|].
    right. apply list_elem_of_singleton in Hk as ->. exact Hg.
  - cbn. intros _. rewrite Hc. eauto.
Qed.

Ltac solve_local :=
  unfold setType, setFrequencyValue, setOnended, start, stop, setValueAtTime,
    linearRampToValueAtTime, cancelScheduledValues;
  solve [auto with local].

(** One call that is local to the nodes, under [Held] or [Ready]. *)
Ltac local_step H :=
  apply runs_bind, runs_nodeLocal; [solve_local|];
  let Hg := fresh "Hg" in
  intros [?|?] ? Hg;
  [ first [ exact (proj1 (proj1 (grows_Ready _ _ _ _ Hg H)))
          | exact (proj1 (grows_Held _ _ _ Hg H)) ]
  | first [ apply (grows_Ready _ _ _ _ Hg) in H
          | apply (grows_Held _ _ _ Hg) in H ];
    clear Hg ].

(** One assignment to a field of the engine, under [Ready]. *)
Ltac engine_step H lemma :=
  apply runs_bind; unfold modifyEngine at 1; apply runs_modify; cbv beta;
  match goal with
  | |- runs _ ?W _ =>
      let H2 := fresh in
      assert (H2 : Ready _ _ W) by (apply lemma; exact H);
      clear H; rename H2 into H
  end.

Lemma playToneBody_wellFormed options w :
  wellFormed w -> wellFormed (playToneBody options w).2.
Proof.
  intros Hwf.
  change (runs (playToneBody options) w (fun _ w' => wellFormed w')).
  unfold playToneBody. apply runs_bind, runs_get.
  destruct (audioContext (engine w)) as [c|] eqn:Hc;
    [|apply runs_throw; exact Hwf].
  destruct (masterGain (engine w)) as [master|];
    [|apply runs_throw; exact Hwf].
  cbv zeta.
  assert (H : Held c w) by (split; assumption). clear Hwf Hc.
  local_step H. local_step H. local_step H.
  (* the envelope gain *)
  apply runs_bind, runs_createGain. intros envelopeGain wE Hg Hnew.
  apply (grows_Held _ _ _ Hg) in H. clear Hg.
  assert (H' : Ready c envelopeGain wE) by (split; assumption).
  clear H Hnew.
  do 9 local_step H'.
  engine_step H' Ready_push_oscillator.
  engine_step H' Ready_push_gain.
  do 8 local_step H'.
  apply runs_ret. apply H'.
Qed.

Ltac fold_keeps :=
  lazymatch goal with
  | |- forall w, wellFormed w -> wellFormed (?m w).2 => change (keeps m)
  end.

Lemma keeps_bind {A B} (m : Eff A) (k : A -> Eff B) :
  keeps m -> (forall a, keeps (k a)) -> keeps (m ≫= k).
Proof.
  intros Hm Hk w Hwf. rewrite bind_run. specialize (Hm w Hwf).
  destruct (m w) as [[e|a] w']; [exact Hm | apply Hk, Hm].
Qed.

Lemma keeps_get {B} (k : World -> Eff B) :
  (forall w, wellFormed w -> wellFormed (k w w).2) -> keeps (get ≫= k).
Proof. intros Hk w Hwf. rewrite bind_run. apply Hk, Hwf. Qed.

Lemma keeps_ret {A} (a : A) : keeps (ret a).
Proof. intros w Hwf. exact Hwf. Qed.

Lemma keeps_throw {A} e : keeps (@throw A e).
Proof. intros w Hwf. exact Hwf. Qed.

Lemma keeps_nodeLocal {A} (m : Eff A) : nodeLocal m -> keeps m.
Proof. intros Hm w Hwf. eapply grows_wellFormed; [apply Hm | exact Hwf]. Qed.

Lemma keeps_tryCatch (m : Eff unit) : keeps m -> keeps (tryCatch m).
Proof.
  intros Hm w Hwf. specialize (Hm w Hwf). unfold tryCatch.
  destruct (m w) as [[e|[]] w']; exact Hm.
Qed.

(** An assignment to a field other than the context and the list of
    envelope gains. *)
Lemma keeps_modifyEngine f :
  (forall e, audioContext (f e) = audioContext e
             /\ activeGainNodes (f e) = activeGainNodes e) ->
  keeps (modifyEngine f).
Proof.
  intros Hf w Hwf. cbv [modifyEngine modify snd].
  destruct (Hf (engine w)) as [Hc Hl]. pose proof Hwf as (H1 & H2 & H3 & H4).
  apply wellFormed_with_engine; rewrite ?Hc, ?Hl; auto.
Qed.

Lemma keeps_resume c : keeps (resume c).
Proof.
  intros w Hwf. unfold resume.
  destruct (contexts w !! c) as [ctx|] eqn:Hctx; [|exact Hwf].
  destruct (isClosed (state ctx)); [exact Hwf|].
  destruct (resumeSucceeds (platform w)); [|exact Hwf].
  apply wellFormed_insert_context; [exact Hwf|].
  destruct Hwf as (_ & _ & _ & H4). exact (H4 c ctx Hctx).
Qed.

Lemma keeps_close c : keeps (close c).
Proof.
  intros w Hwf. unfold close.
  destruct (contexts w !! c) as [ctx|] eqn:Hctx; [|exact Hwf].
  destruct (isClosed (state ctx)); [exact Hwf|].
  apply wellFormed_insert_context; [exact Hwf|].
  destruct Hwf as (_ & _ & _ & H4). exact (H4 c ctx Hctx).
Qed.

Lemma wellFormed_nextRef n w : wellFormed w -> wellFormed (with_nextRef n w).
Proof. unfold wellFormed. cbn. auto. Qed.

(** [this.audioContext = new AudioContext()] *)
Lemma keeps_new_context :
  keeps (c ← newAudioContext; modifyEngine (set_audioContext (Some c))).
Proof.
  intros w Hwf.
  cbv [newAudioContext mbind Eff_bind bind get fresh modify modifyEngine
       ret throw snd].
  destruct (contextAvailable (platform w)); [|exact Hwf]. cbn.
  apply wellFormed_with_engine; cbn.
  - apply (wellFormed_insert_context (with_nextRef _ w));
      [apply wellFormed_nextRef, Hwf | apply Qle_refl].
  - auto.
  - eauto.
  - intros c [= <-]. rewrite lookup_insert_eq. eauto.
Qed.

Lemma initializeStart_wellFormed : keeps initializeStart.
Proof.
  unfold initializeStart. apply keeps_bind.
  - apply keeps_get. intros w Hwf.
    destruct (audioContext (engine w));
      [exact Hwf | apply keeps_new_context, Hwf].
  - intros _. apply keeps_get. intros w Hwf.
    destruct (audioContext (engine w)) as [c|]; [|exact Hwf].
    destruct (audioContext_state w) as [s|]; [|exact Hwf].
    destruct (isSuspended s); [apply keeps_resume, Hwf | exact Hwf].
Qed.

Lemma initializeFinish_wellFormed : keeps initializeFinish.
Proof.
  unfold initializeFinish. apply keeps_bind.
  - apply keeps_get. intros w Hwf.
    destruct (masterGain (engine w)); [exact Hwf|].
    destruct (audioContext (engine w)) as [c|]; [|exact Hwf].
    revert w Hwf. fold_keeps.
    apply keeps_bind; [apply keeps_nodeLocal; auto with local|]. intros master.
    apply keeps_bind; [apply keeps_modifyEngine; intros e; split; reflexivity|].
    intros _.
    apply keeps_bind; [apply keeps_nodeLocal; auto with local|]. intros _.
    apply keeps_nodeLocal; auto with local.
  - intros _. apply keeps_modifyEngine. intros e; split; reflexivity.
Qed.

Lemma initialize_wellFormed : keeps initialize.
Proof.
  unfold initialize. apply keeps_get. intros w Hwf.
  destruct (_ && _); [exact Hwf|].
  revert w Hwf. fold_keeps.
  apply keeps_bind; [apply initializeStart_wellFormed|].
  intros _. apply initializeFinish_wellFormed.
Qed.

Lemma playTone_wellFormed options : keeps (playTone options).
Proof.
  unfold playTone. apply keeps_get. intros w Hwf.
  destruct (_ || _); revert w Hwf; fold_keeps.
  - apply keeps_bind; [apply initialize_wellFormed|].
    intros _ w. apply playToneBody_wellFormed.
  - apply keeps_bind; [apply keeps_ret|].
    intros _ w. apply playToneBody_wellFormed.
Qed.

Lemma Quiet_with_engine w e' :
  Quiet w -> activeGainNodes e' = [] ->
  (forall c, audioContext e' = Some c -> audioContext (engine w) = Some c) ->
  Quiet (with_engine e' w).
Proof.
  intros [Hwf Hnil] Hnil' Hc. pose proof Hwf as (H1 & H2 & H3 & H4).
  split; [|exact Hnil'].
  apply wellFormed_with_engine; [exact Hwf| | |].
  - rewrite Hnil'. intros g Hg. inversion Hg.
  - rewrite Hnil'. congruence.
  - intros c Hc'. apply H3, Hc, Hc'.
Qed.

Lemma dispose_wellFormed : keeps dispose.
Proof.
  intros w Hwf. unfold dispose. rewrite bind_run.
  pose proof (stopAll_wellFormed w Hwf) as HQ. fold (Quiet (stopAll w).2) in HQ.
  rewrite stopAll_run in *. cbn [snd] in HQ.
  set (w1 := with_engine _ _) in *. clearbody w1. clear Hwf w.
  rewrite bind_run.
  assert (Hclose : forall c, Quiet ((tryCatch (close c)) w1).2).
  { intros c. split.
    - apply keeps_tryCatch; [apply keeps_close | apply HQ].
    - destruct HQ as [_ Hnil]. unfold tryCatch, close.
      destruct (contexts w1 !! c) as [ctx|]; [|exact Hnil].
      destruct (isClosed (state ctx)); exact Hnil. }
  assert (Hmid : exists w2,
            (w ← get;
             match audioContext (engine w) with
             | Some c =>
                 tryCatch (close c);; modifyEngine (set_audioContext None)
             | None => ret tt
             end) w1 = (inr tt, w2) /\ Quiet w2).
  { rewrite bind_run. cbn [get].
    destruct (audioContext (engine w1)) as [c|]; [|eauto].
    rewrite bind_run. specialize (Hclose c).
    destruct (tryCatch (close c) w1) as [[e|[]] w2] eqn:Htc.
    - unfold tryCatch in Htc. destruct (close c w1) as [[?|[]] ?]; discriminate.
    - eexists. split; [reflexivity|].
      apply Quiet_with_engine; [exact Hclose | apply Hclose | discriminate]. }
  destruct Hmid as (w2 & -> & HQ2).
  cbv [mbind Eff_bind bind modifyEngine modify snd].
  eapply proj1. apply Quiet_with_engine; [|apply HQ2|cbn; auto].
  apply Quiet_with_engine; [exact HQ2 | apply HQ2 | cbn; auto].
Qed.

(** Every state the engine reaches is well formed. *)
Lemma reachable_wellFormed w : reachable w -> wellFormed w.
Proof.
  induction 1 as [p | w w' _ IH Hstep].
  - unfold wellFormed. cbn. split; [intros g Hg; inversion Hg|].
    split; [congruence|]. split; [discriminate|].
    intros c ctx Hc. rewrite lookup_empty in Hc. discriminate.
  - destruct Hstep.
    + apply initialize_wellFormed, IH.
    + apply initializeStart_wellFormed, IH.
    + apply initializeFinish_wellFormed, IH.
    + apply playTone_wellFormed, IH.
    + apply playToneBody_wellFormed, IH.
    + apply stopAll_wellFormed, IH.
    + apply dispose_wellFormed, IH.
    + apply onendedHandler_wellFormed, IH.
    + apply elapse_wellFormed; assumption.
Qed.

(** What [stopAll] does to a listed envelope gain, when the engine holds a
    context whose clock is not negative. *)
Lemma stopAll_silences (w : World) g node c ctx :
  g ∈ activeGainNodes (engine w) ->
  gainNodes w !! g = Some node ->
  audioContext (engine w) = Some c -> contexts w !! c = Some ctx ->
  (0 <= currentTime ctx)%Q ->
  gainNodes (stopAll w).2 !! g = Some (silence (currentTime ctx) node).
Proof.
  intros Hin Hnode Hc Hctx Hpos. rewrite stopAll_run.
  cbn [snd gainNodes with_engine with_gainNodes].
  rewrite (foldl_alter_lookup _ _ (silenceAt_idempotent (engineTime w))).
  destruct (decide (g ∈ activeGainNodes (engine w))) as [_|Hout];
    [|contradiction].
  rewrite Hnode. cbn [fmap option_fmap option_map].
  unfold engineTime. rewrite Hc. cbn. rewrite Hctx. cbn.
  apply Qle_bool_iff in Hpos. rewrite Hpos. reflexivity.
Qed.

(** What it does to a listed oscillator. *)
Lemma stopAll_stops (w : World) o node :
  o ∈ activeOscillators (engine w) ->
  oscillators w !! o = Some node ->
  oscillators (stopAll w).2 !! o
  = Some (tryStop (platform w) (contexts w) node).
Proof.
  intros Hin Hnode. rewrite stopAll_run.
  cbn [snd oscillators with_engine with_gainNodes with_oscillators].
  rewrite (foldl_alter_lookup _ _
             (tryStop_idempotent (platform w) (contexts w))).
  destruct (decide (o ∈ activeOscillators (engine w))) as [_|Hout];
    [|contradiction].
  rewrite Hnode. reflexivity.
Qed.

(** C8. [stopAll] returns normally from every state of the engine and the
    store, in every browser (also where [stop()] throws, on a node that is
    finished or was never started, and where no context is held), and leaves
    both active lists empty.  With no active tone it changes nothing.  In
    every state the engine can reach, each listed envelope gain has its
    schedule cut at the current time and closed by a zero, so that its value
    is 0 from then on; and each listed oscillator that was started has
    stopped by the current time, where the browser accepts the repeated
    [stop()]. *)
Theorem stopAll_never_throws_and_silences (w : World) :
  (stopAll w).1 = inr tt
  /\ activeOscillators (engine (stopAll w).2) = []
  /\ activeGainNodes (engine (stopAll w).2) = []
  /\ (activeOscillators (engine w) = [] -> activeGainNodes (engine w) = [] ->
      (stopAll w).2 = w)
  /\ (reachable w ->
      forall g, g ∈ activeGainNodes (engine w) ->
      exists now node node',
        engineTime w = Some now
        /\ gainNodes w !! g = Some node
        /\ gainNodes (stopAll w).2 !! g = Some node'
        /\ events (gain node')
           = cancelFrom now (events (gain node)) ++ [SetValue 0 now]
        /\ forall t, (now <= t)%Q -> valueAt (gain node') t = 0%R)
  /\ (reachable w -> stopTwiceThrows (platform w) = false ->
      forall o node ctx,
        o ∈ activeOscillators (engine w) ->
        oscillators w !! o = Some node ->
        contexts w !! osc_context node = Some ctx ->
        is_Some (startTime node) ->
        exists node' t,
          oscillators (stopAll w).2 !! o = Some node'
          /\ stopTime node' = Some t /\ (t <= currentTime ctx)%Q).
Proof.
  split; [rewrite stopAll_run; reflexivity|].
  split; [rewrite stopAll_run; reflexivity|].
  split; [rewrite stopAll_run; reflexivity|].
  split; [|split].
  - intros Hosc Hgain. rewrite stopAll_run, Hosc, Hgain. cbn [foldl snd].
    destruct w as [p n cs os gs ps es e]; cbn in *.
    destruct e as [ac ao ag mg ii]; cbn in *. subst. reflexivity.
  - intros Hreach g Hin.
    pose proof (reachable_wellFormed w Hreach) as (H1 & H2 & H3 & H4).
    destruct (H1 g Hin) as [node Hnode].
    destruct H2 as [c Hc]; [intros Hnil; rewrite Hnil in Hin; inversion Hin|].
    destruct (H3 c Hc) as [ctx Hctx].
    pose proof (H4 c ctx Hctx) as Hpos.
    exists (currentTime ctx), node, (silence (currentTime ctx) node).
    split; [unfold engineTime; rewrite Hc; cbn; rewrite Hctx; reflexivity|].
    split; [exact Hnode|].
    split; [eapply stopAll_silences; eassumption|].
    split; [apply silence_events|].
    intros t Ht. apply silence_silent, Ht.
  - intros Hreach Hmodern o node ctx Hin Hnode Hctx Hstarted.
    pose proof (reachable_wellFormed w Hreach) as (_ & _ & _ & H4).
    destruct (tryStop_stopped (platform w) (contexts w) node ctx
                Hmodern Hctx Hstarted (H4 _ _ Hctx)) as (t & Ht & Hle).
    exists (tryStop (platform w) (contexts w) node), t.
    split; [apply stopAll_stops; assumption|]. split; assumption.
Qed.

Lemma twoTones_reachable : reachable twoTones.
Proof.
  unfold twoTones, oneTone.
  eapply reachable_step; [|apply step_elapse; discriminate].
  eapply reachable_step; [|apply step_playTone].
  eapply reachable_step; [|apply step_elapse; discriminate].
  eapply reachable_step; [|apply step_playTone].
  apply reachable_start.
Qed.

Lemma stopAll_never_throws_and_silences_witness :
  activeOscillators (engine twoTones) = [2; 6]%nat
  /\ activeGainNodes (engine twoTones) = [3; 7]%nat
  /\ (stopAll twoTones).1 = inr tt
  /\ (exists node',
        gainNodes (stopAll twoTones).2 !! 7%nat = Some node'
        /\ forall t, (6 # 8 <= t)%Q -> valueAt (gain node') t = 0%R)
  /\ (exists node' t,
        oscillators (stopAll twoTones).2 !! 2%nat = Some node'
        /\ stopTime node' = Some t /\ (t <= 6 # 8)%Q)
  /\ activeOscillators (engine finishedTone) = [2]%nat
  /\ (stop 2%nat 0 finishedTone).1 = inl InvalidStateError
  /\ (stopAll finishedTone).1 = inr tt
  /\ activeOscillators (engine (stopAll finishedTone).2) = [].
Proof.
  destruct (stopAll_never_throws_and_silences twoTones)
    as (Hok & _ & _ & _ & Hgain & Hosc).
  destruct (stopAll_never_throws_and_silences finishedTone)
    as (Hok' & Hnone & _).
  split; [vm_compute; reflexivity|]. split; [vm_compute; reflexivity|].
  split; [exact Hok|].
  split; [|split; [|split; [vm_compute; reflexivity|];
                    split; [vm_compute; reflexivity|];
                    split; [exact Hok' | exact Hnone]]].
  - destruct (Hgain twoTones_reachable 7%nat)
      as (now & node & node' & Hnow & _ & Hnode' & _ & Hsilent).
    { apply list_elem_of_In. vm_compute. auto. }
    exists node'. split; [exact Hnode'|].
    assert (Hnow' : engineTime twoTones = Some (6 # 8))
      by (vm_compute; reflexivity).
    rewrite Hnow' in Hnow. injection Hnow as <-. exact Hsilent.
  - edestruct (Hosc twoTones_reachable eq_refl 2%nat)
      as (node' & t & Hnode' & Hstop & Hle).
    + apply list_elem_of_In. vm_compute. auto.
    + vm_compute. reflexivity.
    + vm_compute. reflexivity.
    + vm_compute. eexists. reflexivity.
    + exists node', t. split; [exact Hnode'|]. split; [exact Hstop | exact Hle].
Defined.


(** *** The level gain of a tone *)

Lemma runs_anyhow {A} (m : Eff A) w (Q : Exception + A -> World -> Prop) :
  (forall r w', Q r w') -> runs m w Q.
Proof. intros HQ. apply HQ. Qed.

Lemma runs_keepsRefs {A} (m : Eff A) w (Q : Exception + A -> World -> Prop) :
  keepsRefs m ->
  (forall r w', (nextRef w <= nextRef w')%nat -> Q r w') -> runs m w Q.
Proof. intros Hm HQ. apply HQ, Hm. Qed.

Lemma runs_keepsGain {A} l (m : Eff A) w
    (Q : Exception + A -> World -> Prop) :
  keepsGain l m ->
  (forall r w', gainNodes w' !! l = gainNodes w !! l -> Q r w') ->
  runs m w Q.
Proof. intros Hm HQ. apply HQ, Hm. Qed.

(** [createGain] returns the next address, with a node of gain 1 there. *)
Lemma runs_createGain_fresh c w (Q : Exception + ref -> World -> Prop) :
  (forall w', nextRef w' = S (nextRef w) ->
              gainNodes w' !! nextRef w
              = Some {| gain_context := c; gain := newParam 1 |} ->
              Q (inr (nextRef w)) w') ->
  runs (createGain c) w Q.
Proof.
  intros HQ. unfold runs.
  cbv [createGain mbind Eff_bind bind fresh modify ret fst snd].
  apply HQ; cbn; [reflexivity | apply lookup_insert_eq].
Qed.

Lemma runs_setGainValue g v node w (Q : Exception + unit -> World -> Prop) :
  gainNodes w !! g = Some node ->
  (forall w', gainNodes w' !! g = Some (update_gain (param_setValue v) node) ->
              Q (inr tt) w') ->
  runs (setGainValue g v) w Q.
Proof.
  intros Hnode HQ. unfold runs, setGainValue. rewrite Hnode. cbn.
  apply HQ. cbn. apply lookup_insert_eq.
Qed.

Lemma keepsRefs_setGainValue g v : keepsRefs (setGainValue g v).
Proof.
  intros w. unfold setGainValue. destruct (gainNodes w !! g); cbn; lia.
Qed.

Lemma keepsRefs_setPanValue p v : keepsRefs (setPanValue p v).
Proof.
  intros w. unfold setPanValue. destruct (panners w !! p); cbn; lia.
Qed.

Lemma keepsRefs_createStereoPanner c : keepsRefs (createStereoPanner c).
Proof.
  intros w. cbv [createStereoPanner mbind Eff_bind bind fresh modify ret snd].
  cbn. lia.
Qed.

Lemma keepsGain_connect l source target : keepsGain l (connect source target).
Proof. intros w. reflexivity. Qed.

Lemma keepsGain_modifyEngine l f : keepsGain l (modifyEngine f).
Proof. intros w. reflexivity. Qed.

Lemma keepsGain_currentTime l : keepsGain l audioContext_currentTime.
Proof.
  intros w. unfold audioContext_currentTime.
  destruct (audioContext (engine w)) as [c|]; [|reflexivity].
  destruct (contexts w !! c); reflexivity.
Qed.

Lemma keepsGain_onOscillator l o f : keepsGain l (onOscillator o f).
Proof.
  intros w. unfold onOscillator.
  destruct (oscillators w !! o) as [node|]; [|reflexivity].
  destruct (contexts w !! osc_context node); [|reflexivity].
  destruct (f _ _ node); reflexivity.
Qed.

Lemma keepsGain_updateOscillator l o f : keepsGain l (updateOscillator o f).
Proof.
  intros w. unfold updateOscillator.
  destruct (oscillators w !! o); reflexivity.
Qed.

Lemma keepsGain_onGainParam l g t f : g <> l -> keepsGain l (onGainParam g t f).
Proof.
  intros Hne w. unfold onGainParam.
  destruct (gainNodes w !! g); [|reflexivity].
  destruct (Qle_bool 0 t); [|reflexivity].
  cbn. apply lookup_insert_ne, Hne.
Qed.

(** A later call that leaves the level gain alone. *)
Ltac gain_step l H :=
  apply runs_bind, (runs_keepsGain l);
  [ unfold setOnended, start, stop, setValueAtTime, linearRampToValueAtTime;
    first [ apply keepsGain_connect | apply keepsGain_modifyEngine
          | apply keepsGain_currentTime | apply keepsGain_onOscillator
          | apply keepsGain_updateOscillator
          | apply keepsGain_onGainParam; assumption ] |];
  let Hk := fresh "Hk" in
  intros [?|?] ? Hk; [intros; discriminate|];
  rewrite <- Hk in H; clear Hk.

(** The level gain node of a tone holds the linear gain of the level asked
    for, and nothing is scheduled on it. *)
Lemma playToneBody_levelGain options w :
  runs (playToneBody options) w (fun r w' =>
    forall oscillator envelopeGain levelGain panNode,
      r = inr (oscillator, envelopeGain, levelGain, panNode) ->
      gainNodes w' !! levelGain
      = Some {| gain_context := default 0%nat (audioContext (engine w));
                gain := {| value := linearGain (level options);
                           events := [] |} |}).
Proof.
  unfold playToneBody. apply runs_bind, runs_get.
  destruct (audioContext (engine w)) as [c|];
    [|apply runs_throw; intros; discriminate].
  destruct (masterGain (engine w)) as [master|];
    [|apply runs_throw; intros; discriminate].
  cbv zeta. cbn [default from_option].
  apply runs_bind, runs_anyhow. intros [?|oscillator] w1; [intros; discriminate|].
  apply runs_bind, runs_anyhow. intros [?|?] w2; [intros; discriminate|].
  apply runs_bind, runs_anyhow. intros [?|?] w3; [intros; discriminate|].
  apply runs_bind, runs_createGain_fresh. intros w4 Hnext _.
  set (envelopeGain := nextRef w3) in *.
  apply runs_bind, runs_keepsRefs; [apply keepsRefs_setGainValue|].
  intros [?|?] w5 H5; [intros; discriminate|].
  apply runs_bind, runs_keepsRefs; [apply keepsRefs_createStereoPanner|].
  intros [?|panNode] w6 H6; [intros; discriminate|].
  apply runs_bind, runs_keepsRefs; [apply keepsRefs_setPanValue|].
  intros [?|?] w7 H7; [intros; discriminate|].
  apply runs_bind, runs_createGain_fresh. intros w8 _ Hlevel.
  assert (Hne : envelopeGain <> nextRef w7) by lia.
  set (levelGain := nextRef w7) in *.
  clear Hnext H5 H6 H7.
  apply runs_bind, (runs_setGainValue _ _ _ _ _ Hlevel). intros w9 H.
  clear Hlevel.
  do 14 gain_step levelGain H.
  apply runs_ret. intros ? ? ? ? [= <- <- <- <-]. exact H.
Qed.

(** C7. The engine turns a level in dB into the linear gain
    [0.3 * 10^(level/20)] (here over the real numbers) and sets the level
    gain of the tone to it: 0 dB gives 0.3, -20 dB gives 0.03 and -60 dB
    gives 0.0003. *)
Theorem linearGain_formula :
  (forall level : R, linearGain level = (0.3 * Rpower 10 (level / 20))%R)
  /\ (forall options w oscillator envelopeGain levelGain panNode w',
        playToneBody options w
        = (inr (oscillator, envelopeGain, levelGain, panNode), w') ->
        exists node,
          gainNodes w' !! levelGain = Some node
          /\ value (gain node)
             = (0.3 * Rpower 10 (level options / 20))%R)
  /\ linearGain 0 = 0.3%R
  /\ linearGain (-20) = 0.03%R
  /\ linearGain (-60) = 0.0003%R.
Proof.
  split; [reflexivity|]. split.
  { intros options w oscillator envelopeGain levelGain panNode w' Hrun.
    pose proof (playToneBody_levelGain options w) as H. unfold runs in H.
    rewrite Hrun in H. eexists.
    split; [exact (H _ _ _ _ eq_refl) | reflexivity]. }
  unfold linearGain, referenceGain.
  split; [|split].
  - replace (0 / 20)%R with 0%R by lra. rewrite Rpower_O by lra. lra.
  - replace (-20 / 20)%R with (-1)%R by lra. rewrite Rpower_10_neg1. lra.
  - replace (-60 / 20)%R with (-3)%R by lra. rewrite Rpower_10_neg3. lra.
Qed.

Lemma linearGain_formula_witness :
  exists w' node,
    playToneBody (tone left (-20)) readyEngine
    = (inr (2, 3, 5, 4)%nat, w')
    /\ gainNodes w' !! 5%nat = Some node
    /\ value (gain node) = 0.03%R.
Proof.
  destruct linearGain_formula as (_ & Hplay & _ & Hminus20 & _).
  assert (Hresult : (playToneBody (tone left (-20)) readyEngine).1
                    = inr (2, 3, 5, 4)%nat) by (vm_compute; reflexivity).
  destruct (playToneBody (tone left (-20)) readyEngine) as [r w'] eqn:Hrun.
  cbn [fst] in Hresult. subst r.
  destruct (Hplay _ _ _ _ _ _ _ Hrun) as (node & Hnode & Hvalue).
  exists w', node. split; [reflexivity|]. split; [exact Hnode|].
  rewrite Hvalue. exact Hminus20.
Defined.

End AudioEngineFacts.

(** ** Further properties of the staircase controller *)

Module StaircaseExtra.
Import Staircase StaircaseFacts.
Local Open Scope Z_scope.

(** X1. From a level within the bounds, [heard] never raises the level and
    lowers it by at most [stepSizeDown]; [notHeard] never lowers it and
    raises it by at most [stepSizeUp]. *)
Theorem level_moves_by_at_most_one_step (state : StaircaseState)
    (config : StaircaseConfig) (response : Response) :
  0 <= stepSizeDown config -> 0 <= stepSizeUp config ->
  inBounds config state ->
  match response with
  | heard =>
      currentLevel state - stepSizeDown config
        <= currentLevel (advance config state response)
        <= currentLevel state
  | notHeard =>
      currentLevel state
        <= currentLevel (advance config state response)
        <= currentLevel state + stepSizeUp config
  end.
Proof.
  unfold inBounds. intros Hd Hu Hb. step_cases; lia.
Qed.

Lemma level_moves_by_at_most_one_step_witness :
  let state := runFrom DEFAULT_CONFIG (createStaircase noOverrides).1
                 (repeat notHeard 6) in
  currentLevel state = -2
  /\ -2 <= currentLevel (advance DEFAULT_CONFIG state notHeard) <= -2 + 3
  /\ currentLevel (advance DEFAULT_CONFIG state notHeard) = 0.
Proof.
  cbv zeta. split; [reflexivity|]. split; [|reflexivity].
  apply (level_moves_by_at_most_one_step
           (runFrom DEFAULT_CONFIG (createStaircase noOverrides).1
              (repeat notHeard 6)) DEFAULT_CONFIG notHeard).
  - cbn. lia.
  - cbn. lia.
  - unfold inBounds. vm_compute. split; discriminate.
Defined.

Lemma reversals_step_bounds state config response :
  reversals state <= reversals (advance config state response)
                  <= reversals state + 1.
Proof.
  rewrite reversals_step.
  destruct (reversalCounted state (advance config state response)); lia.
Qed.

Lemma first_call_counts_nothing state config response :
  lastResponse state = None ->
  reversals (advance config state response) = reversals state.
Proof.
  intros Hlr. rewrite reversals_step. unfold reversalCounted. rewrite Hlr.
  rewrite andb_false_r. lia.
Qed.

Lemma reversals_runFrom_bounds config responses : forall state,
  reversals state
    <= reversals (runFrom config state responses)
    <= reversals state + Z.of_nat (length responses).
Proof.
  induction responses as [|r rs IH]; intros state; [cbn; lia|].
  change (runFrom config state (r :: rs))
    with (runFrom config (advance config state r) rs).
  pose proof (IH (advance config state r)).
  pose proof (reversals_step_bounds state config r).
  cbn [length]. lia.
Qed.

Lemma reversals_run_bounds (overrides : PartialConfig)
    (responses : list Response) :
  0 <= reversals (runFrom (createStaircase overrides).2
                    (createStaircase overrides).1 responses)
    <= Z.max 0 (Z.of_nat (length responses) - 1).
Proof.
  destruct responses as [|r rs]; [cbn; lia|].
  change (runFrom ?c ?s (r :: rs)) with (runFrom c (advance c s r) rs).
  pose proof (reversals_runFrom_bounds (createStaircase overrides).2 rs
                (advance (createStaircase overrides).2
                   (createStaircase overrides).1 r)) as Hrun.
  rewrite (first_call_counts_nothing (createStaircase overrides).1) in Hrun
    by reflexivity.
  change (reversals (createStaircase overrides).1) with 0 in Hrun.
  cbn [length]. lia.
Qed.

(** X2. The reversal count never decreases and grows by at most one per
    call; as the first call of a run counts none, after n calls of a run
    from [createStaircase] it lies between 0 and n - 1. *)
Theorem reversals_bounded_by_calls (overrides : PartialConfig)
    (responses : list Response) :
  (forall state config response,
     reversals state <= reversals (advance config state response)
                     <= reversals state + 1)
  /\ 0 <= reversals (runFrom (createStaircase overrides).2
                       (createStaircase overrides).1 responses)
       <= Z.max 0 (Z.of_nat (length responses) - 1).
Proof.
  split; [exact reversals_step_bounds | apply reversals_run_bounds].
Qed.

Lemma stop_means_exhausted state config response :
  shouldContinue (processResponse state config response) = false ->
  exhausted config (advance config state response).
Proof.
  unfold exhausted. step_cases; intros; solve [discriminate | lia].
Qed.

Lemma exhausted_stops state config response :
  exhausted config state ->
  shouldContinue (processResponse state config response) = false.
Proof.
  unfold exhausted. intros Hex.
  pose proof (reversals_step_bounds state config response) as Hrev.
  revert Hex Hrev. step_cases; intros; solve [reflexivity | lia].
Qed.

Lemma exhausted_advance state config response :
  exhausted config state -> exhausted config (advance config state response).
Proof.
  intros Hex. apply stop_means_exhausted, exhausted_stops, Hex.
Qed.

Lemma exhausted_runFrom config responses : forall state,
  exhausted config state -> exhausted config (runFrom config state responses).
Proof.
  induction responses as [|r rs IH]; intros state Hex; [exact Hex|].
  apply IH, exhausted_advance, Hex.
Qed.

(** X3. Stopping is final: once a call has returned
    [shouldContinue = false], every later call on the states handed on
    returns it too, whatever the responses (the controller never resets
    itself). *)
Theorem stop_is_final (config : StaircaseConfig) (state : StaircaseState)
    (responses : list Response) (i j : nat) (ri rj : ProcessResult) :
  results config state responses !! i = Some ri ->
  results config state responses !! j = Some rj ->
  (i <= j)%nat ->
  shouldContinue ri = false ->
  shouldContinue rj = false.
Proof.
  intros Hi Hj Hle Hstop.
  destruct (decide (i = j)) as [->|Hne]; [congruence|].
  apply results_lookup in Hi as (qi & Hqi & ->).
  apply results_lookup in Hj as (qj & Hqj & ->).
  apply stop_means_exhausted in Hstop.
  apply exhausted_stops.
  assert (Hsplit : take j responses
                   = take i responses ++ qi :: take (j - S i) (drop (S i) responses)).
  { rewrite <- (take_drop (S i) responses) at 1.
    rewrite take_app_ge by (rewrite length_take; lia).
    rewrite length_take.
    pose proof (lookup_lt_Some _ _ _ Hqi) as Hlen.
    rewrite Nat.min_l by lia.
    rewrite (take_S_r _ _ _ Hqi), <- app_assoc. reflexivity. }
  rewrite Hsplit. unfold runFrom. rewrite fold_left_app. cbn [fold_left].
  apply (exhausted_runFrom config), Hstop.
Qed.

Lemma stop_is_final_witness :
  shouldContinue
    (processResponse
       (runFrom DEFAULT_CONFIG (createStaircase noOverrides).1
          [heard; notHeard; heard; notHeard; heard; heard])
       DEFAULT_CONFIG notHeard) = false.
Proof.
  eapply (stop_is_final DEFAULT_CONFIG (createStaircase noOverrides).1
            [heard; notHeard; heard; notHeard; heard; heard; notHeard]
            4 6
            (processResponse
               (runFrom DEFAULT_CONFIG (createStaircase noOverrides).1
                  [heard; notHeard; heard; notHeard])
               DEFAULT_CONFIG heard));
    [vm_compute; reflexivity | vm_compute; reflexivity | lia
    | vm_compute; reflexivity].
Defined.

(** X4. A run cannot stop early: when the call number k + 1 of a run from
    [createStaircase] returns [shouldContinue = false], either the attempt
    limit is reached (maxAttempts <= k + 1) or at least [maxReversals] calls
    came before it (maxReversals <= k).  With the defaults no run stops
    before its fifth response. *)
Theorem no_stop_before (overrides : PartialConfig)
    (responses : list Response) (k : nat) (res : ProcessResult) :
  results (createStaircase overrides).2 (createStaircase overrides).1
    responses !! k = Some res ->
  shouldContinue res = false ->
  maxAttempts (createStaircase overrides).2 <= Z.of_nat (S k)
  \/ maxReversals (createStaircase overrides).2 <= Z.of_nat k.
Proof.
  intros Hk Hstop.
  pose proof (lookup_lt_Some _ _ _ Hk) as Hlt. rewrite results_length in Hlt.
  apply results_lookup in Hk as (q & Hq & ->).
  apply stop_means_exhausted in Hstop.
  rewrite <- runFrom_snoc in Hstop.
  pose proof (reversals_run_bounds overrides (take k responses ++ [q])) as Hrev.
  pose proof (attempts_runFrom (createStaircase overrides).2
                (take k responses ++ [q]) (createStaircase overrides).1) as Hatt.
  change (attempts (createStaircase overrides).1) with 0 in Hatt.
  rewrite length_app, length_take, Nat.min_l in Hrev, Hatt by lia.
  cbn [length] in Hrev, Hatt.
  destruct Hstop as [Hmax|Hmax]; [left | right]; lia.
Qed.

Lemma no_stop_before_witness :
  maxAttempts DEFAULT_CONFIG <= Z.of_nat 5
  \/ maxReversals DEFAULT_CONFIG <= Z.of_nat 4.
Proof.
  apply (no_stop_before noOverrides
           [heard; notHeard; heard; notHeard; heard] 4
           (processResponse
              (runFrom DEFAULT_CONFIG (createStaircase noOverrides).1
                 [heard; notHeard; heard; notHeard])
              DEFAULT_CONFIG heard));
    vm_compute; reflexivity.
Defined.

Lemma stop_sets_threshold state config response :
  shouldContinue (processResponse state config response) = false ->
  resultThreshold (processResponse state config response)
  = Some (currentLevel (advance config state response))
  /\ threshold (advance config state response)
     = Some (currentLevel (advance config state response)).
Proof. step_cases; intros; solve [discriminate | auto]. Qed.

Lemma continue_keeps_threshold state config response :
  shouldContinue (processResponse state config response) = true ->
  resultThreshold (processResponse state config response) = None
  /\ threshold (advance config state response) = threshold state.
Proof. step_cases; intros; solve [discriminate | auto]. Qed.

Lemma unresolved_or_exhausted config responses : forall state,
  threshold state = None \/ exhausted config state ->
  threshold (runFrom config state responses) = None
  \/ exhausted config (runFrom config state responses).
Proof.
  induction responses as [|r rs IH]; intros state H; [exact H|].
  change (runFrom config state (r :: rs))
    with (runFrom config (advance config state r) rs).
  apply IH. destruct H as [Hnone|Hex]; [|right; apply exhausted_advance, Hex].
  destruct (shouldContinue (processResponse state config r)) eqn:Hc.
  - left. destruct (continue_keeps_threshold state config r Hc) as [_ ->].
    exact Hnone.
  - right. apply stop_means_exhausted, Hc.
Qed.

(** X5. The threshold is resolved exactly when the run stops, and within the
    safety bounds: for a valid configuration, a call of a run from
    [createStaircase] that continues returns no threshold and hands on a
    state without one, and a call that stops returns a threshold between
    [minLevel] and [maxLevel], which it also stores in the state. *)
Theorem threshold_resolved_within_bounds (overrides : PartialConfig)
    (responses : list Response) (k : nat) (res : ProcessResult) :
  validConfig (createStaircase overrides).2 ->
  results (createStaircase overrides).2 (createStaircase overrides).1
    responses !! k = Some res ->
  (shouldContinue res = true ->
   resultThreshold res = None /\ threshold (newState res) = None)
  /\ (shouldContinue res = false ->
      exists t, resultThreshold res = Some t
                /\ threshold (newState res) = Some t
                /\ minLevel (createStaircase overrides).2 <= t
                     <= maxLevel (createStaircase overrides).2).
Proof.
  intros (Hinit & Hd & Hu) Hk.
  apply results_lookup in Hk as (q & Hq & ->).
  set (config := (createStaircase overrides).2) in *.
  set (state := runFrom config (createStaircase overrides).1 (take k responses)).
  assert (Hb : inBounds config state).
  { apply runFrom_inBounds; try lia. exact Hinit. }
  split.
  - intros Hc.
    destruct (continue_keeps_threshold state config q Hc) as [Hres Hth].
    split; [exact Hres|]. fold (advance config state q). rewrite Hth.
    destruct (unresolved_or_exhausted config (take k responses)
                (createStaircase overrides).1) as [Hnone|Hex];
      [left; reflexivity | exact Hnone |].
    apply (exhausted_stops _ _ q) in Hex. fold state in Hex. congruence.
  - intros Hstop.
    destruct (stop_sets_threshold state config q Hstop) as [Hres Hth].
    exists (currentLevel (advance config state q)).
    split; [exact Hres|]. split; [exact Hth|].
    apply advance_inBounds; try lia. exact Hb.
Qed.

Lemma threshold_resolved_within_bounds_witness :
  exists t,
    resultThreshold
      (processResponse
         (runFrom DEFAULT_CONFIG (createStaircase noOverrides).1
            [heard; notHeard; heard; notHeard])
         DEFAULT_CONFIG heard) = Some t
    /\ -60 <= t <= 0.
Proof.
  assert (Hv : validConfig (createStaircase noOverrides).2)
    by (unfold validConfig; cbn; lia).
  assert (Hk : results (createStaircase noOverrides).2
                 (createStaircase noOverrides).1
                 [heard; notHeard; heard; notHeard; heard] !! 4%nat
               = Some (processResponse
                         (runFrom DEFAULT_CONFIG (createStaircase noOverrides).1
                            [heard; notHeard; heard; notHeard])
                         DEFAULT_CONFIG heard))
    by (vm_compute; reflexivity).
  destruct (threshold_resolved_within_bounds noOverrides
              [heard; notHeard; heard; notHeard; heard] 4 _ Hv Hk)
    as [_ Hstop].
  destruct Hstop as (t & Ht & _ & Hb); [vm_compute; reflexivity|].
  exists t. split; [exact Ht | exact Hb].
Defined.

End StaircaseExtra.

(** ** Properties of the rounding *)

Module DoubleFacts.
Import Double.
Local Open Scope Q_scope.

Lemma pow2_pos (e : Z) : 0 < 2 ^ e.
Proof. apply Qpower_0_lt. reflexivity. Qed.

Lemma pow2_plus (a b : Z) : 2 ^ (a + b) == 2 ^ a * 2 ^ b.
Proof. apply Qpower_plus. discriminate. Qed.

Lemma pow2_succ (a : Z) : 2 ^ (a + 1) == 2 * 2 ^ a.
Proof. rewrite pow2_plus. change (2 ^ 1) with 2. ring. Qed.

Lemma pow2_le (a b : Z) : (a <= b)%Z -> 2 ^ a <= 2 ^ b.
Proof. intros H. apply Qpower_le_compat_l; [exact H | discriminate]. Qed.

Lemma pow2_lt (a b : Z) : (a < b)%Z -> 2 ^ a < 2 ^ b.
Proof. intros H. apply Qpower_lt_compat_l; [exact H | reflexivity]. Qed.

Lemma pow2_inject (a : Z) : (0 <= a)%Z -> inject_Z (2 ^ a) == 2 ^ a.
Proof. intros H. apply (Zpower_Qpower 2 a H). Qed.

(** [ilog2] brackets a positive rational between two powers of two. *)
Lemma ilog2_spec (q : Q) :
  0 < q -> 2 ^ ilog2 q <= q /\ q < 2 ^ (ilog2 q + 1).
Proof.
  intros Hq. destruct q as [n d]. unfold ilog2. cbn [Qnum Qden].
  assert (Hn : (0 < n)%Z).
  { unfold Qlt in Hq. cbn in Hq. lia. }
  set (a := Z.log2 n). set (b := Z.log2 (Z.pos d)).
  destruct (Z.log2_spec n Hn) as [Ha1 Ha2]. fold a in Ha1, Ha2.
  destruct (Z.log2_spec (Z.pos d) eq_refl) as [Hb1 Hb2]. fold b in Hb1, Hb2.
  assert (Ha0 : (0 <= a)%Z) by apply Z.log2_nonneg.
  assert (Hb0 : (0 <= b)%Z) by apply Z.log2_nonneg.
  assert (Hqd : (n # d) * inject_Z (Z.pos d) == inject_Z n).
  { unfold Qeq, inject_Z. cbn. lia. }
  assert (Hd : 0 < inject_Z (Z.pos d)) by reflexivity.
  (* the powers as rationals *)
  assert (HA1 : 2 ^ a <= inject_Z n).
  { rewrite <- pow2_inject by exact Ha0. rewrite <- Zle_Qle. exact Ha1. }
  assert (HA2 : inject_Z n < 2 * 2 ^ a).
  { rewrite <- pow2_succ, <- pow2_inject by lia. rewrite <- Zlt_Qlt.
    replace (a + 1)%Z with (Z.succ a) by lia. exact Ha2. }
  assert (HB1 : 2 ^ b <= inject_Z (Z.pos d)).
  { rewrite <- pow2_inject by exact Hb0. rewrite <- Zle_Qle. exact Hb1. }
  assert (HB2 : inject_Z (Z.pos d) < 2 * 2 ^ b).
  { rewrite <- pow2_succ, <- pow2_inject by lia. rewrite <- Zlt_Qlt.
    replace (b + 1)%Z with (Z.succ b) by lia. exact Hb2. }
  pose proof (pow2_pos a) as Hpa. pose proof (pow2_pos b) as Hpb.
  pose proof (pow2_pos (a - b)) as Hpl.
  assert (Hl : 2 ^ (a - b) * 2 ^ b == 2 ^ a).
  { rewrite <- pow2_plus. replace (a - b + b)%Z with a by lia. reflexivity. }
  set (q := n # d) in *. set (D := inject_Z (Z.pos d)) in *.
  set (N := inject_Z n) in *. set (A := 2 ^ a) in *. set (B := 2 ^ b) in *.
  set (L := 2 ^ (a - b)) in *.
  (* q lies strictly between L / 2 and 2 L *)
  assert (Hup : q < 2 * L).
  { apply (Qmult_lt_r _ _ B Hpb).
    apply Qle_lt_trans with (q * D).
    - apply Qmult_le_l; [exact Hq | exact HB1].
    - rewrite Hqd.
      assert (E : 2 * L * B == 2 * A) by (rewrite <- Hl; ring).
      rewrite E. exact HA2. }
  assert (Hlow : L < 2 * q).
  { apply (Qmult_lt_r _ _ D Hd).
    apply Qlt_le_trans with (L * (2 * B)).
    - apply Qmult_lt_l; [exact Hpl | exact HB2].
    - assert (E : L * (2 * B) == 2 * A) by (rewrite <- Hl; ring).
      assert (E' : 2 * q * D == 2 * N) by (rewrite <- Hqd; ring).
      rewrite E, E'. Lqa.lra. }
  destruct (Qle_bool L q) eqn:Hcmp.
  - apply Qle_bool_iff in Hcmp. split; [exact Hcmp|].
    rewrite pow2_succ. exact Hup.
  - assert (Hlt : q < L).
    { apply Qnot_le_lt. intros Hle. apply Qle_bool_iff in Hle. congruence. }
    replace (a - b - 1 + 1)%Z with (a - b)%Z by lia. split; [|exact Hlt].
    assert (Hhalf : 2 * 2 ^ (a - b - 1) == L).
    { rewrite <- pow2_succ. replace (a - b - 1 + 1)%Z with (a - b)%Z by lia.
      reflexivity. }
    Lqa.lra.
Qed.

Lemma ilog2_unique (q : Q) (a : Z) :
  2 ^ a <= q -> q < 2 ^ (a + 1) -> ilog2 q = a.
Proof.
  intros Hlo Hhi.
  assert (Hq : 0 < q) by (pose proof (pow2_pos a); Lqa.lra).
  destruct (ilog2_spec q Hq) as [Hlo' Hhi'].
  destruct (Z.lt_trichotomy (ilog2 q) a) as [Hlt|[Heq|Hgt]]; [|exact Heq|].
  - pose proof (pow2_le (ilog2 q + 1) a ltac:(lia)). Lqa.lra.
  - pose proof (pow2_le (a + 1) (ilog2 q) ltac:(lia)). Lqa.lra.
Qed.

Lemma ilog2_mono (p q : Q) : 0 < p -> p <= q -> (ilog2 p <= ilog2 q)%Z.
Proof.
  intros Hp Hpq.
  destruct (ilog2_spec p Hp) as [Hlo _].
  destruct (ilog2_spec q ltac:(Lqa.lra)) as [_ Hhi].
  destruct (Z_le_gt_dec (ilog2 p) (ilog2 q)) as [H|H]; [exact H|].
  pose proof (pow2_le (ilog2 q + 1) (ilog2 p) ltac:(lia)). Lqa.lra.
Qed.

Lemma exponent_mono (p q : Q) : 0 < p -> p <= q -> (exponent p <= exponent q)%Z.
Proof.
  intros Hp Hpq. unfold exponent. pose proof (ilog2_mono p q Hp Hpq). lia.
Qed.

(** *** Rounding to an integer *)

Lemma roundHalfEven_bounds (x : Q) :
  (Qfloor x <= roundHalfEven x <= Qfloor x + 1)%Z.
Proof.
  unfold roundHalfEven.
  destruct (Qcompare _ _); [destruct (Z.even _)| |]; lia.
Qed.

Lemma roundHalfEven_comp (x y : Q) :
  x == y -> roundHalfEven x = roundHalfEven y.
Proof.
  intros H. unfold roundHalfEven. rewrite (Qfloor_comp x y H).
  assert (E : x - inject_Z (Qfloor y) == y - inject_Z (Qfloor y))
    by (rewrite H; reflexivity).
  rewrite (Qcompare_comp _ _ E _ _ (Qeq_refl (1 # 2))). reflexivity.
Qed.

Lemma roundHalfEven_inject (z : Z) : roundHalfEven (inject_Z z) = z.
Proof.
  unfold roundHalfEven. rewrite Qfloor_Z.
  destruct (Qcompare_spec (inject_Z z - inject_Z z) (1 # 2)) as [H|H|H];
    [exfalso; Lqa.lra | reflexivity | exfalso; Lqa.lra].
Qed.

Lemma roundHalfEven_mono (x y : Q) :
  x <= y -> (roundHalfEven x <= roundHalfEven y)%Z.
Proof.
  intros Hxy. pose proof (Qfloor_resp_le x y Hxy) as Hf.
  pose proof (roundHalfEven_bounds x) as Hx.
  pose proof (roundHalfEven_bounds y) as Hy.
  destruct (Z.eq_dec (Qfloor x) (Qfloor y)) as [Heq|Hne]; [|lia].
  unfold roundHalfEven in *. rewrite <- Heq in *.
  set (f := Qfloor x) in *.
  destruct (Qcompare_spec (x - inject_Z f) (1 # 2)) as [Hcx|Hcx|Hcx];
    destruct (Qcompare_spec (y - inject_Z f) (1 # 2)) as [Hcy|Hcy|Hcy];
    try (destruct (Z.even f)); try lia; exfalso; Lqa.lra.
Qed.

Lemma roundHalfEven_nonneg (x : Q) : 0 <= x -> (0 <= roundHalfEven x)%Z.
Proof.
  intros Hx. pose proof (roundHalfEven_bounds x) as Hb.
  pose proof (Qfloor_resp_le 0 x Hx) as H0.
  change (Qfloor 0) with 0%Z in H0. lia.
Qed.

(** *** The nearest double *)

Lemma nearest_eq (q : Q) :
  nearest q
  == inject_Z (roundHalfEven (q / 2 ^ exponent q)) * 2 ^ exponent q.
Proof. unfold nearest. apply Qred_correct. Qed.

Lemma nearest_zero (q : Q) : q == 0 -> nearest q == 0.
Proof.
  intros Hq. rewrite nearest_eq.
  assert (E : q / 2 ^ exponent q == inject_Z 0).
  { unfold Qdiv. transitivity (0 * / 2 ^ exponent q);
      [apply Qmult_comp; [exact Hq | reflexivity] | ring]. }
  rewrite (roundHalfEven_comp _ _ E), roundHalfEven_inject. ring.
Qed.

Lemma nearest_nonneg (q : Q) : 0 <= q -> 0 <= nearest q.
Proof.
  intros Hq. rewrite nearest_eq. apply Qmult_le_0_compat.
  - change 0 with (inject_Z 0). rewrite <- Zle_Qle.
    apply roundHalfEven_nonneg. apply Qle_shift_div_l; [apply pow2_pos|].
    Lqa.lra.
  - apply Qlt_le_weak, pow2_pos.
Qed.

(** Above the subnormal numbers a double has 53 significant bits. *)
Lemma nearest_lower (q : Q) :
  0 < q -> (-1074 < exponent q)%Z -> 2 ^ (exponent q + 52) <= nearest q.
Proof.
  intros Hq He. rewrite nearest_eq.
  destruct (ilog2_spec q Hq) as [Hlo _].
  assert (Heq : exponent q = (ilog2 q - 52)%Z) by (unfold exponent in *; lia).
  rewrite pow2_plus. rewrite (Qmult_comm (2 ^ exponent q)).
  apply Qmult_le_r; [apply pow2_pos|].
  rewrite <- (pow2_inject 52) by lia. rewrite <- Zle_Qle.
  rewrite <- (roundHalfEven_inject (2 ^ 52)).
  apply roundHalfEven_mono. rewrite (pow2_inject 52) by lia.
  apply Qle_shift_div_l; [apply pow2_pos|].
  rewrite <- pow2_plus. replace (52 + exponent q)%Z with (ilog2 q) by lia.
  exact Hlo.
Qed.

Lemma nearest_upper (q : Q) :
  0 < q -> nearest q <= 2 ^ (exponent q + 53).
Proof.
  intros Hq. rewrite nearest_eq.
  destruct (ilog2_spec q Hq) as [_ Hhi].
  assert (He : (ilog2 q - 52 <= exponent q)%Z) by (unfold exponent; lia).
  rewrite pow2_plus. rewrite (Qmult_comm (2 ^ exponent q)).
  apply Qmult_le_r; [apply pow2_pos|].
  rewrite <- (pow2_inject 53) by lia. rewrite <- Zle_Qle.
  rewrite <- (roundHalfEven_inject (2 ^ 53)).
  apply roundHalfEven_mono. rewrite (pow2_inject 53) by lia.
  apply Qle_shift_div_r; [apply pow2_pos|].
  rewrite <- pow2_plus.
  pose proof (pow2_le (ilog2 q + 1) (53 + exponent q) ltac:(lia)).
  Lqa.lra.
Qed.

Lemma nearest_mono (p q : Q) : 0 <= p -> p <= q -> nearest p <= nearest q.
Proof.
  intros Hp Hpq.
  destruct (Qlt_le_dec 0 p) as [Hpos|Hzero].
  - assert (Hq : 0 < q) by Lqa.lra.
    pose proof (exponent_mono p q Hpos Hpq) as He.
    destruct (Z.eq_dec (exponent p) (exponent q)) as [Heq|Hne].
    + rewrite !nearest_eq, Heq.
      apply Qmult_le_compat_r; [|apply Qlt_le_weak, pow2_pos].
      rewrite <- Zle_Qle. apply roundHalfEven_mono.
      apply Qmult_le_compat_r; [exact Hpq|].
      apply Qlt_le_weak, Qinv_lt_0_compat, pow2_pos.
    + pose proof (nearest_upper p Hpos) as Hup.
      pose proof (nearest_lower q Hq ltac:(unfold exponent in *; lia)) as Hlo.
      pose proof (pow2_le (exponent p + 53) (exponent q + 52) ltac:(lia)).
      Lqa.lra.
  - rewrite (nearest_zero p) by Lqa.lra. apply nearest_nonneg. Lqa.lra.
Qed.

Lemma nearest_comp (p q : Q) : 0 <= p -> p == q -> nearest p == nearest q.
Proof.
  intros Hp Hpq. apply Qle_antisym; apply nearest_mono; Lqa.lra.
Qed.

Lemma exponent_bound (q : Q) : (-1074 <= exponent q)%Z.
Proof. unfold exponent. lia. Qed.

(** The exponent of a number below [2 ^ (e + 53)] that lies above
    [2 ^ (e + 52)] unless [e] is the least exponent. *)
Lemma exponent_unique (v : Q) (e : Z) :
  0 < v -> (-1074 <= e)%Z ->
  v < 2 ^ (e + 53) -> ((-1074 < e)%Z -> 2 ^ (e + 52) <= v) ->
  exponent v = e.
Proof.
  intros Hv He Hhi Hlo. destruct (ilog2_spec v Hv) as [Hlo' Hhi'].
  assert (H1 : (ilog2 v < e + 53)%Z).
  { apply (Qpower_lt_compat_l_inv 2); [|reflexivity]. Lqa.lra. }
  unfold exponent.
  destruct (Z.eq_dec e (-1074)%Z) as [->|Hne]; [lia|].
  assert (H2 : (e + 52 < ilog2 v + 1)%Z).
  { apply (Qpower_lt_compat_l_inv 2); [|reflexivity].
    specialize (Hlo ltac:(lia)). Lqa.lra. }
  lia.
Qed.

(** A double is its own nearest double. *)
Lemma nearest_exact (m e : Z) (v : Q) :
  (0 <= m <= 2 ^ 53)%Z -> (-1074 <= e)%Z ->
  ((-1074 < e)%Z -> (2 ^ 52 <= m)%Z) ->
  v == inject_Z m * 2 ^ e ->
  nearest v == v.
Proof.
  intros [Hm0 Hm] He Hnormal Hv.
  pose proof (pow2_pos e) as Hpe.
  destruct (Z.eq_dec m 0%Z) as [->|Hm1].
  { assert (Hz : v == 0) by (rewrite Hv; ring).
    rewrite (nearest_zero v Hz). symmetry. exact Hz. }
  assert (Hmq : 0 < inject_Z m)
    by (change 0 with (inject_Z 0); rewrite <- Zlt_Qlt; lia).
  assert (Hvpos : 0 < v).
  { rewrite Hv. apply Qmult_lt_0_compat; assumption. }
  destruct (Z.eq_dec m (2 ^ 53)%Z) as [->|Hm2].
  - (* the next power of two *)
    assert (Hv' : v == inject_Z (2 ^ 52) * 2 ^ (e + 1)).
    { rewrite Hv, !pow2_inject by lia.
      rewrite <- !pow2_plus. replace (53 + e)%Z with (52 + (e + 1))%Z by lia.
      reflexivity. }
    assert (Hexp : exponent v = (e + 1)%Z).
    { apply exponent_unique; [exact Hvpos | lia | |].
      - rewrite Hv', pow2_inject by lia. rewrite <- pow2_plus.
        apply pow2_lt. lia.
      - intros _. rewrite Hv', pow2_inject by lia. rewrite <- pow2_plus.
        apply pow2_le. lia. }
    rewrite nearest_eq, Hexp.
    assert (E : v / 2 ^ (e + 1) == inject_Z (2 ^ 52)).
    { rewrite Hv'. field. apply Qnot_eq_sym, Qlt_not_eq, pow2_pos. }
    rewrite (roundHalfEven_comp _ _ E), roundHalfEven_inject.
    symmetry. exact Hv'.
  - assert (Hexp : exponent v = e).
    { apply exponent_unique; [exact Hvpos | exact He | |].
      - rewrite Hv, pow2_plus, (Qmult_comm (2 ^ e)).
        apply Qmult_lt_compat_r; [exact Hpe|].
        rewrite <- (pow2_inject 53) by lia. rewrite <- Zlt_Qlt. lia.
      - intros Hn. rewrite Hv, pow2_plus, (Qmult_comm (2 ^ e)).
        apply Qmult_le_compat_r; [|apply Qlt_le_weak, Hpe].
        rewrite <- (pow2_inject 52) by lia. rewrite <- Zle_Qle.
        apply Hnormal, Hn. }
    rewrite nearest_eq, Hexp.
    assert (E : v / 2 ^ e == inject_Z m).
    { rewrite Hv. field. apply Qnot_eq_sym, Qlt_not_eq, pow2_pos. }
    rewrite (roundHalfEven_comp _ _ E), roundHalfEven_inject.
    symmetry. exact Hv.
Qed.

Lemma nearest_idempotent (q : Q) : 0 <= q -> nearest (nearest q) == nearest q.
Proof.
  intros Hq.
  destruct (Qlt_le_dec 0 q) as [Hpos|Hzero].
  - pose proof (pow2_pos (exponent q)) as Hpe.
    destruct (ilog2_spec q Hpos) as [Hlo Hhi].
    apply (nearest_exact (roundHalfEven (q / 2 ^ exponent q)) (exponent q)).
    + split.
      * apply roundHalfEven_nonneg, Qle_shift_div_l; [exact Hpe | Lqa.lra].
      * rewrite <- (roundHalfEven_inject (2 ^ 53)).
        apply roundHalfEven_mono. rewrite (pow2_inject 53) by lia.
        apply Qle_shift_div_r; [exact Hpe|]. rewrite <- pow2_plus.
        pose proof (pow2_le (ilog2 q + 1) (53 + exponent q)
                      ltac:(unfold exponent; lia)).
        Lqa.lra.
    + apply exponent_bound.
    + intros Hn. rewrite <- (roundHalfEven_inject (2 ^ 52)).
      apply roundHalfEven_mono. rewrite (pow2_inject 52) by lia.
      apply Qle_shift_div_l; [exact Hpe|]. rewrite <- pow2_plus.
      replace (52 + exponent q)%Z with (ilog2 q)
        by (unfold exponent in *; lia).
      exact Hlo.
    + apply nearest_eq.
  - assert (Hz : q == 0) by Lqa.lra.
    pose proof (nearest_zero q Hz) as Hn.
    rewrite (nearest_zero (nearest q) Hn). symmetry. exact Hn.
Qed.

(** *** The rounding of the operations *)

Lemma round64_nonneg (q : Q) : 0 <= q -> 0 <= round64 q.
Proof.
  intros Hq. unfold round64.
  rewrite (proj2 (Qle_bool_iff 0 q) Hq). apply nearest_nonneg, Hq.
Qed.

Lemma round64_negative (q : Q) : q < 0 -> round64 q == - nearest (- q).
Proof.
  intros Hq. unfold round64.
  destruct (Qle_bool 0 q) eqn:H; [|reflexivity].
  apply Qle_bool_iff in H. exfalso. Lqa.lra.
Qed.

Lemma round64_nonpos (q : Q) : q <= 0 -> round64 q <= 0.
Proof.
  intros Hq. destruct (Qlt_le_dec q 0) as [Hneg|Hpos].
  - rewrite (round64_negative q Hneg).
    pose proof (nearest_nonneg (- q) ltac:(Lqa.lra)). Lqa.lra.
  - unfold round64. rewrite (proj2 (Qle_bool_iff 0 q) Hpos).
    rewrite (nearest_zero q) by Lqa.lra. Lqa.lra.
Qed.

(** Rounding keeps the order. *)
Lemma round64_monotone (p q : Q) : p <= q -> round64 p <= round64 q.
Proof.
  intros Hpq.
  destruct (Qlt_le_dec p 0) as [Hp|Hp]; destruct (Qlt_le_dec q 0) as [Hq|Hq].
  - rewrite (round64_negative p Hp), (round64_negative q Hq).
    pose proof (nearest_mono (- q) (- p) ltac:(Lqa.lra) ltac:(Lqa.lra)).
    Lqa.lra.
  - pose proof (round64_nonpos p ltac:(Lqa.lra)).
    pose proof (round64_nonneg q Hq). Lqa.lra.
  - exfalso. Lqa.lra.
  - unfold round64. rewrite (proj2 (Qle_bool_iff 0 p) Hp).
    rewrite (proj2 (Qle_bool_iff 0 q) Hq). apply nearest_mono; assumption.
Qed.

Lemma round64_comp (p q : Q) : p == q -> round64 p == round64 q.
Proof. intros H. apply Qle_antisym; apply round64_monotone; Lqa.lra. Qed.

(** Rounding a double changes nothing. *)
Lemma round64_idempotent (q : Q) : round64 (round64 q) == round64 q.
Proof.
  destruct (Qlt_le_dec q 0) as [Hq|Hq].
  - pose proof (nearest_nonneg (- q) ltac:(Lqa.lra)) as Hv.
    rewrite (round64_comp _ _ (round64_negative q Hq)).
    rewrite (round64_negative q Hq).
    destruct (Qlt_le_dec 0 (nearest (- q))) as [Hpos|Hzero].
    + rewrite round64_negative by Lqa.lra.
      rewrite (nearest_comp (- - nearest (- q)) (nearest (- q)))
        by (try ring; Lqa.lra).
      rewrite nearest_idempotent by Lqa.lra. reflexivity.
    + assert (Hz : - nearest (- q) == 0) by Lqa.lra.
      unfold round64 at 1.
      assert (Hle : 0 <= - nearest (- q)) by Lqa.lra.
      rewrite (proj2 (Qle_bool_iff 0 _) Hle).
      rewrite (nearest_zero _ Hz). symmetry. exact Hz.
  - unfold round64 at 2. rewrite (proj2 (Qle_bool_iff 0 q) Hq).
    unfold round64. rewrite (proj2 (Qle_bool_iff 0 q) Hq).
    rewrite (proj2 (Qle_bool_iff 0 _) (nearest_nonneg q Hq)).
    apply nearest_idempotent, Hq.
Qed.

(** Adding a number that is not negative to a double does not go below
    it. *)
Lemma add_nonneg_r (x y : Q) : round64 x == x -> 0 <= y -> x <= add x y.
Proof.
  intros Hx Hy. unfold add. rewrite <- Hx at 1.
  apply round64_monotone. Lqa.lra.
Qed.

Lemma add_nonneg (x y : Q) : 0 <= x -> 0 <= y -> 0 <= add x y.
Proof. intros Hx Hy. apply round64_nonneg. Lqa.lra. Qed.

Lemma add_double (x y : Q) : round64 (add x y) == add x y.
Proof. apply round64_idempotent. Qed.

End DoubleFacts.

(** ** The rounded times against the binary64 numbers of the kernel *)

Module Binary64Facts.
Import Stdlib.Floats.Floats.

Ltac evaluate_both :=
  eexists; split; [vm_compute; reflexivity | vm_compute; reflexivity].

(** On the constants of [playTone] and on the durations and clock values
    around which its times change sign or order, the rounded rational
    arithmetic gives the numbers binary64 arithmetic gives: for 50 ms at
    clock 0 the end of the sustain is -2^-59, for 60 ms the sustain is
    -2^-57, for 14 ms at clock 0.036 the end of the sustain is 0, and for
    the default second the tone ends at 1 at clock 0 and one unit in the
    last place below the double nearest to now + 1 at clock 256/48000. *)
Lemma times_agree_with_binary64 :
  Binary64.agree Binary64.attackTime AudioEngine.attackTime
  /\ Binary64.agree Binary64.releaseTime AudioEngine.releaseTime
  /\ Binary64.agree (Binary64.sustainTime 50) (AudioEngine.sustainTime 50)
  /\ Binary64.agree (Binary64.sustainEnd 0 50)
       (AudioEngine.sustainEnd AudioEngine.blip 0)
  /\ Binary64.agree (Binary64.sustainEnd 0 50) (- (1 # 2 ^ 59))
  /\ Binary64.agree (Binary64.sustainTime 60) (AudioEngine.sustainTime 60)
  /\ Binary64.agree (Binary64.sustainTime 60) (- (1 # 2 ^ 57))
  /\ Binary64.agree (Binary64.sustainTime 61) (AudioEngine.sustainTime 61)
  /\ Binary64.agree (Binary64.sustainEnd (36 / 1000) 14)
       (Double.add (AudioEngine.attackEnd (Double.round64 (36 # 1000)))
          (AudioEngine.sustainTime 14))
  /\ Binary64.agree (Binary64.sustainEnd (36 / 1000) 14) 0
  /\ Binary64.agree (Binary64.toneEnd 0 1000)
       (AudioEngine.toneEnd (AudioEngine.tone AudioEngine.both 0) 0)
  /\ Binary64.agree (256 / 48000)%float (Double.round64 (256 # 48000))
  /\ Binary64.agree (Binary64.toneEnd (256 / 48000) 1000)
       (AudioEngine.toneEnd (AudioEngine.tone AudioEngine.both 0)
          (Double.round64 (256 # 48000)))
  /\ Binary64.agree (256 / 48000 + 1)%float
       (Double.round64 (Double.round64 (256 # 48000) + 1)).
Proof. repeat split; evaluate_both. Qed.

End Binary64Facts.

(** ** Further properties of the playback engine *)

Module AudioEngineExtra.
Import AudioEngine AudioEngineFacts.

(** Running a method on a state given by its fields: the calls are
    evaluated one after the other, the lookups in the stores being resolved
    by the equations of insertion. *)
Ltac exec_step :=
  first
    [ rewrite bind_run
    | rewrite lookup_insert_eq
    | rewrite lookup_insert_ne by lia
    | progress cbv beta iota zeta delta
        [get ret throw modify modifyEngine fresh createGain createOscillator
         createStereoPanner connect updateOscillator setType setFrequencyValue
         setOnended setPanValue setGainValue onGainParam setValueAtTime
         linearRampToValueAtTime start stop onOscillator
         newAudioContext resume close tryCatch
         audioContext_currentTime audioContext_state
         mbind Eff_bind bind mret Eff_ret option_bind
         with_engine with_contexts with_oscillators with_gainNodes
         with_panners with_connections with_nextRef
         platform nextRef contexts oscillators gainNodes panners connections
         engine audioContext activeOscillators activeGainNodes masterGain
         isInitialized set_activeOscillators set_activeGainNodes
         set_audioContext set_masterGain set_isInitialized
         osc_context startTime stopTime startNode stopNode set_startTime
         set_stopTime update_gain gain gain_context pan pan_context
         set_state isClosed isRunning isSuspended isNull
         fst snd type frequency onended negb andb orb] ].

Lemma attackTime_nonneg : (0 <= attackTime)%Q.
Proof. apply DoubleFacts.round64_nonneg. discriminate. Qed.

Lemma releaseTime_nonneg : (0 <= releaseTime)%Q.
Proof. apply DoubleFacts.round64_nonneg. discriminate. Qed.

Lemma attackEnd_nonneg (now : Q) : (0 <= now)%Q -> (0 <= attackEnd now)%Q.
Proof.
  intros Hnow. apply DoubleFacts.add_nonneg; [exact Hnow|].
  exact attackTime_nonneg.
Qed.

Lemma toneEnd_nonneg (options : PlayToneOptions) (now : Q) :
  (0 <= sustainEnd options now)%Q -> (0 <= toneEnd options now)%Q.
Proof.
  intros Hsus. apply DoubleFacts.add_nonneg; [exact Hsus|].
  exact releaseTime_nonneg.
Qed.

(** The computed times of a tone are in order when the clock shows a double
    and the computed sustain is not negative: a sum of doubles does not go
    below its first term when the second is not negative. *)
Lemma tone_times_ordered (options : PlayToneOptions) (now : Q) :
  (Double.round64 now == now)%Q ->
  (0 <= sustainTime (default 1000%Q (durationMs options)))%Q ->
  (now <= attackEnd now)%Q
  /\ (attackEnd now <= sustainEnd options now)%Q
  /\ (sustainEnd options now <= toneEnd options now)%Q.
Proof.
  intros Hdouble Hsus. split; [|split].
  - apply DoubleFacts.add_nonneg_r; [exact Hdouble | exact attackTime_nonneg].
  - apply DoubleFacts.add_nonneg_r; [apply DoubleFacts.add_double | exact Hsus].
  - apply DoubleFacts.add_nonneg_r;
      [apply DoubleFacts.add_double | exact releaseTime_nonneg].
Qed.

(** [playTone] on an engine that is ready, when none of its calls throws:
    the context is in the store and neither the current time nor the
    computed end of the sustain is negative. *)
Lemma playToneBody_run (options : PlayToneOptions) (w : World) c master ctx :
  audioContext (engine w) = Some c ->
  masterGain (engine w) = Some master ->
  contexts w !! c = Some ctx ->
  (0 <= currentTime ctx)%Q ->
  (0 <= sustainEnd options (currentTime ctx))%Q ->
  playToneBody options w
  = (inr (nextRef w, S (nextRef w), S (S (S (nextRef w))), S (S (nextRef w))),
     tonePlayed options c master (currentTime ctx) w).
Proof.
  intros Hc Hm Hctx Hnow Hsus.
  pose proof (attackEnd_nonneg _ Hnow) as Hatt.
  pose proof (toneEnd_nonneg _ _ Hsus) as Hend.
  apply Qle_bool_iff in Hnow, Hatt, Hsus, Hend.
  unfold tonePlayed, toneEnd, sustainEnd, attackEnd in *.
  destruct w as [p n cs os gs ps es [ac ao ag mg ii]]. cbn in Hc, Hm, Hctx.
  subst ac mg. unfold playToneBody.
  rewrite bind_run. cbv beta iota zeta delta [get engine audioContext masterGain].
  repeat first [ exec_step | rewrite Hctx | rewrite Hnow | rewrite Hatt
               | rewrite Hsus | rewrite Hend ].
  rewrite !insert_insert_eq, Qle_bool_refl.
  rewrite (insert_insert_ne _ (S n) (S (S (S n)))) by lia.
  rewrite insert_insert_eq, <- !app_assoc.
  reflexivity.
Qed.

Lemma playTone_ready (options : PlayToneOptions) (w : World) c master :
  audioContext (engine w) = Some c ->
  masterGain (engine w) = Some master ->
  playTone options w = playToneBody options w.
Proof.
  intros Hc Hm. unfold playTone. rewrite bind_run. cbv [get].
  rewrite Hc, Hm. cbn [isNull orb]. rewrite bind_run. reflexivity.
Qed.

(** X6. On an engine that is ready, a tone whose computed times are not
    negative is registered once and nothing else is disturbed: when the
    clock is not negative and the end of the sustain, as the engine
    computes it in double arithmetic, is not negative either, [playTone]
    returns the next four addresses, appends the new oscillator and envelope
    gain to the active lists, leaves the context, the master gain and all
    contexts as they were, and changes no node at another address. *)
Theorem playTone_registers_one_tone (options : PlayToneOptions) (w : World)
    c master ctx :
  audioContext (engine w) = Some c ->
  masterGain (engine w) = Some master ->
  contexts w !! c = Some ctx ->
  (0 <= currentTime ctx)%Q ->
  (0 <= sustainEnd options (currentTime ctx))%Q ->
  exists w',
    playTone options w
    = (inr (nextRef w, S (nextRef w), S (S (S (nextRef w))),
            S (S (nextRef w))), w')
    /\ activeOscillators (engine w')
       = activeOscillators (engine w) ++ [nextRef w]
    /\ activeGainNodes (engine w')
       = activeGainNodes (engine w) ++ [S (nextRef w)]
    /\ audioContext (engine w') = audioContext (engine w)
    /\ masterGain (engine w') = masterGain (engine w)
    /\ isInitialized (engine w') = isInitialized (engine w)
    /\ contexts w' = contexts w
    /\ nextRef w' = S (S (S (S (nextRef w))))
    /\ (forall k, k <> nextRef w -> oscillators w' !! k = oscillators w !! k)
    /\ (forall k, k <> S (nextRef w) -> k <> S (S (S (nextRef w))) ->
                  gainNodes w' !! k = gainNodes w !! k)
    /\ (forall k, k <> S (S (nextRef w)) -> panners w' !! k = panners w !! k).
Proof.
  intros Hc Hm Hctx Hnow Hsus.
  exists (tonePlayed options c master (currentTime ctx) w).
  split.
  { rewrite (playTone_ready options w c master Hc Hm).
    apply playToneBody_run; assumption. }
  repeat split; cbn.
  - intros k Hk. apply lookup_insert_ne. auto.
  - intros k Hk Hk'. rewrite !lookup_insert_ne by auto. reflexivity.
  - intros k Hk. apply lookup_insert_ne. auto.
Qed.

Lemma playTone_registers_one_tone_witness :
  exists w',
    playTone shortTone readyEngine = (inr (2, 3, 5, 4)%nat, w')
    /\ activeOscillators (engine w') = [2%nat]
    /\ activeGainNodes (engine w') = [3%nat].
Proof.
  destruct (playTone_registers_one_tone shortTone readyEngine
              0%nat 1%nat {| state := running; currentTime := 0 |})
    as (w' & Hrun & Ho & Hg & _);
    [vm_compute; reflexivity | vm_compute; reflexivity
     | vm_compute; reflexivity | vm_compute; discriminate
     | vm_compute; discriminate |].
  exists w'. rewrite Hrun, Ho, Hg.
  split; [|split]; vm_compute; reflexivity.
Defined.

Lemma Qlt_Qle_bool_false (p q : Q) : (p < q)%Q -> Qle_bool q p = false.
Proof.
  intros Hlt. destruct (Qle_bool q p) eqn:Hle; [|reflexivity].
  apply Qle_bool_iff in Hle. exfalso. exact (Qlt_not_le _ _ Hlt Hle).
Qed.

Lemma Qle_Qle_bool (p q : Q) : (p <= q)%Q -> Qle_bool p q = true.
Proof. apply Qle_bool_iff. Qed.

Lemma Q2R_at_start (t x : Q) : Q2R ((t - t) / x) = 0%R.
Proof.
  rewrite <- RMicromega.Q2R_0. apply Qeq_eqR.
  unfold Qdiv. assert (Hz : (t - t == 0)%Q) by ring.
  rewrite Hz. ring.
Qed.

(** The envelope [playTone] schedules, when its four times are in order:
    the four events in the order of their times. *)
Lemma envelope_events (now t1 t2 t3 : Q) :
  (now <= t1)%Q -> (t1 <= t2)%Q -> (t2 <= t3)%Q ->
  events
    (param_schedule (LinearRamp 0 t3)
       (param_schedule (SetValue 1 t2)
          (param_schedule (LinearRamp 1 t1)
             (param_schedule (SetValue 0 now) {| value := 0; events := [] |}))))
  = [SetValue 0 now; LinearRamp 1 t1; SetValue 1 t2; LinearRamp 0 t3].
Proof.
  intros H1 H2 H3.
  cbn [param_schedule events value insertEvent eventTime].
  rewrite (Qle_Qle_bool now t1) by exact H1.
  cbn [insertEvent eventTime].
  rewrite (Qle_Qle_bool now t2) by Lqa.lra.
  rewrite (Qle_Qle_bool t1 t2) by exact H2.
  cbn [insertEvent eventTime].
  rewrite (Qle_Qle_bool now t3) by Lqa.lra.
  rewrite (Qle_Qle_bool t1 t3) by Lqa.lra.
  rewrite (Qle_Qle_bool t2 t3) by exact H3.
  reflexivity.
Qed.

(** X7. The envelope of a tone is free of clicks when the sustain the
    engine computes is not negative: on a clock that shows a double that is
    not negative, the four times the engine computes are in order, and the
    envelope gain of the new tone holds the four events set value 0, ramp
    to 1 at the end of the attack, set value 1 at the end of the sustain,
    ramp to 0 at the end of the release; its value is 0 when the tone
    starts (when the attack takes time on this clock), 1 throughout the
    sustain and 0 from the end of the release on.  In double arithmetic the
    sustain of 61 ms is not negative; that of 60 ms is. *)
Theorem playTone_envelope (options : PlayToneOptions) (w : World)
    c master ctx :
  audioContext (engine w) = Some c ->
  masterGain (engine w) = Some master ->
  contexts w !! c = Some ctx ->
  (Double.round64 (currentTime ctx) == currentTime ctx)%Q ->
  (0 <= currentTime ctx)%Q ->
  (0 <= sustainTime (default 1000%Q (durationMs options)))%Q ->
  let now := currentTime ctx in
  (exists node,
     gainNodes (playTone options w).2 !! S (nextRef w) = Some node
     /\ events (gain node)
        = [SetValue 0 now; LinearRamp 1 (attackEnd now);
           SetValue 1 (sustainEnd options now);
           LinearRamp 0 (toneEnd options now)]
     /\ (now <= attackEnd now)%Q
     /\ (attackEnd now <= sustainEnd options now)%Q
     /\ (sustainEnd options now <= toneEnd options now)%Q
     /\ ((now < attackEnd now)%Q -> valueAt (gain node) now = 0%R)
     /\ (forall t, (attackEnd now <= t)%Q -> (t < sustainEnd options now)%Q ->
                   valueAt (gain node) t = 1%R)
     /\ (forall t, (toneEnd options now <= t)%Q ->
                   valueAt (gain node) t = 0%R))
  /\ (0 <= sustainTime 61)%Q
  /\ (sustainTime 60 < 0)%Q.
Proof.
  intros Hc Hm Hctx Hdouble Hnow Hsus. cbv zeta.
  split; [|split; [vm_compute; discriminate | vm_compute; reflexivity]].
  destruct (tone_times_ordered options (currentTime ctx) Hdouble Hsus)
    as (H1 & H2 & H3).
  rewrite (playTone_ready options w c master Hc Hm).
  rewrite (playToneBody_run options w c master ctx Hc Hm Hctx Hnow)
    by Lqa.lra.
  cbn [snd tonePlayed gainNodes].
  rewrite lookup_insert_ne by lia. rewrite lookup_insert_eq.
  set (now := currentTime ctx) in *.
  set (t1 := attackEnd now) in *.
  set (t2 := sustainEnd options now) in *.
  set (t3 := toneEnd options now) in *.
  clearbody t1 t2 t3 now.
  eexists. split; [reflexivity|].
  cbn [gain]. unfold valueAt.
  rewrite (envelope_events now t1 t2 t3) by assumption.
  cbn [param_schedule value].
  split; [reflexivity|]. do 3 (split; [assumption|]). split; [|split].
  - intros Hlt. cbn [valueFrom eventTime eventValue fst snd].
    rewrite Qle_bool_refl.
    rewrite (Qlt_Qle_bool_false now t1) by exact Hlt.
    rewrite Q2R_at_start. lra.
  - intros t Ht1 Ht2. cbn [valueFrom eventTime eventValue fst snd].
    rewrite (Qle_Qle_bool now t) by Lqa.lra.
    rewrite (Qle_Qle_bool t1 t) by exact Ht1.
    rewrite (Qlt_Qle_bool_false t t2) by exact Ht2.
    reflexivity.
  - intros t Ht. cbn [valueFrom eventTime eventValue fst snd].
    rewrite (Qle_Qle_bool now t) by Lqa.lra.
    rewrite (Qle_Qle_bool t1 t) by Lqa.lra.
    rewrite (Qle_Qle_bool t2 t) by Lqa.lra.
    rewrite (Qle_Qle_bool t3 t) by exact Ht.
    reflexivity.
Qed.

Lemma playTone_envelope_witness :
  exists node,
    gainNodes (playTone (tone left (-20)) readyEngine).2
      !! S (nextRef readyEngine) = Some node
    /\ valueAt (gain node) 0 = 0%R
    /\ valueAt (gain node) (1 # 2) = 1%R
    /\ valueAt (gain node) 1 = 0%R.
Proof.
  destruct (playTone_envelope (tone left (-20)) readyEngine
              0%nat 1%nat {| state := running; currentTime := 0 |})
    as ((node & Hnode & _ & _ & _ & _ & Hstart & Hsustain & Hend) & _);
    [vm_compute; reflexivity | vm_compute; reflexivity
     | vm_compute; reflexivity | vm_compute; reflexivity
     | vm_compute; discriminate | vm_compute; discriminate |].
  exists node. split; [exact Hnode|].
  split; [apply Hstart; vm_compute; reflexivity|].
  split; [apply Hsustain; [vm_compute; discriminate | vm_compute; reflexivity]|].
  apply Hend. vm_compute. discriminate.
Defined.

(** X8. The tone is a sine of the frequency asked for that starts now and
    stops when the envelope is back at zero, at the time the engine computes
    as now + attackTime + sustainTime + releaseTime in double arithmetic
    (on a clock that shows a double, for a computed sustain that is not
    negative); it is routed oscillator, envelope, level, panner, master in
    this order, the panner fully to the left (-1), fully to the right (1) or
    centred (0) as the ear asks.  For the default duration the computed
    stop time is exactly one second after the start at clock 0, and differs
    from the double nearest to now + 1 at clock 256/48000 (two render
    quanta at 48 kHz). *)
Theorem playTone_oscillator_and_routing (options : PlayToneOptions)
    (w : World) c master ctx :
  audioContext (engine w) = Some c ->
  masterGain (engine w) = Some master ->
  contexts w !! c = Some ctx ->
  (Double.round64 (currentTime ctx) == currentTime ctx)%Q ->
  (0 <= currentTime ctx)%Q ->
  (0 <= sustainTime (default 1000%Q (durationMs options)))%Q ->
  let n := nextRef w in
  let w' := (playTone options w).2 in
  (exists osc t,
     oscillators w' !! n = Some osc
     /\ type osc = sine
     /\ frequency osc = {| value := opt_frequency options; events := [] |}
     /\ startTime osc = Some (currentTime ctx)
     /\ stopTime osc = Some t
     /\ (t == toneEnd options (currentTime ctx))%Q)
  /\ panners w' !! S (S n)
     = Some {| pan_context := c;
               pan := {| value := match ear options with
                                  | left => -1
                                  | right => 1
                                  | both => 0
                                  end;
                         events := [] |} |}
  /\ connections w'
     = connections w
       ++ [(n, ToNode (S n)); (S n, ToNode (S (S (S n))));
           (S (S (S n)), ToNode (S (S n))); (S (S n), ToNode master)]
  /\ (toneEnd (tone both 0) 0 == 1)%Q
  /\ ~ (toneEnd (tone both 0) (Double.round64 (256 # 48000))
        == Double.round64 (Double.round64 (256 # 48000) + 1))%Q.
Proof.
  intros Hc Hm Hctx Hdouble Hnow Hsus. cbv zeta.
  destruct (tone_times_ordered options (currentTime ctx) Hdouble Hsus)
    as (H1 & H2 & H3).
  rewrite (playTone_ready options w c master Hc Hm).
  rewrite (playToneBody_run options w c master ctx Hc Hm Hctx Hnow)
    by Lqa.lra.
  cbn [snd tonePlayed oscillators panners connections].
  rewrite !lookup_insert_eq.
  split; [|split; [reflexivity|split; [reflexivity|]]].
  - eexists _, _. do 4 (split; [reflexivity|]).
    cbn [stopTime]. split; [reflexivity|].
    destruct (Qle_bool (toneEnd options (currentTime ctx)) (currentTime ctx))
      eqn:Hle; [|reflexivity].
    apply Qle_bool_iff in Hle. Lqa.lra.
  - split; [vm_compute; reflexivity | vm_compute; discriminate].
Qed.

Lemma playTone_oscillator_and_routing_witness :
  (exists osc t,
     oscillators (playTone (tone right (-26)) readyEngine).2
       !! nextRef readyEngine = Some osc
     /\ startTime osc = Some 0%Q
     /\ stopTime osc = Some t /\ (t == 1)%Q)
  /\ exists node,
       panners (playTone (tone right (-26)) readyEngine).2
         !! S (S (nextRef readyEngine)) = Some node
       /\ value (pan node) = 1%R.
Proof.
  destruct (playTone_oscillator_and_routing (tone right (-26)) readyEngine
              0%nat 1%nat {| state := running; currentTime := 0 |})
    as ((osc & t & Hosc & _ & _ & Hstart & Hstop & Ht) & Hpan & _);
    [vm_compute; reflexivity | vm_compute; reflexivity
     | vm_compute; reflexivity | vm_compute; reflexivity
     | vm_compute; discriminate | vm_compute; discriminate |].
  split.
  - exists osc, t. split; [exact Hosc|]. split; [exact Hstart|].
    split; [exact Hstop|].
    apply (Qeq_trans _ _ _ Ht). vm_compute. reflexivity.
  - eexists. split; [exact Hpan | reflexivity].
Defined.

(** [playTone] on an engine that is ready, on a request so short that the
    computed end of the sustain lies before time zero: the third entry of
    the envelope is refused. *)
Lemma playToneBody_refused (options : PlayToneOptions) (w : World)
    c master ctx :
  audioContext (engine w) = Some c ->
  masterGain (engine w) = Some master ->
  contexts w !! c = Some ctx ->
  (0 <= currentTime ctx)%Q ->
  (sustainEnd options (currentTime ctx) < 0)%Q ->
  exists w',
    playToneBody options w = (inl RangeError, w')
    /\ engine w'
       = set_activeGainNodes (activeGainNodes (engine w) ++ [S (nextRef w)])
           (set_activeOscillators
              (activeOscillators (engine w) ++ [nextRef w]) (engine w))
    /\ (exists osc, oscillators w' !! nextRef w = Some osc
                    /\ startTime osc = None)
    /\ contexts w' = contexts w.
Proof.
  intros Hc Hm Hctx Hnow Hsus.
  pose proof (attackEnd_nonneg _ Hnow) as Hatt.
  apply Qle_bool_iff in Hnow, Hatt. apply Qlt_Qle_bool_false in Hsus.
  unfold sustainEnd, attackEnd in *.
  destruct w as [p n cs os gs ps es [ac ao ag mg ii]]. cbn in Hc, Hm, Hctx.
  subst ac mg. unfold playToneBody.
  rewrite bind_run. cbv beta iota zeta delta [get engine audioContext masterGain].
  repeat first [ exec_step | rewrite Hctx | rewrite Hnow | rewrite Hatt
               | rewrite Hsus ].
  eexists. split; [reflexivity|]. cbn.
  split; [reflexivity|]. split; [|reflexivity].
  rewrite lookup_insert_eq. eexists. split; reflexivity.
Qed.

(** X9. A request too short for its envelope fails half way: when the end
    of the sustain, as the engine computes it in double arithmetic, lies
    before time zero, [playTone] throws a RangeError after it has listed
    the new oscillator and envelope gain as active; the oscillator has not
    been started.  [stopAll] still returns normally and clears both lists.
    At clock 0 a tone of 50 ms is such a request (its computed end of
    sustain is -2^-59, where the exact sum is 0), and at clock 0.036 a tone
    of 14 ms is not (its computed end of sustain is 0, where the exact sum
    is negative). *)
Theorem playTone_too_short_stays_listed (options : PlayToneOptions)
    (w : World) c master ctx :
  audioContext (engine w) = Some c ->
  masterGain (engine w) = Some master ->
  contexts w !! c = Some ctx ->
  (0 <= currentTime ctx)%Q ->
  (sustainEnd options (currentTime ctx) < 0)%Q ->
  let w' := (playTone options w).2 in
  ((playTone options w).1 = inl RangeError
   /\ activeOscillators (engine w')
      = activeOscillators (engine w) ++ [nextRef w]
   /\ activeGainNodes (engine w')
      = activeGainNodes (engine w) ++ [S (nextRef w)]
   /\ (exists osc, oscillators w' !! nextRef w = Some osc
                   /\ startTime osc = None)
   /\ (stopAll w').1 = inr tt
   /\ activeOscillators (engine (stopAll w').2) = []
   /\ activeGainNodes (engine (stopAll w').2) = [])
  /\ (sustainEnd blip 0 == - (1 # 2 ^ 59))%Q
  /\ (sustainEnd
        {| opt_frequency := 1000; ear := both; level := 0;
           durationMs := Some 14%Q |}
        (Double.round64 (36 # 1000)) == 0)%Q.
Proof.
  intros Hc Hm Hctx Hnow Hsus. cbv zeta.
  split; [|split; vm_compute; reflexivity].
  rewrite (playTone_ready options w c master Hc Hm).
  destruct (playToneBody_refused options w c master ctx Hc Hm Hctx Hnow Hsus)
    as (w' & -> & Heng & Hosc & _).
  cbn [fst snd]. rewrite Heng. cbn.
  split; [reflexivity|]. split; [reflexivity|]. split; [reflexivity|].
  split; [exact Hosc|].
  rewrite stopAll_run. cbn. auto.
Qed.

Lemma playTone_too_short_stays_listed_witness :
  (playTone blip readyEngine).1 = inl RangeError
  /\ activeOscillators (engine (playTone blip readyEngine).2)
     = activeOscillators (engine readyEngine) ++ [nextRef readyEngine].
Proof.
  destruct (playTone_too_short_stays_listed blip readyEngine
              0%nat 1%nat {| state := running; currentTime := 0 |})
    as ((Hthrows & Hlisted & _) & _);
    [vm_compute; reflexivity | vm_compute; reflexivity
     | vm_compute; reflexivity | vm_compute; discriminate
     | vm_compute; reflexivity |].
  split; [exact Hthrows | exact Hlisted].
Defined.

Ltac exec :=
  unfold initialize, initializeStart, initializeFinish;
  repeat first
    [ exec_step
    | progress cbv beta iota delta
        [from_option state currentTime contextAvailable initialState
         resumeSucceeds stopTwiceThrows] ].

(** X10. Acquiring the audio output: on an engine that holds neither a
    context nor a master gain, in a browser that provides a context and lets
    a suspended one resume, [initialize] returns normally; the engine is
    then initialized and holds a new context (running, when it was created
    suspended) and a new master gain of value 0.5 connected to the
    destination of that context; the active lists are as before. *)
Theorem initialize_acquires (w : World) :
  audioContext (engine w) = None ->
  masterGain (engine w) = None ->
  contextAvailable (platform w) = true ->
  (initialState (platform w) = suspended ->
   resumeSucceeds (platform w) = true) ->
  let n := nextRef w in
  let w' := (initialize w).2 in
  (initialize w).1 = inr tt
  /\ engine w'
     = {| audioContext := Some n;
          activeOscillators := activeOscillators (engine w);
          activeGainNodes := activeGainNodes (engine w);
          masterGain := Some (S n);
          isInitialized := true |}
  /\ contexts w' !! n
     = Some {| state := if isSuspended (initialState (platform w))
                        then running else initialState (platform w);
               currentTime := 0 |}
  /\ gainNodes w' !! S n
     = Some {| gain_context := n;
               gain := {| value := 0.5; events := [] |} |}
  /\ connections w' = connections w ++ [(S n, ToDestination n)].
Proof.
  intros Hc Hm Hav Hres.
  destruct w as [[av ini res tw] n cs os gs ps es [ac ao ag mg ii]].
  cbn in Hc, Hm, Hav, Hres. subst ac mg av. cbv zeta.
  destruct ii, ini; try (rewrite Hres in * by reflexivity; clear Hres);
    exec; repeat split; reflexivity.
Qed.

Lemma initialize_acquires_witness :
  (initialize (audioEngine oldBrowser)).1 = inr tt
  /\ getState (initialize (audioEngine oldBrowser)).2 = Some running
  /\ masterGain (engine (initialize (audioEngine oldBrowser)).2)
     = Some (S (nextRef (audioEngine oldBrowser))).
Proof.
  pose proof (initialize_acquires (audioEngine oldBrowser)) as H.
  cbv zeta in H.
  destruct H as (Hok & Hengine & Hctx & _);
    [vm_compute; reflexivity | vm_compute; reflexivity
     | vm_compute; reflexivity | intros _; vm_compute; reflexivity |].
  split; [exact Hok|].
  unfold getState, audioContext_state. rewrite Hengine.
  cbn [audioContext masterGain mbind option_bind]. rewrite Hctx.
  split; reflexivity.
Defined.

(** X11. Without an audio output nothing is retained: when the browser
    provides no context and the engine holds none, [initialize] and
    [playTone] both throw the TypeError of the missing constructor and
    leave the whole state as it was. *)
Theorem no_audio_output_changes_nothing (options : PlayToneOptions)
    (w : World) :
  audioContext (engine w) = None ->
  contextAvailable (platform w) = false ->
  initialize w = (inl TypeError, w)
  /\ playTone options w = (inl TypeError, w).
Proof.
  intros Hc Hav.
  destruct w as [[av ini res tw] n cs os gs ps es [ac ao ag mg ii]].
  cbn in Hc, Hav. subst ac av.
  set (w := {| platform := {| contextAvailable := false;
                               initialState := ini;
                               resumeSucceeds := res;
                               stopTwiceThrows := tw |};
                nextRef := n; contexts := cs; oscillators := os;
                gainNodes := gs; panners := ps; connections := es;
                engine := {| audioContext := None;
                             activeOscillators := ao;
                             activeGainNodes := ag; masterGain := mg;
                             isInitialized := ii |} |}).
  assert (Hinit : initialize w = (inl TypeError, w)).
  { subst w. destruct ii; exec; reflexivity. }
  split; [exact Hinit|].
  unfold playTone. rewrite bind_run.
  change (get w) with (@inr Exception _ w, w). cbv beta iota.
  change (audioContext (engine w)) with (@None ref). cbn [isNull orb].
  rewrite bind_run, Hinit. reflexivity.
Qed.

Lemma no_audio_output_changes_nothing_witness :
  initialize (audioEngine silentBrowser)
  = (inl TypeError, audioEngine silentBrowser)
  /\ playTone (tone both 0) (audioEngine silentBrowser)
     = (inl TypeError, audioEngine silentBrowser).
Proof.
  apply no_audio_output_changes_nothing; vm_compute; reflexivity.
Defined.

Ltac exec_with H := repeat first [progress exec | rewrite H].

(** X12. A refused resume keeps the context: when the browser creates the
    context suspended and refuses to resume it (no user gesture yet),
    [initialize] throws NotAllowedError, and the engine holds the new,
    still suspended context; nothing else of the engine changes, and no
    master gain is created. *)
Theorem initialize_resume_refused (w : World) :
  audioContext (engine w) = None ->
  contextAvailable (platform w) = true ->
  initialState (platform w) = suspended ->
  resumeSucceeds (platform w) = false ->
  let n := nextRef w in
  let w' := (initialize w).2 in
  (initialize w).1 = inl NotAllowedError
  /\ engine w' = set_audioContext (Some n) (engine w)
  /\ contexts w' !! n = Some {| state := suspended; currentTime := 0 |}
  /\ gainNodes w' = gainNodes w
  /\ connections w' = connections w.
Proof.
  intros Hc Hav Hini Hres.
  destruct w as [[av ini res tw] n cs os gs ps es [ac ao ag mg ii]].
  cbn in Hc, Hav, Hini, Hres. subst ac av ini res. cbv zeta.
  destruct ii; exec; repeat split; reflexivity.
Qed.

Lemma initialize_resume_refused_witness :
  (initialize (audioEngine waitingBrowser)).1 = inl NotAllowedError
  /\ engine (initialize (audioEngine waitingBrowser)).2
     = set_audioContext (Some (nextRef (audioEngine waitingBrowser)))
         (engine (audioEngine waitingBrowser)).
Proof.
  pose proof (initialize_resume_refused (audioEngine waitingBrowser)) as H.
  cbv zeta in H.
  destruct H as (Hthrows & Hengine & _); [vm_compute; reflexivity ..|].
  split; [exact Hthrows | exact Hengine].
Defined.

(** X13. [initialize] never replaces a context the engine holds: the engine
    holds the same context afterwards, however the call ends; every other
    context is as before, and the held one has at most been resumed. *)
Theorem initialize_keeps_held_context (w : World) (c : ref) :
  audioContext (engine w) = Some c ->
  let w' := (initialize w).2 in
  audioContext (engine w') = Some c
  /\ (forall c', c' <> c -> contexts w' !! c' = contexts w !! c')
  /\ (forall ctx, contexts w !! c = Some ctx ->
      exists ctx', contexts w' !! c = Some ctx'
                   /\ currentTime ctx' = currentTime ctx
                   /\ (state ctx' = state ctx \/
                       state ctx = suspended /\ state ctx' = running)).
Proof.
  intros Hc.
  destruct w as [[av ini res tw] n cs os gs ps es [ac ao ag mg ii]].
  cbn in Hc. subst ac. cbv zeta.
  destruct (cs !! c) as [[st t]|] eqn:Hctx.
  - destruct ii, st, res, mg; exec_with Hctx; cbn;
      (split; [reflexivity|]);
      (split; [intros c' Hne; rewrite ?lookup_insert_ne by congruence;
               reflexivity|]);
      intros ctx [= <-]; rewrite ?lookup_insert_eq, ?Hctx;
      eexists; (split; [reflexivity|]); cbn; auto.
  - destruct ii; exec_with Hctx; cbn;
      (split; [reflexivity|]); (split; [reflexivity|]); intros; discriminate.
Qed.

Lemma initialize_keeps_held_context_witness :
  audioContext (engine (initialize readyEngine).2) = Some 0%nat.
Proof.
  pose proof (initialize_keeps_held_context readyEngine 0%nat) as H.
  cbv zeta in H. apply H. vm_compute. reflexivity.
Defined.

(** X14. [initialize] is idempotent: after a call that returned normally, a
    second call returns normally and changes nothing (no second context, no
    second master gain, no second connection). *)
Theorem initialize_idempotent (w : World) :
  (initialize w).1 = inr tt ->
  initialize (initialize w).2 = (inr tt, (initialize w).2).
Proof.
  destruct w as [[av ini res tw] n cs os gs ps es [ac ao ag mg ii]].
  destruct ac as [c|].
  - destruct (cs !! c) as [[st t]|] eqn:Hctx.
    + destruct ii, st, res, mg; exec_with Hctx; cbn;
        intros H; try discriminate H; exec_with Hctx; reflexivity.
    + destruct ii; exec_with Hctx; cbn; intros H; discriminate H.
  - destruct ii, av, ini, res, mg; exec; cbn;
      intros H; try discriminate H; exec; reflexivity.
Qed.

Lemma initialize_idempotent_witness :
  initialize (initialize (audioEngine browser)).2
  = (inr tt, (initialize (audioEngine browser)).2).
Proof.
  apply initialize_idempotent. vm_compute. reflexivity.
Defined.

(** X15. [stopAll] touches only what is listed: the contexts, the panners,
    the connections and the engine's context, master gain and
    initialization flag are as before, and so is every oscillator and
    every gain node that is not in the active lists. *)
Theorem stopAll_frame (w : World) :
  let w' := (stopAll w).2 in
  contexts w' = contexts w
  /\ panners w' = panners w
  /\ connections w' = connections w
  /\ nextRef w' = nextRef w
  /\ audioContext (engine w') = audioContext (engine w)
  /\ masterGain (engine w') = masterGain (engine w)
  /\ isInitialized (engine w') = isInitialized (engine w)
  /\ (forall o, o ∉ activeOscillators (engine w) ->
      oscillators w' !! o = oscillators w !! o)
  /\ (forall g, g ∉ activeGainNodes (engine w) ->
      gainNodes w' !! g = gainNodes w !! g).
Proof.
  cbv zeta. rewrite stopAll_run.
  destruct w as [p n cs os gs ps es [ac ao ag mg ii]].
  cbn [snd contexts panners connections nextRef engine oscillators gainNodes
       audioContext masterGain isInitialized activeOscillators activeGainNodes
       with_engine with_gainNodes with_oscillators set_activeGainNodes
       set_activeOscillators platform].
  repeat (split; [reflexivity|]). split.
  - intros o Hout.
    rewrite (foldl_alter_lookup _ _ (tryStop_idempotent p cs)).
    destruct (decide (o ∈ ao)); [contradiction | reflexivity].
  - intros g Hout.
    rewrite (foldl_alter_lookup _ _ (silenceAt_idempotent _)).
    destruct (decide (g ∈ ag)); [contradiction | reflexivity].
Qed.

Lemma stopAll_frame_witness :
  gainNodes (stopAll twoTones).2 !! 1%nat = gainNodes twoTones !! 1%nat.
Proof.
  pose proof (stopAll_frame twoTones) as H. cbv zeta in H.
  destruct H as (_ & _ & _ & _ & _ & _ & _ & _ & Hgain).
  apply Hgain. rewrite list_elem_of_In. vm_compute.
  intros [H|[H|[]]]; discriminate H.
Defined.

(** X16. A second [stopAll] does nothing: after [stopAll], calling it again
    returns normally and leaves the state as it is. *)
Theorem stopAll_idempotent (w : World) :
  stopAll (stopAll w).2 = (inr tt, (stopAll w).2).
Proof.
  rewrite (stopAll_run w). cbn [snd]. rewrite stopAll_run.
  destruct w as [p n cs os gs ps es [ac ao ag mg ii]]. reflexivity.
Qed.

(** The state [dispose] leaves, from the one [stopAll] leaves. *)
Lemma dispose_run (w : World) :
  dispose w
  = (inr tt,
     let w1 := (stopAll w).2 in
     with_engine
       {| audioContext := None; activeOscillators := [];
          activeGainNodes := []; masterGain := None; isInitialized := false |}
       (match audioContext (engine w) with
        | Some c => (tryCatch (close c) w1).2
        | None => w1
        end)).
Proof.
  unfold dispose. rewrite bind_run, stopAll_run. cbv zeta. cbn [snd].
  destruct w as [p n cs os gs ps es [ac ao ag mg ii]].
  destruct ac as [c|].
  - exec. destruct (cs !! c) as [[st t]|] eqn:Hctx; [destruct st|];
      exec_with Hctx; reflexivity.
  - exec. reflexivity.
Qed.

(** X17. [dispose] releases everything and never throws: it returns
    normally from every state; afterwards the engine holds no context and no
    master gain, is not initialized and lists no active node, so that
    [getState] answers null; the context it held is closed and every other
    context is as before; and a second [dispose] changes nothing. *)
Theorem dispose_releases (w : World) :
  let w' := (dispose w).2 in
  (dispose w).1 = inr tt
  /\ engine w'
     = {| audioContext := None; activeOscillators := [];
          activeGainNodes := []; masterGain := None; isInitialized := false |}
  /\ getState w' = None
  /\ (forall c ctx, audioContext (engine w) = Some c ->
      contexts w !! c = Some ctx ->
      contexts w' !! c = Some (set_state closed ctx))
  /\ (forall c', audioContext (engine w) <> Some c' ->
      contexts w' !! c' = contexts w !! c')
  /\ dispose w' = (inr tt, w').
Proof.
  cbv zeta.
  assert (Hagain : dispose (dispose w).2 = (inr tt, (dispose w).2)).
  { rewrite (dispose_run w). cbn [snd]. rewrite dispose_run.
    cbv zeta. rewrite stopAll_run. reflexivity. }
  rewrite Hagain. rewrite dispose_run. cbv zeta. rewrite stopAll_run.
  destruct w as [p n cs os gs ps es [ac ao ag mg ii]].
  cbn [fst snd].
  split; [reflexivity|]. split; [reflexivity|]. split; [reflexivity|].
  split; [|split; [|reflexivity]].
  - intros c ctx Hc Hctx. cbn in Hc, Hctx. subst ac.
    destruct ctx as [st t]. destruct st; exec_with Hctx; reflexivity.
  - intros c' Hne. cbn in Hne. destruct ac as [c|]; [|reflexivity].
    destruct (cs !! c) as [[st t]|] eqn:Hctx; [destruct st|];
      exec_with Hctx; rewrite ?lookup_insert_ne by congruence; reflexivity.
Qed.

Lemma dispose_releases_witness :
  (dispose twoTones).1 = inr tt
  /\ contexts (dispose twoTones).2 !! 0%nat
     = Some {| state := closed; currentTime := 6 # 8 |}
  /\ getState (dispose twoTones).2 = None.
Proof.
  pose proof (dispose_releases twoTones) as H. cbv zeta in H.
  destruct H as (Hok & _ & Hstate & Hclosed & _).
  split; [exact Hok|]. split; [|exact Hstate].
  apply (Hclosed 0%nat {| state := running; currentTime := 6 # 8 |});
    vm_compute; reflexivity.
Defined.

(** [array.filter] takes the one occurrence of a pushed element back. *)
Lemma without_push (node : ref) (array : list ref) :
  node ∉ array -> without node (array ++ [node]) = array.
Proof.
  intros Hout. unfold without. rewrite List.filter_app. cbn.
  rewrite Nat.eqb_refl. cbn. rewrite app_nil_r.
  apply forallb_filter_id, forallb_forall. intros x Hx.
  apply negb_true_iff, Nat.eqb_neq. intros ->.
  apply Hout, list_elem_of_In, Hx.
Qed.

Lemma elem_of_without (node x : ref) (array : list ref) :
  x ∈ without node array <-> x ∈ array /\ x <> node.
Proof.
  unfold without. rewrite !list_elem_of_In, List.filter_In.
  rewrite negb_true_iff, Nat.eqb_neq. reflexivity.
Qed.

(** X18. The end of a tone removes that tone and no other: the handler left
    in [onended] never throws, takes its oscillator and its envelope gain out
    of the active lists, keeps every other entry, and changes nothing else
    of the state. *)
Theorem onended_removes_only_its_tone (oscillator envelopeGain : ref)
    (w : World) :
  let w' := (onendedHandler oscillator envelopeGain w).2 in
  (onendedHandler oscillator envelopeGain w).1 = inr tt
  /\ (forall o, o ∈ activeOscillators (engine w')
                <-> o ∈ activeOscillators (engine w) /\ o <> oscillator)
  /\ (forall g, g ∈ activeGainNodes (engine w')
                <-> g ∈ activeGainNodes (engine w) /\ g <> envelopeGain)
  /\ w' = with_engine
            (set_activeGainNodes (activeGainNodes (engine w'))
               (set_activeOscillators (activeOscillators (engine w'))
                  (engine w))) w.
Proof.
  destruct w as [p n cs os gs ps es [ac ao ag mg ii]]. cbv zeta.
  unfold onendedHandler. exec. cbn [fst snd engine activeOscillators
                                    activeGainNodes].
  split; [reflexivity|].
  split; [intros o; apply elem_of_without|].
  split; [intros g; apply elem_of_without|]. reflexivity.
Qed.

Lemma onended_removes_only_its_tone_witness :
  6%nat ∈ activeOscillators (engine (onendedHandler 2 3 twoTones).2)
  /\ 2%nat ∉ activeOscillators (engine (onendedHandler 2 3 twoTones).2).
Proof.
  pose proof (onended_removes_only_its_tone 2%nat 3%nat twoTones) as H.
  cbv zeta in H. destruct H as (_ & Hosc & _).
  split.
  - apply Hosc. split; [|discriminate].
    rewrite list_elem_of_In. vm_compute. auto.
  - intros Hin. apply Hosc in Hin. destruct Hin as [_ Hne]. apply Hne.
    reflexivity.
Defined.

(** X19. A tone played to its end leaves the engine as it was: after
    [playTone] on a ready engine (clock and computed end of the sustain not
    negative), the handler of the new oscillator, run with the nodes it
    captured, gives back the active lists from before the tone, provided
    the two new addresses were not already listed. *)
Theorem playTone_then_onended_restores_lists (options : PlayToneOptions)
    (w : World) c master ctx :
  audioContext (engine w) = Some c ->
  masterGain (engine w) = Some master ->
  contexts w !! c = Some ctx ->
  (0 <= currentTime ctx)%Q ->
  (0 <= sustainEnd options (currentTime ctx))%Q ->
  nextRef w ∉ activeOscillators (engine w) ->
  S (nextRef w) ∉ activeGainNodes (engine w) ->
  exists oscillator envelopeGain levelGain panNode w1,
    playTone options w
    = (inr (oscillator, envelopeGain, levelGain, panNode), w1)
    /\ (node ← oscillators w1 !! oscillator; onended node)
       = Some (oscillator, envelopeGain)
    /\ engine (onendedHandler oscillator envelopeGain w1).2 = engine w.
Proof.
  intros Hc Hm Hctx Hnow Hsus Ho Hg.
  do 4 eexists. exists (tonePlayed options c master (currentTime ctx) w).
  split.
  { rewrite (playTone_ready options w c master Hc Hm).
    apply playToneBody_run; assumption. }
  destruct w as [p n cs os gs ps es [ac ao ag mg ii]].
  cbn in Ho, Hg. unfold tonePlayed, onendedHandler. exec. cbn.
  rewrite ?lookup_insert_eq. cbn. split; [reflexivity|].
  rewrite !without_push by assumption. reflexivity.
Qed.

Lemma playTone_then_onended_restores_lists_witness :
  exists oscillator envelopeGain levelGain panNode w1,
    playTone (tone left (-20)) readyEngine
    = (inr (oscillator, envelopeGain, levelGain, panNode), w1)
    /\ engine (onendedHandler oscillator envelopeGain w1).2
       = engine readyEngine.
Proof.
  destruct (playTone_then_onended_restores_lists (tone left (-20)) readyEngine
              0%nat 1%nat {| state := running; currentTime := 0 |})
    as (o & g & l & p & w1 & Hrun & _ & Hback);
    [vm_compute; reflexivity | vm_compute; reflexivity
     | vm_compute; reflexivity | vm_compute; discriminate
     | vm_compute; discriminate
     | rewrite list_elem_of_In; vm_compute; intros []
     | rewrite list_elem_of_In; vm_compute; intros [] |].
  exists o, g, l, p, w1. split; [exact Hrun | exact Hback].
Defined.

End AudioEngineExtra.

(** ** Properties of the stored results *)

Module StorageFacts.
Import Storage.

Lemma load_granted (h : Host) :
  hasWindow h = true -> storageAllowed h = true ->
  loadStoredResults h
  = match localStorage h !! STORAGE_KEY with
    | None => (noResults, h)
    | Some stored =>
        match parseResults stored with
        | inr results => (results, h)
        | inl _ => (noResults, console_error "Failed to load stored results:" h)
        end
    end.
Proof.
  intros Hw Ha. unfold loadStoredResults, getItem. rewrite Hw, Ha. reflexivity.
Qed.

(** Whatever is parsed as results carries the current version. *)
Lemma parseResults_version (stored : Text) (results : gmap string Json) :
  parseResults stored = inr results ->
  results !! "version" = Some (JString STORAGE_VERSION).
Proof.
  assert (Hno : noResults !! "version" = Some (JString STORAGE_VERSION))
    by apply lookup_insert_eq.
  destruct stored as [| |[| | | | |parsed]]; cbn [parseResults]; intros H;
    try discriminate H; try (injection H as <-; exact Hno).
  destruct (parsed !! "version") as [[| | |version| |]|] eqn:Hv;
    try (injection H as <-; exact Hno).
  destruct (String.eqb version STORAGE_VERSION) eqn:Heq;
    injection H as <-; [|exact Hno].
  apply String.eqb_eq in Heq. subst version. exact Hv.
Qed.

Lemma load_version (h : Host) :
  (loadStoredResults h).1 !! "version" = Some (JString STORAGE_VERSION).
Proof.
  assert (Hno : noResults !! "version" = Some (JString STORAGE_VERSION))
    by apply lookup_insert_eq.
  unfold loadStoredResults.
  destruct (hasWindow h); cbn; [|exact Hno].
  destruct (getItem STORAGE_KEY h) as [e|[stored|]]; cbn; try exact Hno.
  destruct (parseResults stored) as [e|results] eqn:Hparse; cbn;
    [exact Hno|]. eapply parseResults_version, Hparse.
Qed.

(** Loading reads only: the flags and the storage are as before. *)
Lemma load_reads_only (h : Host) :
  hasWindow (loadStoredResults h).2 = hasWindow h
  /\ storageAllowed (loadStoredResults h).2 = storageAllowed h
  /\ storageFull (loadStoredResults h).2 = storageFull h
  /\ localStorage (loadStoredResults h).2 = localStorage h.
Proof.
  unfold loadStoredResults.
  destruct (hasWindow h) eqn:Hw; cbn; [|auto].
  destruct (getItem STORAGE_KEY h) as [e|[stored|]]; cbn; auto.
  destruct (parseResults stored); cbn; auto.
Qed.

(** What is loaded depends on the window and the storage only. *)
Lemma load_same (h h' : Host) :
  hasWindow h' = hasWindow h ->
  storageAllowed h' = storageAllowed h ->
  localStorage h' = localStorage h ->
  (loadStoredResults h').1 = (loadStoredResults h).1.
Proof.
  intros Hw Ha Hls. unfold loadStoredResults, getItem. rewrite Hw, Ha, Hls.
  destruct (hasWindow h); [|reflexivity]. cbn [negb].
  destruct (storageAllowed h); [|reflexivity].
  destruct (localStorage h !! STORAGE_KEY) as [stored|]; [|reflexivity].
  destruct (parseResults stored); reflexivity.
Qed.

(** What a stored object is read back as. *)
Lemma parse_stored (results : gmap string Json) :
  results !! "version" = Some (JString STORAGE_VERSION) ->
  parseResults (JSON_stringify (JObject results)) = inr results.
Proof.
  intros Hv. unfold JSON_stringify. cbn [parseResults]. rewrite Hv.
  rewrite String.eqb_refl. reflexivity.
Qed.

(** The item [saveTestResult] writes when nothing throws. *)
Lemma save_run (result : Json) (items : list Json) (h : Host) :
  usable h ->
  storedHistory h = Some (JArray items) ->
  saveTestResult result h
  = with_localStorage
      (<[STORAGE_KEY :=
           Serialized
             (JObject
                (<["history" := JArray (take 10 (result :: items))]>
                   (<["lastResult" := result]> (loadStoredResults h).1)))]>
         (localStorage h))
      (loadStoredResults h).2.
Proof.
  intros (Hw & Ha & Hf) Hhist. unfold saveTestResult, storedHistory in *.
  rewrite Hw. cbn [negb].
  destruct (load_reads_only h) as (Hw' & Ha' & Hf' & Hls).
  destruct (loadStoredResults h) as [stored h1]. cbn [fst snd] in *.
  rewrite lookup_insert_ne by discriminate. rewrite Hhist. cbn [unshift].
  unfold setItem. rewrite Ha', Hf', Ha, Hf. cbn [negb]. rewrite Hls.
  destruct (10 <? length (result :: items))%nat eqn:Hlen.
  - rewrite insert_insert_eq. reflexivity.
  - apply Nat.ltb_ge in Hlen. rewrite take_ge by exact Hlen. reflexivity.
Qed.

(** What is loaded after a save that went through. *)
Lemma load_after_save (result : Json) (items : list Json) (h : Host) :
  usable h ->
  storedHistory h = Some (JArray items) ->
  (loadStoredResults (saveTestResult result h)).1
  = <["history" := JArray (take 10 (result :: items))]>
      (<["lastResult" := result]> (loadStoredResults h).1).
Proof.
  intros Hu Hhist. rewrite (save_run result items h Hu Hhist).
  destruct Hu as (Hw & Ha & Hf).
  destruct (load_reads_only h) as (Hw' & Ha' & Hf' & Hls).
  rewrite load_granted; cbn [hasWindow storageAllowed with_localStorage];
    [|congruence|congruence].
  cbn [localStorage with_localStorage]. rewrite lookup_insert_eq.
  change (Serialized ?v) with (JSON_stringify v).
  rewrite parse_stored; [reflexivity|].
  rewrite !lookup_insert_ne by discriminate. apply load_version.
Qed.

Lemma save_usable (result : Json) (h : Host) :
  usable h -> usable (saveTestResult result h).
Proof.
  intros (Hw & Ha & Hf). unfold usable, saveTestResult. rewrite Hw. cbn [negb].
  destruct (load_reads_only h) as (Hw' & Ha' & Hf' & Hls).
  destruct (loadStoredResults h) as [stored h1]. cbn [fst snd] in *.
  destruct (unshift result _) as [e|history]; [cbn; intuition congruence|].
  unfold setItem. rewrite Ha', Hf', Ha, Hf. cbn. intuition congruence.
Qed.

(** X20. A saved result is the last result: in a browser that grants the
    storage and has room, when what is stored has a history (or nothing
    usable is stored), [saveTestResult] makes [getLastResult] return the
    result, puts it at the head of the history, which is cut to its first
    10 entries, keeps the version, and leaves every other key of the
    storage alone. *)
Theorem saved_result_is_last (result : Json) (items : list Json) (h : Host) :
  usable h ->
  storedHistory h = Some (JArray items) ->
  let h' := saveTestResult result h in
  (getLastResult h').1 = Some result
  /\ storedHistory h' = Some (JArray (take 10 (result :: items)))
  /\ (loadStoredResults h').1 !! "version" = Some (JString STORAGE_VERSION)
  /\ (forall key, key <> STORAGE_KEY ->
      localStorage h' !! key = localStorage h !! key).
Proof.
  intros Hu Hhist. cbv zeta.
  pose proof (load_after_save result items h Hu Hhist) as Hload.
  unfold getLastResult, storedHistory.
  destruct (loadStoredResults (saveTestResult result h)) as [stored h2] eqn:Hl.
  cbn [fst snd] in *. subst stored.
  split; [rewrite lookup_insert_ne by discriminate; apply lookup_insert_eq|].
  split; [apply lookup_insert_eq|].
  split; [rewrite !lookup_insert_ne by discriminate; apply load_version|].
  intros key Hkey. rewrite (save_run result items h Hu Hhist).
  cbn [localStorage with_localStorage]. rewrite lookup_insert_ne by congruence.
  reflexivity.
Qed.

Lemma saved_result_is_last_witness :
  (getLastResult (saveTestResult (JString "second")
                    (saveTestResult (JString "first") freshBrowser))).1
  = Some (JString "second")
  /\ storedHistory (saveTestResult (JString "second")
                      (saveTestResult (JString "first") freshBrowser))
     = Some (JArray (take 10 [JString "second"; JString "first"])).
Proof.
  destruct (saved_result_is_last (JString "second") [JString "first"]
              (saveTestResult (JString "first") freshBrowser))
    as (Hlast & Hhist & _).
  - repeat split; vm_compute; reflexivity.
  - vm_compute. reflexivity.
  - split; [exact Hlast | exact Hhist].
Defined.

Lemma saveAll_snoc (results : list Json) (result : Json) (h : Host) :
  saveAll (results ++ [result]) h = saveTestResult result (saveAll results h).
Proof. unfold saveAll. rewrite foldl_app. reflexivity. Qed.

Lemma take_cons_take (result : Json) (items : list Json) :
  take 10 (result :: take 10 items) = take 10 (result :: items).
Proof. cbn [take]. rewrite take_take. reflexivity. Qed.

Lemma saveAll_history (results : list Json) :
  forall (items : list Json) (h : Host),
    usable h ->
    storedHistory h = Some (JArray items) ->
    (length items <= 10)%nat ->
    usable (saveAll results h)
    /\ storedHistory (saveAll results h)
       = Some (JArray (take 10 (rev results ++ items))).
Proof.
  induction results as [|result results IH] using rev_ind;
    intros items h Hu Hhist Hlen.
  - cbn. split; [exact Hu|]. rewrite take_ge by exact Hlen. exact Hhist.
  - rewrite saveAll_snoc.
    destruct (IH items h Hu Hhist Hlen) as [Hu' Hhist'].
    split; [apply save_usable, Hu'|].
    unfold storedHistory at 1.
    rewrite (load_after_save result _ _ Hu' Hhist').
    rewrite lookup_insert_eq, take_cons_take, rev_app_distr. reflexivity.
Qed.

(** X21. The history holds the ten newest results, newest first: after any
    number of results saved one after the other, in a browser that grants
    the storage and has room and starts with a history of at most ten
    entries, the stored history consists of the first ten of the saved
    results in reverse order followed by the old entries; it never has more
    than ten entries, and the last saved result is the last result. *)
Theorem history_keeps_ten_newest (results : list Json) (items : list Json)
    (h : Host) :
  usable h ->
  storedHistory h = Some (JArray items) ->
  (length items <= 10)%nat ->
  let kept := take 10 (rev results ++ items) in
  storedHistory (saveAll results h) = Some (JArray kept)
  /\ (length kept <= 10)%nat
  /\ (forall result earlier, results = earlier ++ [result] ->
      (getLastResult (saveAll results h)).1 = Some result).
Proof.
  intros Hu Hhist Hlen. cbv zeta.
  split; [apply (saveAll_history results items h Hu Hhist Hlen)|].
  split; [rewrite length_take; lia|].
  intros result earlier ->. rewrite saveAll_snoc.
  destruct (saveAll_history earlier items h Hu Hhist Hlen) as [Hu' Hhist'].
  unfold getLastResult.
  pose proof (load_after_save result _ _ Hu' Hhist') as Hload.
  destruct (loadStoredResults (saveTestResult result (saveAll earlier h)))
    as [stored h2]. cbn [fst] in *. subst stored.
  rewrite lookup_insert_ne by discriminate. apply lookup_insert_eq.
Qed.

Lemma history_keeps_ten_newest_witness :
  storedHistory
    (saveAll (map JNumber [1; 2; 3; 4; 5; 6; 7; 8; 9; 10; 11; 12]%Z)
       freshBrowser)
  = Some (JArray (map JNumber [12; 11; 10; 9; 8; 7; 6; 5; 4; 3]%Z)).
Proof.
  destruct (history_keeps_ten_newest
              (map JNumber [1; 2; 3; 4; 5; 6; 7; 8; 9; 10; 11; 12]%Z) []
              freshBrowser) as (Hhist & _).
  - repeat split; vm_compute; reflexivity.
  - vm_compute. reflexivity.
  - cbn. lia.
  - exact Hhist.
Defined.

(** X22. Loading never writes and falls back to the empty results: on the
    server, when the storage is denied, when nothing or the empty string is
    stored, when the text is not JSON, and when the value is not an object
    of the current version, [loadStoredResults] returns the empty results
    of the current version; whatever it returns carries the current
    version; the storage is as before. *)
Theorem load_falls_back_to_empty (h : Host) :
  let results := (loadStoredResults h).1 in
  results !! "version" = Some (JString STORAGE_VERSION)
  /\ localStorage (loadStoredResults h).2 = localStorage h
  /\ (hasWindow h = false \/ storageAllowed h = false
      \/ localStorage h !! STORAGE_KEY = None
      \/ localStorage h !! STORAGE_KEY = Some EmptyText
      \/ localStorage h !! STORAGE_KEY = Some Malformed
      \/ (exists value,
            localStorage h !! STORAGE_KEY = Some (Serialized value)
            /\ forall members,
                 value = JObject members ->
                 members !! "version" <> Some (JString STORAGE_VERSION)) ->
      results = noResults)
  /\ (hasWindow h = true -> storageAllowed h = true ->
      forall members,
        localStorage h !! STORAGE_KEY = Some (Serialized (JObject members)) ->
        members !! "version" = Some (JString STORAGE_VERSION) ->
        loadStoredResults h = (members, h)).
Proof.
  cbv zeta. split; [apply load_version|].
  split; [apply load_reads_only|]. split.
  - intros Hcase. unfold loadStoredResults, getItem.
    destruct (hasWindow h); [|reflexivity]. cbn [negb].
    destruct (storageAllowed h); [|reflexivity].
    destruct Hcase as [Hc|[Hc|[Hc|[Hc|[Hc|(value & Hc & Hv)]]]]];
      try discriminate Hc; rewrite Hc; try reflexivity.
    destruct value as [| | | | |members]; try reflexivity.
    cbn. specialize (Hv members eq_refl).
    destruct (members !! "version") as [[| | |version| |]|] eqn:Hver;
      try reflexivity.
    destruct (String.eqb version STORAGE_VERSION) eqn:Heq; [|reflexivity].
    apply String.eqb_eq in Heq. congruence.
  - intros Hw Ha members Hitem Hver.
    rewrite (load_granted h Hw Ha), Hitem.
    change (Serialized ?v) with (JSON_stringify v).
    rewrite (parse_stored members Hver). reflexivity.
Qed.

Lemma load_falls_back_to_empty_witness :
  (loadStoredResults olderItem).1 = noResults.
Proof.
  pose proof (load_falls_back_to_empty olderItem) as H.
  cbv zeta in H. destruct H as (_ & _ & Hempty & _).
  apply Hempty. do 5 right. eexists. split; [vm_compute; reflexivity|].
  intros members [= <-]. vm_compute. discriminate.
Defined.

(** X23. Clearing forgets the results: in a browser that grants the
    storage, after [clearStoredResults] nothing is stored under the key,
    [loadStoredResults] gives the empty results, [getLastResult] gives
    null, and every other key is as before; this also holds right after a
    save. *)
Theorem clear_forgets_results (h : Host) :
  hasWindow h = true -> storageAllowed h = true ->
  let h' := clearStoredResults h in
  localStorage h' !! STORAGE_KEY = None
  /\ loadStoredResults h' = (noResults, h')
  /\ getLastResult h' = (Some JNull, h')
  /\ (forall key, key <> STORAGE_KEY ->
      localStorage h' !! key = localStorage h !! key)
  /\ console h' = console h.
Proof.
  intros Hw Ha. cbv zeta.
  unfold clearStoredResults, removeItem. rewrite Hw, Ha. cbn [negb].
  assert (Hload : loadStoredResults
                    (with_localStorage (delete STORAGE_KEY (localStorage h)) h)
                  = (noResults,
                     with_localStorage (delete STORAGE_KEY (localStorage h)) h)).
  { rewrite load_granted by assumption.
    cbn [localStorage with_localStorage]. rewrite lookup_delete_eq.
    reflexivity. }
  split; [cbn; apply lookup_delete_eq|]. split; [exact Hload|].
  split; [unfold getLastResult; rewrite Hload; reflexivity|].
  split; [|reflexivity].
  intros key Hkey. cbn. apply lookup_delete_ne. congruence.
Qed.

Lemma clear_forgets_results_witness :
  getLastResult
    (clearStoredResults (saveTestResult (JString "first") freshBrowser))
  = (Some JNull,
     clearStoredResults (saveTestResult (JString "first") freshBrowser)).
Proof.
  pose proof (clear_forgets_results
                (saveTestResult (JString "first") freshBrowser)) as H.
  cbv zeta in H.
  destruct H as (_ & _ & Hlast & _); [vm_compute; reflexivity ..|].
  exact Hlast.
Defined.

(** X24. A save that fails changes nothing but the console: when the
    storage is denied or full, or when what is stored has the current
    version but no array as its history, [saveTestResult] returns normally,
    leaves the storage as it is and reports the failure with
    [console.error].  In the last case the stored item stays as it is, so
    that every later save fails in the same way. *)
Theorem failed_save_changes_nothing (result : Json) (h : Host) :
  hasWindow h = true ->
  storageAllowed h = false \/ storageFull h = true
  \/ (forall items, storedHistory h <> Some (JArray items)) ->
  let h' := saveTestResult result h in
  localStorage h' = localStorage h
  /\ hasWindow h' = hasWindow h
  /\ storageAllowed h' = storageAllowed h
  /\ storageFull h' = storageFull h
  /\ console h'
     = console (loadStoredResults h).2 ++ ["Failed to save test result:"]
  /\ storedHistory h' = storedHistory h.
Proof.
  intros Hw Hcase. cbv zeta.
  assert (Hrun : saveTestResult result h
                 = console_error "Failed to save test result:"
                     (loadStoredResults h).2).
  { unfold saveTestResult. rewrite Hw. cbn [negb].
    destruct (load_reads_only h) as (Hw' & Ha' & Hf' & Hls).
    unfold storedHistory in Hcase.
    destruct (loadStoredResults h) as [stored h1]. cbn [fst snd] in *.
    rewrite lookup_insert_ne by discriminate.
    destruct (stored !! "history") as [[| | | |items|]|] eqn:Hh;
      cbn [unshift]; try reflexivity.
    unfold setItem. rewrite Ha', Hf'.
    destruct Hcase as [Hc|[Hc|Hc]].
    - rewrite Hc. reflexivity.
    - rewrite Hc. destruct (storageAllowed h); reflexivity.
    - exfalso. exact (Hc items eq_refl). }
  rewrite Hrun. destruct (load_reads_only h) as (Hw' & Ha' & Hf' & Hls).
  cbn [localStorage hasWindow storageAllowed storageFull console
       console_error].
  repeat (split; [assumption || reflexivity|]).
  unfold storedHistory. f_equal. apply load_same; assumption.
Qed.

Lemma failed_save_changes_nothing_witness :
  localStorage (saveTestResult (JString "first") historylessItem)
  = localStorage historylessItem
  /\ console (saveTestResult (JString "first") historylessItem)
     = console (loadStoredResults historylessItem).2
       ++ ["Failed to save test result:"].
Proof.
  pose proof (failed_save_changes_nothing (JString "first") historylessItem)
    as H.
  cbv zeta in H.
  destruct H as (Hstorage & _ & _ & _ & Hconsole & _).
  - vm_compute. reflexivity.
  - right. right. intros items. vm_compute. discriminate.
  - split; [exact Hstorage | exact Hconsole].
Defined.

(** X25. On the server nothing is touched: without a [window],
    [saveTestResult] and [clearStoredResults] do nothing, and
    [loadStoredResults] and [getLastResult] answer with the empty results
    and null. *)
Theorem server_side_is_inert (result : Json) (h : Host) :
  hasWindow h = false ->
  saveTestResult result h = h
  /\ clearStoredResults h = h
  /\ loadStoredResults h = (noResults, h)
  /\ getLastResult h = (Some JNull, h).
Proof.
  intros Hw. unfold getLastResult, saveTestResult, clearStoredResults,
    loadStoredResults. rewrite Hw. cbn. auto.
Qed.

Lemma server_side_is_inert_witness :
  saveTestResult (JString "first") server = server
  /\ getLastResult server = (Some JNull, server).
Proof.
  destruct (server_side_is_inert (JString "first") server)
    as (Hsave & _ & _ & Hlast); [reflexivity|].
  split; [exact Hsave | exact Hlast].
Defined.

End StorageFacts.

(** ** Properties of the audiogram chart *)

Module ChartFacts.
Import AudiogramChart.
Local Open Scope R_scope.

Lemma levelToY_linear (level : R) : levelToY level = 340 + 5 * level.
Proof.
  unfold levelToY, MIN_LEVEL, MAX_LEVEL, PADDING_top, PLOT_HEIGHT,
    CHART_HEIGHT, PADDING_top, PADDING_bottom. field.
Qed.

(** X26. Levels from -60 dB to 0 dB fill the height of the plot, the
    quietest at the top: [levelToY] puts -60 dB on the upper edge (40) and
    0 dB on the lower edge (340), 5 units per dB; a level is drawn inside
    the plot exactly when it lies in that range; the seven grid lines are
    50 units apart. *)
Theorem levelToY_fills_plot :
  (forall level, levelToY level = 340 + 5 * level)
  /\ levelToY MIN_LEVEL = PADDING_top
  /\ levelToY MAX_LEVEL = CHART_HEIGHT - PADDING_bottom
  /\ (forall level,
        PADDING_top <= levelToY level <= CHART_HEIGHT - PADDING_bottom
        <-> MIN_LEVEL <= level <= MAX_LEVEL)
  /\ (forall quieter louder,
        quieter < louder -> levelToY quieter < levelToY louder)
  /\ map levelToY gridLevels = [40; 90; 140; 190; 240; 290; 340].
Proof.
  split; [exact levelToY_linear|].
  split; [rewrite levelToY_linear; unfold MIN_LEVEL, PADDING_top; lra|].
  split; [rewrite levelToY_linear;
          unfold MAX_LEVEL, CHART_HEIGHT, PADDING_bottom; lra|].
  split; [intros level; rewrite levelToY_linear;
          unfold MIN_LEVEL, MAX_LEVEL, CHART_HEIGHT, PADDING_bottom,
            PADDING_top; split; lra|].
  split; [intros quieter louder Hlt; rewrite !levelToY_linear; lra|].
  unfold gridLevels. cbn [map]. rewrite !levelToY_linear.
  repeat (f_equal; try lra).
Qed.

Lemma levelToY_fills_plot_witness :
  levelToY (-26) < levelToY (-20)
  /\ PADDING_top <= levelToY (-20) <= CHART_HEIGHT - PADDING_bottom.
Proof.
  destruct levelToY_fills_plot as (_ & _ & _ & Hinside & Hmono & _).
  split; [apply Hmono; lra|].
  apply Hinside. unfold MIN_LEVEL, MAX_LEVEL. lra.
Defined.

Lemma ln2_pos : 0 < ln 2.
Proof. rewrite <- ln_1. apply ln_increasing; lra. Qed.

Lemma ln10_pos : 0 < ln 10.
Proof. rewrite <- ln_1. apply ln_increasing; lra. Qed.

Lemma ln_double (x : R) : 0 < x -> ln (2 * x) = ln 2 + ln x.
Proof. intros Hx. apply ln_mult; lra. Qed.

(** The logarithms of the six frequencies, octave by octave. *)
Lemma ln_octaves :
  ln 500 = ln 250 + ln 2
  /\ ln 1000 = ln 250 + 2 * ln 2
  /\ ln 2000 = ln 250 + 3 * ln 2
  /\ ln 4000 = ln 250 + 4 * ln 2
  /\ ln 8000 = ln 250 + 5 * ln 2.
Proof.
  assert (H1 : ln 500 = ln 250 + ln 2).
  { replace 500 with (2 * 250) by lra. rewrite ln_double by lra. lra. }
  assert (H2 : ln 1000 = ln 250 + 2 * ln 2).
  { replace 1000 with (2 * 500) by lra. rewrite ln_double by lra. lra. }
  assert (H3 : ln 2000 = ln 250 + 3 * ln 2).
  { replace 2000 with (2 * 1000) by lra. rewrite ln_double by lra. lra. }
  assert (H4 : ln 4000 = ln 250 + 4 * ln 2).
  { replace 4000 with (2 * 2000) by lra. rewrite ln_double by lra. lra. }
  assert (H5 : ln 8000 = ln 250 + 5 * ln 2).
  { replace 8000 with (2 * 4000) by lra. rewrite ln_double by lra. lra. }
  auto.
Qed.

Lemma frequencyToX_octave (k : nat) (freq : Z) (index : nat) :
  FREQUENCIES !! k = Some freq ->
  frequencyToX freq index = 60 + 100 * INR k.
Proof.
  intros Hk.
  destruct ln_octaves as (H1 & H2 & H3 & H4 & H5).
  pose proof ln2_pos as Hln2. pose proof ln10_pos as Hln10.
  unfold frequencyToX, log10, FREQUENCIES, PADDING_left, PLOT_WIDTH,
    CHART_WIDTH, PADDING_left, PADDING_right in *.
  cbn [map length nth Nat.sub].
  do 6 (destruct k as [|k];
        [injection Hk as <-; cbn [INR];
         rewrite ?H1, ?H2, ?H3, ?H4, ?H5; field; lra|]).
  discriminate Hk.
Qed.

(** X27. The six test frequencies are drawn one octave apart: the k-th
    frequency (250 Hz doubled k times) is placed at 60 + 100 k, from the
    left edge of the plot for 250 Hz to its right edge for 8000 Hz,
    whatever index is passed. *)
Theorem frequencies_one_octave_apart (k : nat) (freq : Z) (index : nat) :
  FREQUENCIES !! k = Some freq ->
  frequencyToX freq index = 60 + 100 * INR k
  /\ PADDING_left <= frequencyToX freq index <= CHART_WIDTH - PADDING_right.
Proof.
  intros Hk. rewrite (frequencyToX_octave k freq index Hk).
  split; [reflexivity|].
  assert (Hlt : (k < 6)%nat)
    by (apply lookup_lt_Some in Hk; exact Hk).
  assert (H0 : 0 <= INR k) by apply pos_INR.
  assert (H5 : INR k <= 5).
  { replace 5 with (INR 5) by (cbn; lra). apply le_INR. lia. }
  unfold PADDING_left, CHART_WIDTH, PADDING_right. lra.
Qed.

Lemma frequencies_one_octave_apart_witness :
  frequencyToX 2000 0 = 60 + 100 * INR 3.
Proof.
  apply (frequencies_one_octave_apart 3 2000 0). reflexivity.
Defined.

(** The two lists are collected independently of each other. *)
Lemma chartPoints_split (thresholds_left thresholds_right : gmap Z (option Z)) :
  chartPoints thresholds_left thresholds_right
  = (earPoints thresholds_left, earPoints thresholds_right).
Proof.
  unfold chartPoints, earPoints.
  generalize (imap pair FREQUENCIES).
  assert (Hgen : forall (entries : list (nat * Z)) (lp rp : list Point),
    foldl (fun points entry =>
             let index := entry.1 in
             let freq := entry.2 in
             let x := frequencyToX freq index in
             let leftLevel := thresholds_left !! freq in
             let rightLevel := thresholds_right !! freq in
             (pushPoint points.1 x leftLevel freq,
              pushPoint points.2 x rightLevel freq))
          (lp, rp) entries
    = (lp ++ flat_map (fun entry =>
                         pushPoint [] (frequencyToX entry.2 entry.1)
                           (thresholds_left !! entry.2) entry.2) entries,
       rp ++ flat_map (fun entry =>
                         pushPoint [] (frequencyToX entry.2 entry.1)
                           (thresholds_right !! entry.2) entry.2) entries)).
  { induction entries as [|entry entries IH]; intros lp rp.
    - cbn. rewrite !app_nil_r. reflexivity.
    - cbn [foldl flat_map]. rewrite IH. cbn [fst snd].
      f_equal; rewrite app_assoc; f_equal;
        unfold pushPoint;
        match goal with
        | |- context [?m !! ?k] => destruct (m !! k) as [[?|]|]
        end; rewrite ?app_nil_r; reflexivity. }
  intros entries. apply Hgen.
Qed.

Lemma earPoints_elem (levels : gmap Z (option Z)) (p : Point) :
  p ∈ earPoints levels ->
  exists k level,
    FREQUENCIES !! k = Some (freq p)
    /\ levels !! freq p = Some (Some level)
    /\ x p = frequencyToX (freq p) k
    /\ y p = levelToY (IZR level).
Proof.
  unfold earPoints. rewrite list_elem_of_In, in_flat_map.
  intros ([k f] & Hentry & Hp). cbn [fst snd] in Hp.
  apply list_elem_of_In, elem_of_lookup_imap in Hentry.
  destruct Hentry as (i & f' & [= -> ->] & Hlook).
  unfold pushPoint in Hp.
  destruct (levels !! f') as [[level|]|] eqn:Hlevel; try (destruct Hp; fail).
  cbn in Hp. destruct Hp as [<-|[]]. cbn [freq x y].
  exists i, level. auto.
Qed.

(** X28. The chart shows the measured thresholds and nothing else: each ear
    gets one point per frequency whose threshold is a number, in the order
    of the frequencies, none for [null]; the point stands at the place of
    its frequency, and at the height of its level; when the level lies
    between -60 dB and 0 dB (as every threshold of the default staircase
    does) the point is inside the plot area. *)
Theorem chart_shows_measured_thresholds
    (thresholds_left thresholds_right : gmap Z (option Z)) :
  let points := chartPoints thresholds_left thresholds_right in
  map freq points.1
  = List.filter (fun f => bool_decide (is_Some (mjoin (thresholds_left !! f))))
      FREQUENCIES
  /\ map freq points.2
     = List.filter
         (fun f => bool_decide (is_Some (mjoin (thresholds_right !! f))))
         FREQUENCIES
  /\ (forall p, p ∈ points.1 ->
      exists k level,
        FREQUENCIES !! k = Some (freq p)
        /\ thresholds_left !! freq p = Some (Some level)
        /\ x p = 60 + 100 * INR k /\ y p = 340 + 5 * IZR level
        /\ ((-60 <= level <= 0)%Z -> insidePlot p))
  /\ (forall p, p ∈ points.2 ->
      exists k level,
        FREQUENCIES !! k = Some (freq p)
        /\ thresholds_right !! freq p = Some (Some level)
        /\ x p = 60 + 100 * INR k /\ y p = 340 + 5 * IZR level
        /\ ((-60 <= level <= 0)%Z -> insidePlot p)).
Proof.
  cbv zeta. rewrite chartPoints_split. cbn [fst snd].
  assert (Hfreq : forall levels : gmap Z (option Z),
    map freq (earPoints levels)
    = List.filter (fun f => bool_decide (is_Some (mjoin (levels !! f))))
        FREQUENCIES).
  { intros levels. unfold earPoints.
    change FREQUENCIES with (map snd (imap pair FREQUENCIES)) at 2.
    generalize (imap pair FREQUENCIES) as entries.
    induction entries as [|[k f] entries IH]; [reflexivity|].
    cbn [flat_map map List.filter fst snd]. rewrite map_app, IH.
    destruct (levels !! f) as [[level|]|]; reflexivity. }
  assert (Hin : forall (levels : gmap Z (option Z)) p,
    p ∈ earPoints levels ->
    exists k level,
      FREQUENCIES !! k = Some (freq p)
      /\ levels !! freq p = Some (Some level)
      /\ x p = 60 + 100 * INR k /\ y p = 340 + 5 * IZR level
      /\ ((-60 <= level <= 0)%Z -> insidePlot p)).
  { intros levels p Hp.
    destruct (earPoints_elem levels p Hp) as (k & level & Hk & Hl & Hx & Hy).
    rewrite (frequencyToX_octave k _ k Hk) in Hx.
    rewrite levelToY_linear in Hy.
    exists k, level. do 4 (split; [assumption|]).
    intros [Hlo Hhi]. apply IZR_le in Hlo, Hhi.
    assert (Hlt : (k < 6)%nat) by (apply lookup_lt_Some in Hk; exact Hk).
    assert (H0 : 0 <= INR k) by apply pos_INR.
    assert (H5 : INR k <= 5).
    { replace 5 with (INR 5) by (cbn; lra). apply le_INR. lia. }
    unfold insidePlot, PADDING_left, PADDING_top, PADDING_right,
      PADDING_bottom, CHART_WIDTH, CHART_HEIGHT. rewrite Hx, Hy. lra. }
  split; [apply Hfreq|]. split; [apply Hfreq|].
  split; intros p Hp; apply Hin, Hp.
Qed.

Lemma chart_shows_measured_thresholds_witness :
  map freq (chartPoints {[ 250%Z := Some (-20)%Z; 500%Z := None ]} ∅).1
  = [250%Z].
Proof.
  pose proof (chart_shows_measured_thresholds
                {[ 250%Z := Some (-20)%Z; 500%Z := None ]} ∅) as H.
  cbv zeta in H. destruct H as (Hleft & _).
  rewrite Hleft. vm_compute. reflexivity.
Defined.

End ChartFacts.

(** ** Properties of the wizard's tones *)

Module WizardFacts.
Import TestWizard.

Lemma linearGain_bounds (dB : Z) :
  (-60 <= dB <= 0)%Z ->
  (0.0003 <= AudioEngine.linearGain (IZR dB) <= AudioEngine.referenceGain)%R.
Proof.
  intros [Hlo Hhi]. apply IZR_le in Hlo, Hhi.
  unfold AudioEngine.linearGain, AudioEngine.referenceGain.
  assert (Hup : (Rpower 10 (IZR dB / 20) <= 1)%R).
  { rewrite <- (Rpower_O 10) by lra. apply Rle_Rpower; lra. }
  assert (Hdown : (/ 1000 <= Rpower 10 (IZR dB / 20))%R).
  { rewrite <- AudioEngineFacts.Rpower_10_neg3. apply Rle_Rpower; lra. }
  lra.
Qed.

Lemma staircaseAfter_inBounds (responses : list Staircase.Response) :
  (-60 <= Staircase.getCurrentLevel (staircaseAfter responses).1 <= 0)%Z.
Proof.
  unfold staircaseAfter, Staircase.getCurrentLevel. cbn [fst snd].
  apply (StaircaseFacts.runFrom_inBounds Staircase.DEFAULT_CONFIG responses);
    unfold Staircase.inBounds; cbn; lia.
Qed.

(** X29. Every test tone stays at or below the reference level: whatever
    the listener has answered so far, the tone the wizard plays next for a
    frequency lasts one second, goes to the ear under test at one of the
    six frequencies, and has a level between -60 dB and 0 dB, so that its
    level gain lies between 0.0003 and the reference gain 0.3; on an engine
    that is ready [playTone] accepts it and registers the tone. *)
Theorem test_tones_stay_below_reference
    (responses : list Staircase.Response) (step : Step) (index : nat)
    (isPlaying testComplete emergencyStop : bool)
    (options : AudioEngine.PlayToneOptions) :
  autoPlay step index (Some (staircaseAfter responses))
    isPlaying testComplete emergencyStop = Some options ->
  AudioEngine.durationMs options = Some 1000%Q
  /\ (exists freq, FREQUENCIES !! index = Some freq
                   /\ AudioEngine.opt_frequency options = IZR freq)
  /\ AudioEngine.ear options
     = match step with
       | test_left => AudioEngine.left
       | _ => AudioEngine.right
       end
  /\ (exists dB, AudioEngine.level options = IZR dB /\ (-60 <= dB <= 0)%Z)
  /\ (0.0003 <= AudioEngine.linearGain (AudioEngine.level options)
      <= AudioEngine.referenceGain)%R
  /\ (forall w c master ctx,
        AudioEngine.audioContext (AudioEngine.engine w) = Some c ->
        AudioEngine.masterGain (AudioEngine.engine w) = Some master ->
        AudioEngine.contexts w !! c = Some ctx ->
        (0 <= AudioEngine.currentTime ctx)%Q ->
        exists nodes w',
          AudioEngine.playTone options w = (inr nodes, w')
          /\ AudioEngine.activeOscillators (AudioEngine.engine w')
             = AudioEngine.activeOscillators (AudioEngine.engine w)
               ++ [AudioEngine.nextRef w]).
Proof.
  unfold autoPlay, playTone. intros Hplay.
  destruct (isTest step && negb isPlaying && negb testComplete);
    [|discriminate Hplay].
  destruct (FREQUENCIES !! index) as [freq|] eqn:Hfreq;
    [|discriminate Hplay].
  cbn [mbind option_bind] in Hplay.
  destruct emergencyStop; [discriminate Hplay|].
  injection Hplay as <-.
  cbn [AudioEngine.durationMs AudioEngine.opt_frequency AudioEngine.ear
       AudioEngine.level].
  pose proof (staircaseAfter_inBounds responses) as Hb.
  split; [reflexivity|].
  split; [exists freq; split; reflexivity|].
  split; [destruct step; reflexivity|].
  split; [eexists; split; [reflexivity | exact Hb]|].
  split; [apply linearGain_bounds, Hb|].
  intros w c master ctx Hc Hm Hctx Hnow.
  eexists _, _. split.
  - rewrite (AudioEngineExtra.playTone_ready _ w c master Hc Hm).
    apply (AudioEngineExtra.playToneBody_run _ w c master ctx Hc Hm Hctx Hnow).
    unfold AudioEngine.sustainEnd.
    cbn [AudioEngine.durationMs default from_option id].
    apply DoubleFacts.add_nonneg;
      [apply AudioEngineExtra.attackEnd_nonneg, Hnow|].
    vm_compute. discriminate.
  - reflexivity.
Qed.

Lemma test_tones_stay_below_reference_witness :
  exists options,
    autoPlay test_left 2 (Some (staircaseAfter [Staircase.heard]))
      false false false = Some options
    /\ AudioEngine.level options = IZR (-26)
    /\ (0.0003 <= AudioEngine.linearGain (AudioEngine.level options)
        <= AudioEngine.referenceGain)%R.
Proof.
  pose proof (test_tones_stay_below_reference [Staircase.heard] test_left 2
                false false false) as H.
  eexists. split; [reflexivity|]. split; [reflexivity|].
  apply H. reflexivity.
Defined.

End WizardFacts.
